(** * An ordered adjacency list and four graph algorithms

    Shallow embedding of [adjlist.py] (classes [AdjacencyList] and [Edge])
    and of [algorithm.py] ([warshall], [floyd], [dijkstra], [prim] and their
    helpers), followed by the properties the specification states of them.

    Conventions of the embedding.
    - A linked sequence whose last cell is the empty sentinel object is a
      Rocq [list]; the sentinel is [[]].
    - Node names are strings, compared as Python compares [str]:
      [String.eqb] for [==] and [String.ltb] for [<].
    - Edge weights are Python integers ([Z]); matrix cells and distances
      are integers or [math.inf] ([num]).
    - A call that raises is [Raise e]; a call that returns [v] is [Ok v].
    - The algorithms mutate the nodes they are given through several
      references ([q], [s], the adjacency list itself).  A reference to a
      node is its position in the adjacency list, and the adjacency list is
      the store those references point into. *)

From Stdlib Require Import ZArith String Ascii Sorted OrdersEx.
From stdpp Require Import base option list sorting strings.

Local Open Scope Z_scope.

(** ** Python values used by the code *)

(** An integer or [math.inf]. *)
Inductive num : Type :=
  | Fin (z : Z)
  | Inf.

Inductive exn : Type :=
  | AttributeError
  | TypeError
  | IndexError
  | OverflowError.

(** Outcome of a call.  [Unfinished] is never produced by Python: it marks
    a [while] loop of the embedding that was given too few iterations. *)
Inductive result (A : Type) : Type :=
  | Ok (a : A)
  | Raise (e : exn)
  | Unfinished.
Arguments Ok {A} a.
Arguments Raise {A} e.
Arguments Unfinished {A}.

#[export] Instance result_ret : MRet result := fun A a => Ok a.
#[export] Instance result_bind : MBind result := fun A B f r =>
  match r with
  | Ok a => f a
  | Raise e => Raise e
  | Unfinished => Unfinished
  end.
#[export] Instance result_fmap : FMap result := fun A B f r =>
  match r with
  | Ok a => Ok (f a)
  | Raise e => Raise e
  | Unfinished => Unfinished
  end.

#[export] Instance num_eq_dec : EqDecision num.
Proof. solve_decision. Defined.
#[export] Instance exn_eq_dec : EqDecision exn.
Proof. solve_decision. Defined.

Module Num.

(** Python converts an integer that meets a float to a float, and raises
    [OverflowError] for the integers that round to a float beyond the
    largest one: those of absolute value [2^1024 - 2^970] or more. *)
Definition float_limit : Z := 2 ^ 1024 - 2 ^ 970.

(** [float(z)] returns. *)
Definition float_ok (z : Z) : bool := Z.abs z <? float_limit.

(** The sum of two costs in the integers extended by infinity.  This is
    arithmetic, not the code's [+], which is [add] below. *)
Definition sum (x y : num) : num :=
  match x, y with
  | Fin a, Fin b => Fin (a + b)
  | _, _ => Inf
  end.

(** [x] is [inf] or an integer that converts to a float. *)
Definition safe (x : num) : bool :=
  match x with
  | Fin a => float_ok a
  | Inf => true
  end.

(** [x + y]: two integers add exactly; an integer that meets [inf] is
    converted to a float first, which raises when it is too large. *)
Definition add (x y : num) : result num :=
  match x, y with
  | Fin a, Fin b => Ok (Fin (a + b))
  | Fin a, Inf => if float_ok a then Ok Inf else Raise OverflowError
  | Inf, Fin b => if float_ok b then Ok Inf else Raise OverflowError
  | Inf, Inf => Ok Inf
  end.

(** [x < y] *)
Definition ltb (x y : num) : bool :=
  match x, y with
  | Fin a, Fin b => a <? b
  | Fin _, Inf => true
  | Inf, _ => false
  end.

(** [x == inf] *)
Definition is_inf (x : num) : bool :=
  match x with
  | Inf => true
  | Fin _ => false
  end.

(** [x == 0] *)
Definition is_zero (x : num) : bool :=
  match x with
  | Fin z => z =? 0
  | Inf => false
  end.

(** [min(x, y)]: Python returns [y] only when [y < x]. *)
Definition min (x y : num) : num := if ltb y x then y else x.

(** The order [x <= y], as a proposition. *)
Definition le (x y : num) : Prop := ltb y x = false.

End Num.

(** [l[i]] for a Python list: [IndexError] out of range. *)
Definition py_get {A} (l : list A) (i : nat) : result A :=
  match l !! i with
  | Some x => Ok x
  | None => Raise IndexError
  end.

(** [l[i] = x] for a Python list: [IndexError] out of range. *)
Definition py_set {A} (l : list A) (i : nat) (x : A) : result (list A) :=
  if decide (i < length l)%nat then Ok (<[i := x]> l) else Raise IndexError.

(** [for x in xs: s = body x s], stopping at the first exception. *)
Fixpoint for_each {A S} (xs : list A) (body : A -> S -> result S) (s : S)
  : result S :=
  match xs with
  | [] => Ok s
  | x :: xs' => body x s ≫= for_each xs' body
  end.

(** [for i in range(n)] *)
Definition for_range {S} (n : nat) (body : nat -> S -> result S) (s : S)
  : result S :=
  for_each (seq 0 n) body s.

(** ** class Edge *)

Module Edge.

(** One cell of the edge sequence: [_dst] and [_weight]. *)
Record cell : Type := Cell { dst : string; weight : Z }.

(** An edge sequence; [Edge()] is [[]]. *)
Abbreviation t := (Datatypes.list cell).

Fixpoint add (self : t) (d : string) (w : Z) : t :=
  match self with
  | [] => [Cell d w]
  | hd :: tl =>
      if String.eqb d (dst hd) then Cell (dst hd) w :: tl
      else if String.ltb d (dst hd) then Cell d w :: hd :: tl
      else hd :: add tl d w
  end.

Fixpoint delete (self : t) (d : string) : t :=
  match self with
  | [] => []
  | hd :: tl => if String.eqb d (dst hd) then tl else hd :: delete tl d
  end.

Fixpoint find (self : t) (d : string) : bool :=
  match self with
  | [] => false
  | hd :: tl => if String.eqb d (dst hd) then true else find tl d
  end.

Fixpoint cardinality (self : t) : nat :=
  match self with
  | [] => 0%nat
  | _ :: tl => (cardinality tl + 1)%nat
  end.

Fixpoint list (self : t) (src : string) : list (string * string * Z) :=
  match self with
  | [] => []
  | hd :: tl => (src, dst hd, weight hd) :: list tl src
  end.

End Edge.

(** ** class AdjacencyList *)

(** The [info] field: [None], or the pair [[distance, previous]] that
    Dijkstra and Prim store there. *)
Abbreviation info_t := (option (num * option string)).

(** One cell of the node sequence: [_name], [_info] and [_edges]. *)
Record node : Type := Node { name : string; info : info_t; edges : Edge.t }.

#[export] Instance node_inhabited : Inhabited node :=
  populate (Node "" None []).

(** An adjacency list; [AdjacencyList()] is [[]]. *)
Abbreviation AdjacencyList := (list node).

(** What a node lookup hands back: a reference to a node, or an integer. *)
Inductive pyval : Type :=
  | PyNode (ref : nat)
  | PyInt (z : Z).

(** A reference into the tail, seen from the head. *)
Definition from_tail (v : pyval) : pyval :=
  match v with
  | PyNode r => PyNode (S r)
  | PyInt z => PyInt z
  end.

Definition set_info (nd : node) (i : info_t) : node :=
  Node (name nd) i (edges nd).

Definition set_edges (nd : node) (es : Edge.t) : node :=
  Node (name nd) (info nd) es.

Fixpoint add_node (self : AdjacencyList) (nm : string) (i : info_t)
  : AdjacencyList :=
  match self with
  | [] => [Node nm i []]
  | hd :: tl =>
      if String.ltb nm (name hd) then Node nm i [] :: hd :: tl
      else hd :: add_node tl nm i
  end.

Fixpoint delete_node (self : AdjacencyList) (nm : string) : AdjacencyList :=
  match self with
  | [] => []
  | hd :: tl =>
      if String.eqb nm (name hd) then tl
      else if String.ltb (name hd) nm then hd :: delete_node tl nm
      else hd :: tl
  end.

Fixpoint find_node (self : AdjacencyList) (nm : string) : bool :=
  match self with
  | [] => false
  | hd :: tl => if String.eqb nm (name hd) then true else find_node tl nm
  end.

Fixpoint get_node (self : AdjacencyList) (nm : string) : pyval :=
  match self with
  | [] => PyInt 0
  | hd :: tl =>
      if String.eqb nm (name hd) then PyNode 0
      else from_tail (get_node tl nm)
  end.

Fixpoint node_cardinality (self : AdjacencyList) : nat :=
  match self with
  | [] => 0%nat
  | _ :: tl => (node_cardinality tl + 1)%nat
  end.

(** [_add_edge]; on the empty list [src > self.name()] compares a string
    with [None] and raises. *)
Fixpoint _add_edge (self : AdjacencyList) (src d : string) (w : Z)
  : result AdjacencyList :=
  match self with
  | [] => Raise TypeError
  | hd :: tl =>
      if String.eqb src (name hd)
      then Ok (set_edges hd (Edge.add (edges hd) d w) :: tl)
      else if String.ltb (name hd) src
      then tl' ← _add_edge tl src d w; Ok (hd :: tl')
      else Ok (hd :: tl)
  end.

Definition add_edge (self : AdjacencyList) (src d : string) (w : Z)
  : result AdjacencyList :=
  if negb (find_node self src) || negb (find_node self d) then Ok self
  else _add_edge self src d w.

Fixpoint find_edge (self : AdjacencyList) (src d : string) : bool :=
  match self with
  | [] => false
  | hd :: tl =>
      if String.eqb src (name hd) then Edge.find (edges hd) d
      else find_edge tl src d
  end.

Fixpoint _delete_edge (self : AdjacencyList) (src d : string)
  : result AdjacencyList :=
  match self with
  | [] => Raise TypeError
  | hd :: tl =>
      if String.eqb src (name hd)
      then Ok (set_edges hd (Edge.delete (edges hd) d) :: tl)
      else if String.ltb (name hd) src
      then tl' ← _delete_edge tl src d; Ok (hd :: tl')
      else Ok (hd :: tl)
  end.

Definition delete_edge (self : AdjacencyList) (src d : string)
  : result AdjacencyList :=
  if negb (find_edge self src d) then Ok self
  else _delete_edge self src d.

Fixpoint delete_edges (self : AdjacencyList) (nm : string) : AdjacencyList :=
  match self with
  | [] => []
  | hd :: tl =>
      set_edges hd (Edge.delete (edges hd) nm) :: delete_edges tl nm
  end.

Fixpoint edge_cardinality (self : AdjacencyList) : nat :=
  match self with
  | [] => 0%nat
  | hd :: tl => (Edge.cardinality (edges hd) + edge_cardinality tl)%nat
  end.

Fixpoint self_loops (self : AdjacencyList) : nat :=
  match self with
  | [] => 0%nat
  | hd :: tl =>
      if find_edge self (name hd) (name hd)
      then (self_loops tl + 1)%nat
      else self_loops tl
  end.

(** [find_dst_index]; reaching the empty list asks it for its tail and
    raises. *)
Fixpoint find_dst_index (self : AdjacencyList) (d : string) : result nat :=
  match self with
  | [] => Raise AttributeError
  | hd :: tl =>
      if String.eqb d (name hd) then Ok 0%nat
      else i ← find_dst_index tl d; Ok (i + 1)%nat
  end.

Abbreviation matrix A := (list (list A)).

(** [matrix[i][j]] *)
Definition mat_get {A} (m : matrix A) (i j : nat) : result A :=
  row ← py_get m i; py_get row j.

(** [matrix[i][j] = x] *)
Definition mat_set {A} (m : matrix A) (i j : nat) (x : A)
  : result (matrix A) :=
  row ← py_get m i; row' ← py_set row j x; py_set m i row'.

(** The [while] loop of [add_list_to_matrix]: [rest] is what remains of
    the node sequence, [i] its row. *)
Fixpoint add_rows (self rest : AdjacencyList) (i : nat) (m : matrix num)
  : result (matrix num) :=
  match rest with
  | [] => Ok m
  | hd :: tl =>
      m' ← for_each (edges hd)
             (fun e m =>
                dst_index ← find_dst_index self (Edge.dst e);
                mat_set m i dst_index (Fin (Edge.weight e)))
             m;
      add_rows self tl (i + 1) m'
  end.

Definition add_list_to_matrix (self : AdjacencyList) (m : matrix num)
  : result (matrix num) :=
  add_rows self self 0 m.

(** [[[inf] * n for i in range(n)]] *)
Definition inf_matrix (n : nat) : matrix num := replicate n (replicate n Inf).

Definition adjacency_matrix (self : AdjacencyList) : result (matrix num) :=
  match self with
  | [] => Ok [[]]
  | _ =>
      let n := node_cardinality self in
      add_list_to_matrix self (inf_matrix n)
  end.

Fixpoint list_nodes (self : AdjacencyList) : list string :=
  match self with
  | [] => []
  | hd :: tl => name hd :: list_nodes tl
  end.

(** [list_nodes_object]: the references to the nodes, in sequence order;
    [base] is the position of the head of [self]. *)
Fixpoint list_nodes_object_from (base : nat) (self : AdjacencyList)
  : list nat :=
  match self with
  | [] => []
  | _ :: tl => base :: list_nodes_object_from (S base) tl
  end.

Definition list_nodes_object (self : AdjacencyList) : list nat :=
  list_nodes_object_from 0 self.

Fixpoint list_edges (self : AdjacencyList) : list (string * string * Z) :=
  match self with
  | [] => []
  | hd :: tl => Edge.list (edges hd) (name hd) ++ list_edges tl
  end.

(** [list_edges_object] of the node behind a reference. *)
Definition list_edges_object (nd : node) : list Edge.cell := edges nd.

(** ** algorithm.py *)

(** [node.info()[0]] and [node.info()[1]]; subscripting [None] raises. *)
Definition info0 (nd : node) : result num :=
  match info nd with
  | Some (x, _) => Ok x
  | None => Raise TypeError
  end.

Definition info1 (nd : node) : result (option string) :=
  match info nd with
  | Some (_, p) => Ok p
  | None => Raise TypeError
  end.

(** [r.set_info(i)] for a reference [r] into the store [g]. *)
Definition store_info (g : AdjacencyList) (r : nat) (i : info_t)
  : AdjacencyList :=
  alter (fun nd => set_info nd i) r g.

(** One turn of the [for] loop of [floyd], at [(k, i, j)]. *)
Definition floyd_step (k i j : nat) (m : matrix num) : result (matrix num) :=
  mij ← mat_get m i j;
  if (i =? j)%nat && Num.is_inf mij then mat_set m i j (Fin 0)
  else
    mik ← mat_get m i k;
    mkj ← mat_get m k j;
    through ← Num.add mik mkj;
    mat_set m i j (Num.min mij through).

Definition floyd_loops (n : nat) (m : matrix num) : result (matrix num) :=
  for_range n (fun k =>
    for_range n (fun i =>
      for_range n (fun j => floyd_step k i j))) m.

Definition floyd (adjlist : AdjacencyList) : result (matrix num) :=
  let n := node_cardinality adjlist in
  m ← add_list_to_matrix adjlist (inf_matrix n);
  floyd_loops n m.

(** A cell of the matrix [warshall] rewrites in place: still a number, or
    already a boolean. *)
Inductive wcell : Type :=
  | WNum (x : num)
  | WBool (b : bool).

(** [c == inf] *)
Definition wcell_is_inf (c : wcell) : bool :=
  match c with
  | WNum x => Num.is_inf x
  | WBool _ => false
  end.

Definition warshall_step (i j : nat) (m : matrix wcell)
  : result (matrix wcell) :=
  c ← mat_get m i j;
  mat_set m i j (WBool (if wcell_is_inf c then false else true)).

Definition warshall_loops (m : matrix wcell) : result (matrix wcell) :=
  for_range (length m) (fun i m =>
    row ← py_get m i;
    for_range (length row) (warshall_step i) m) m.

(** The matrix [floyd] returns, seen as the matrix [warshall] rewrites. *)
Definition as_wcells (m : matrix num) : matrix wcell :=
  (fun row : list num => WNum <$> row) <$> m.

Definition warshall (adjlist : AdjacencyList) : result (matrix wcell) :=
  m ← floyd adjlist;
  warshall_loops (as_wcells m).

(** [init_single_source]: [q] receives the references to all nodes, and
    every node behind them its initial [info]. *)
Definition init_single_source (adjlist : AdjacencyList) (q : list nat)
    (start_node : string) : AdjacencyList * list nat :=
  let q := q ++ list_nodes_object adjlist in
  (foldl (fun g r =>
            if String.eqb (name (g !!! r)) start_node
            then store_info g r (Some (Fin 0, None))
            else store_info g r (Some (Inf, None)))
         adjlist q,
   q).

(** [get_min_node]: the reference popped, and what is left of [arr]. *)
Definition get_min_node (g : AdjacencyList) (arr : list nat)
  : result (nat * list nat) :=
  min_index ← for_range (length arr) (fun i min_index =>
      a ← py_get arr i;
      x ← info0 (g !!! a);
      b ← py_get arr min_index;
      y ← info0 (g !!! b);
      Ok (if Num.ltb x y then i else min_index)) 0%nat;
  u ← py_get arr min_index;
  Ok (u, delete min_index arr).

Definition relax (g : AdjacencyList) (u : nat) (v : pyval) (w : Z)
  : result AdjacencyList :=
  match v with
  | PyInt _ => Raise AttributeError
  | PyNode v =>
      dv ← info0 (g !!! v);
      du ← info0 (g !!! u);
      through ← Num.add du (Fin w);
      if Num.ltb through dv
      then
        through ← Num.add du (Fin w);
        Ok (store_info g v (Some (through, Some (name (g !!! u)))))
      else Ok g
  end.

(** Stable sort of references by node name ([nodes.sort(key=...)]). *)
Fixpoint insert_by_name (g : AdjacencyList) (x : nat) (l : list nat)
  : list nat :=
  match l with
  | [] => [x]
  | y :: l' =>
      if String.ltb (name (g !!! y)) (name (g !!! x))
      then y :: insert_by_name g x l'
      else x :: y :: l'
  end.

Fixpoint sort_by_name (g : AdjacencyList) (l : list nat) : list nat :=
  match l with
  | [] => []
  | x :: l' => insert_by_name g x (sort_by_name g l')
  end.

Definition get_output (g : AdjacencyList) (nodes : list nat)
    (distance : list (option num)) (previous : list (option string))
  : result (list (option num) * list (option string)) :=
  let nodes := sort_by_name g nodes in
  for_each (imap pair nodes) (fun '(i, r) '(distance, previous) =>
      x ← info0 (g !!! r);
      distance ← py_set distance i
                   (if Num.is_zero x then None else Some x);
      p ← info1 (g !!! r);
      previous ← py_set previous i
                   (if Num.is_zero x then None else p);
      Ok (distance, previous)) (distance, previous).

(** The edge loop of [dijkstra] for the popped node [u]. *)
Definition dijkstra_edges (g : AdjacencyList) (u : nat)
  : result AdjacencyList :=
  for_each (list_edges_object (g !!! u)) (fun edge g =>
      relax g u (get_node g (Edge.dst edge)) (Edge.weight edge)) g.

(** The [while len(q) > 0] loop of [dijkstra], run for at most [fuel]
    turns. *)
Fixpoint dijkstra_loop (fuel : nat) (g : AdjacencyList) (q s : list nat)
  : result (AdjacencyList * list nat) :=
  match q with
  | [] => Ok (g, s)
  | _ :: _ =>
      match fuel with
      | O => Unfinished
      | S fuel' =>
          '(u, q') ← get_min_node g q;
          g' ← dijkstra_edges g u;
          dijkstra_loop fuel' g' q' (s ++ [u])
      end
  end.

(** [dijkstra] up to the call of [get_output]: the store and [s]. *)
Definition dijkstra_run (adjlist : AdjacencyList) (start_node : string)
  : result (AdjacencyList * list nat) :=
  let '(g, q) := init_single_source adjlist [] start_node in
  dijkstra_loop (length q) g q [].

Definition dijkstra (adjlist : AdjacencyList) (start_node : string)
  : result (list (option num) * list (option string)) :=
  let n := node_cardinality adjlist in
  '(g, s) ← dijkstra_run adjlist start_node;
  get_output g s (replicate n None) (replicate n None).

(** The body of the edge loop of [prim]: [q] is the working set after [u]
    was popped.  [0 in q] is false for the integer a failed lookup
    returns. *)
Definition prim_scan (q : list nat) (u : nat) (edge : Edge.cell)
    (g : AdjacencyList) : result AdjacencyList :=
  match get_node g (Edge.dst edge) with
  | PyInt _ => Ok g
  | PyNode v =>
      if bool_decide (v ∈ q)
      then
        lv ← info0 (g !!! v);
        if Num.ltb (Fin (Edge.weight edge)) lv
        then Ok (store_info g v
                   (Some (Fin (Edge.weight edge), Some (name (g !!! u)))))
        else Ok g
      else Ok g
  end.

Definition prim_edges (g : AdjacencyList) (q : list nat) (u : nat)
  : result AdjacencyList :=
  for_each (list_edges_object (g !!! u)) (prim_scan q u) g.

Fixpoint prim_loop (fuel : nat) (g : AdjacencyList) (q s : list nat)
  : result (AdjacencyList * list nat) :=
  match q with
  | [] => Ok (g, s)
  | _ :: _ =>
      match fuel with
      | O => Unfinished
      | S fuel' =>
          '(u, q') ← get_min_node g q;
          g' ← prim_edges g q' u;
          prim_loop fuel' g' q' (s ++ [u])
      end
  end.

Definition prim_run (adjlist : AdjacencyList) (start_node : string)
  : result (AdjacencyList * list nat) :=
  let '(g, q) := init_single_source adjlist [] start_node in
  prim_loop (length q) g q [].

Definition prim (adjlist : AdjacencyList) (start_node : string)
  : result (list (option num) * list (option string)) :=
  let n := node_cardinality adjlist in
  '(g, s) ← prim_run adjlist start_node;
  get_output g s (replicate n None) (replicate n None).

(** ** The graphs of the specification's scenarios *)

(** [g.add_node(nm)] then, for each triple, [g.add_edge(src, dst, w)]. *)
Definition build (names : list string) (es : list (string * string * Z))
  : result AdjacencyList :=
  for_each es (fun '(s, d, w) g => add_edge g s d w)
    (foldl (fun g nm => add_node g nm None) [] names).

Definition dijkstra_scenario : result AdjacencyList :=
  build ["a"; "b"; "c"] [("a", "b", 1); ("a", "c", 2); ("b", "c", 2)].

Definition prim_scenario : result AdjacencyList :=
  build ["a"; "b"; "c"]
    [("a", "b", 1); ("b", "a", 1); ("a", "c", 3); ("c", "a", 3);
     ("b", "c", 1); ("c", "b", 1)].

Definition floyd_scenario : result AdjacencyList :=
  build ["a"; "b"] [("a", "b", 5)].

(** * Definitions used by the properties *)

(** ** The invariant of the data model *)

(** [ascending l]: each name is below the next one. *)
Fixpoint ascending (l : list string) : bool :=
  match l with
  | [] => true
  | x :: l' =>
      match l' with
      | [] => true
      | y :: _ => String.ltb x y && ascending l'
      end
  end.

(** Nodes ordered by name without duplicates, and the edges of every node
    ordered by destination without duplicates. *)
Definition well_formed (g : AdjacencyList) : bool :=
  ascending (list_nodes g)
  && forallb (fun nd => ascending (Edge.dst <$> edges nd)) g.

(** Every edge points to a node of the graph. *)
Definition edges_closed (g : AdjacencyList) : bool :=
  forallb (fun nd => forallb (fun e => find_node g (Edge.dst e)) (edges nd)) g.

(** No edge has a negative weight. *)
Definition weights_nonneg (g : AdjacencyList) : bool :=
  forallb (fun nd => forallb (fun e => 0 <=? Edge.weight e) (edges nd)) g.

(** Every weight converts to a float, so that [inf + weight] returns. *)
Definition weights_float (g : AdjacencyList) : bool :=
  forallb (fun nd => forallb (fun e => Num.float_ok (Edge.weight e)) (edges nd))
    g.

(** The largest weight of an edge sequence and of a graph, [0] when no
    weight is above [0]. *)
Definition edges_max (es : Edge.t) : Z :=
  foldr (fun e acc => Z.max (Edge.weight e) acc) 0 es.

Definition max_weight (g : AdjacencyList) : Z :=
  foldr (fun nd acc => Z.max (edges_max (edges nd)) acc) 0 g.

(** A bound on the cost of a walk that visits no node twice: it has at
    most [N + 1] edges, each of at most the largest weight. *)
Definition cost_bound (g : AdjacencyList) : Z :=
  (Z.of_nat (length g) + 1) * max_weight g.

(** Twice that bound converts to a float: [floyd] adds two such costs
    before it takes the minimum, and a sum it has stored may meet [inf]. *)
Definition costs_float (g : AdjacencyList) : bool :=
  2 * cost_bound g <? Num.float_limit.

(** [x] is [inf] or at most [B]. *)
Definition cost_below (B : Z) (x : num) : Prop :=
  match x with
  | Fin a => a <= B
  | Inf => True
  end.

(** Every edge has a positive weight. *)
Definition weights_positive (g : AdjacencyList) : bool :=
  forallb (fun nd => forallb (fun e => 0 <? Edge.weight e) (edges nd)) g.

(** ** Matrices *)

(** [sq n m]: [m] has [n] rows of [n] cells. *)
Definition sq {A} (n : nat) (m : matrix A) : Prop :=
  length m = n /\ Forall (fun row => length row = n) m.

(** The cell [(i, j)] of [m], if there is one. *)
Definition cell_at {A} (m : matrix A) (i j : nat) : option A :=
  m !! i ≫= fun row => row !! j.

(** The cell [(i, j)] of a matrix of costs, [inf] outside the matrix. *)
Definition cell (m : matrix num) (i j : nat) : num :=
  default Inf (cell_at m i j).

(** What [floyd_step] writes into the cell [(i, j)]. *)
Definition floyd_value (k i j : nat) (m : matrix num) : num :=
  if (i =? j)%nat && Num.is_inf (cell m i j) then Fin 0
  else Num.min (cell m i j) (Num.sum (cell m i k) (cell m k j)).

(** ** The image of a matrix of costs *)

(** The mapping of the specification: a finite cell becomes [True], an
    infinite cell [False]. *)
Definition reachable_cell (x : num) : wcell :=
  WBool (if Num.is_inf x then false else true).

(** The cell-by-cell image of a matrix of costs under that mapping. *)
Definition reachable_cells (m : matrix num) : matrix wcell :=
  (fun row : list num => reachable_cell <$> row) <$> m.

(** ** The scratch store and the output arrays *)

(** [scratch_of g0 g]: the store [g] is the adjacency list [g0] with other
    infos, every one of them set. *)
Definition scratch_of (g0 g : AdjacencyList) : Prop :=
  name <$> g = name <$> g0
  /\ edges <$> g = edges <$> g0
  /\ Forall (fun nd => is_Some (info nd)) g.

(** The info the algorithms start from. *)
Definition initial_info (start_node : string) (nd : node) : node :=
  set_info nd
    (Some (if String.eqb (name nd) start_node then Fin 0 else Inf, None)).

(** Every node still has the info [[inf, None]]. *)
Definition all_inf (g : AdjacencyList) : Prop :=
  Forall (fun nd => info nd = Some (Inf, None)) g.

(** The nodes called [start_node] have distance [0], all others a
    positive distance or [inf]. *)
Definition start_marked (start_node : string) (g : AdjacencyList) : Prop :=
  Forall (fun nd =>
            match info nd with
            | Some (x, _) =>
                if String.eqb (name nd) start_node then x = Fin 0
                else Num.ltb (Fin 0) x = true
            | None => False
            end) g.

(** What [get_output] writes for a node: [None] when its distance is [0],
    else the scratch value. *)
Definition out_distance (nd : node) : option num :=
  match info nd with
  | Some (x, _) => if Num.is_zero x then None else Some x
  | None => None
  end.

Definition out_previous (nd : node) : option string :=
  match info nd with
  | Some (x, p) => if Num.is_zero x then None else p
  | None => None
  end.

(** ** Walks and their costs *)

(** The weight of the edge towards [d] in an edge sequence, [inf] when
    there is none. *)
Fixpoint edge_lookup (es : Edge.t) (d : string) : num :=
  match es with
  | [] => Inf
  | e :: es' =>
      if String.eqb d (Edge.dst e) then Fin (Edge.weight e)
      else edge_lookup es' d
  end.

(** The weight of the edge from the [i]-th to the [j]-th node. *)
Definition edge_cost (g : AdjacencyList) (i j : nat) : num :=
  match g !! i, g !! j with
  | Some a, Some b => edge_lookup (edges a) (name b)
  | _, _ => Inf
  end.

(** The cost of the walk [i -> mid_1 -> ... -> mid_k -> j], which has at
    least one edge; [inf] when one of its edges is missing. *)
Fixpoint walk_cost (g : AdjacencyList) (i : nat) (mid : list nat) (j : nat)
  : num :=
  match mid with
  | [] => edge_cost g i j
  | v :: mid' => Num.sum (edge_cost g i v) (walk_cost g v mid' j)
  end.

(** [x] is the least cost of a walk from [i] to [j], [inf] when there is
    no walk. *)
Definition least_walk_cost (g : AdjacencyList) (i j : nat) (x : num) : Prop :=
  (forall mid, Num.le x (walk_cost g i mid j))
  /\ (x = Inf \/ exists mid, walk_cost g i mid j = x).

(** [x] is [inf], or the cost of a walk from [i] to [j], or the cost [0]
    of staying at a node that has no edge to itself. *)
Definition reached (g : AdjacencyList) (i j : nat) (x : num) : Prop :=
  x = Inf
  \/ (exists mid, walk_cost g i mid j = x)
  \/ (i = j /\ edge_cost g i i = Inf /\ x = Fin 0).

(** As [reached], by a walk whose inner nodes are all before position
    [k]. *)
Definition reached_within (g : AdjacencyList) (k i j : nat) (x : num)
  : Prop :=
  x = Inf
  \/ (exists mid, Forall (fun v => (v < k)%nat) mid /\ walk_cost g i mid j = x)
  \/ (i = j /\ edge_cost g i i = Inf /\ x = Fin 0).

(** Every cell of [m] is the cost of something that stays before [k]. *)
Definition tight (g : AdjacencyList) (k : nat) (m : matrix num) : Prop :=
  forall i j, (i < length g)%nat -> (j < length g)%nat ->
              reached_within g k i j (cell m i j).

(** During the pass for [k]: the cells are costs of walks through nodes
    up to [k], at most twice the bound, and at most the bound in the row
    and in the column of [k], which the pass reads. *)
Definition pass_bound (g : AdjacencyList) (k : nat) (m : matrix num) : Prop :=
  tight g (S k) m
  /\ (forall a b, (a < length g)%nat -> (b < length g)%nat ->
        cost_below (2 * cost_bound g) (cell m a b))
  /\ (forall a, (a < length g)%nat ->
        cost_below (cost_bound g) (cell m a k)
        /\ cost_below (cost_bound g) (cell m k a)).

(** Every cell of [m] is the cost of something. *)
Definition sound (g : AdjacencyList) (m : matrix num) : Prop :=
  forall i j, (i < length g)%nat -> (j < length g)%nat ->
              reached g i j (cell m i j).

(** [m'] is cell by cell at most [m]. *)
Definition below (m' m : matrix num) : Prop :=
  forall i j, Num.le (cell m' i j) (cell m i j).

(** No walk whose inner nodes are all before position [k] beats [m]. *)
Definition complete (g : AdjacencyList) (k : nat) (m : matrix num) : Prop :=
  forall i j mid, (i < length g)%nat -> (j < length g)%nat ->
                  Forall (fun v => (v < k)%nat) mid ->
                  Num.le (cell m i j) (walk_cost g i mid j).

(** The diagonal cells of the nodes without an edge to themselves are
    still [inf] or already at most [0]. *)
Definition diag_pending (g : AdjacencyList) (m : matrix num) : Prop :=
  forall i, (i < length g)%nat -> edge_cost g i i = Inf ->
            cell m i i = Inf \/ Num.le (cell m i i) (Fin 0).

Definition diag_zero (g : AdjacencyList) (m : matrix num) : Prop :=
  forall i, (i < length g)%nat -> edge_cost g i i = Inf ->
            Num.le (cell m i i) (Fin 0).

(** The state of one pass over all [(i, j)] for a fixed [k], started from
    the matrix [A]: [visited a b] tells which cells the pass has rewritten. *)
Definition pass_inv (g : AdjacencyList) (k : nat) (A : matrix num)
    (visited : nat -> nat -> Prop) (m : matrix num) : Prop :=
  sq (length g) m
  /\ sound g m
  /\ below m A
  /\ (forall a b, (a < length g)%nat -> (b < length g)%nat -> visited a b ->
        Num.le (cell m a b) (Num.sum (cell A a k) (cell A k b)))
  /\ (forall a b, (a < length g)%nat -> (b < length g)%nat -> ~ visited a b ->
        cell m a b = cell A a b)
  /\ (forall a, (a < length g)%nat -> visited a a -> edge_cost g a a = Inf ->
        Num.le (cell m a a) (Fin 0)).

(** The specification's reading: least costs off the diagonal; on the
    diagonal [0] without a self-loop and the weight of the self-loop with
    one; [inf] exactly for unreachable pairs. *)
Definition floyd_as_claimed (g : AdjacencyList) : Prop :=
  exists m,
    floyd g = Ok m /\ sq (length g) m
    /\ forall i j, (i < length g)%nat -> (j < length g)%nat ->
         (i <> j -> least_walk_cost g i j (cell m i j))
         /\ (i = j -> edge_cost g i i = Inf -> cell m i i = Fin 0)
         /\ (i = j -> edge_cost g i i <> Inf -> cell m i i = edge_cost g i i)
         /\ (cell m i j = Inf <->
             i <> j /\ forall mid, walk_cost g i mid j = Inf).

(** What the code computes: as above, except that the diagonal cell of a
    node with a self-loop holds the least cost of a walk from the node
    back to itself, of which the self-loop is only one. *)
Definition floyd_as_coded (g : AdjacencyList) : Prop :=
  exists m,
    floyd g = Ok m /\ sq (length g) m
    /\ forall i j, (i < length g)%nat -> (j < length g)%nat ->
         (i <> j -> least_walk_cost g i j (cell m i j))
         /\ (i = j -> edge_cost g i i = Inf -> cell m i i = Fin 0)
         /\ (i = j -> edge_cost g i i <> Inf ->
             least_walk_cost g i i (cell m i i)
             /\ Num.le (cell m i i) (edge_cost g i i))
         /\ (cell m i j = Inf <->
             i <> j /\ forall mid, walk_cost g i mid j = Inf).

(** ** Graphs used as examples *)

(** The graph of the specification's scenario: [a -> b (5)]. *)
Definition one_edge_graph : AdjacencyList :=
  [Node "a" None [Edge.Cell "b" 5]; Node "b" None []].

(** [a -> a (10)], [a -> b (1)], [b -> a (1)]: the cycle through [b] is
    cheaper than the self-loop of [a]. *)
Definition self_loop_graph : AdjacencyList :=
  [Node "a" None [Edge.Cell "a" 10; Edge.Cell "b" 1];
   Node "b" None [Edge.Cell "a" 1]].

(** [a -> a (-1)]: a cycle of negative cost. *)
Definition negative_loop_graph : AdjacencyList :=
  [Node "a" None [Edge.Cell "a" (-1)]].

(** [a -> z (1)] where [z] is not a node. *)
Definition dangling_edge_graph : AdjacencyList :=
  [Node "a" None [Edge.Cell "z" 1]].

(** [a -> b (2^1024)]: a weight too large for a float. *)
Definition huge_weight_graph : AdjacencyList :=
  [Node "a" None [Edge.Cell "b" (2 ^ 1024)]; Node "b" None []].

(** The specification's reading of [dijkstra] from a name that is not a
    node: in a non-empty graph whose edges all point to nodes, no error,
    [inf] as every distance and [None] as every predecessor. *)
Definition unknown_start_as_claimed (g : AdjacencyList)
    (start_node : string) : Prop :=
  g <> [] -> edges_closed g = true -> find_node g start_node = false ->
  dijkstra g start_node
  = Ok (replicate (length g) (Some Inf), replicate (length g) None).

(** Two nodes and one edge of weight [0]: [a -> b (0)]. *)
Definition zero_weight_graph : AdjacencyList :=
  [Node "a" None [Edge.Cell "b" 0]; Node "b" None []].

(** Three nodes; [b] has an edge towards [a] and one to itself, [c] one
    towards [a]. *)
Definition delete_scenario_graph : AdjacencyList :=
  [Node "a" None [Edge.Cell "b" 2];
   Node "b" None [Edge.Cell "a" 1; Edge.Cell "b" 5];
   Node "c" None [Edge.Cell "a" 3]].

(** ** Observations used by the further properties *)

(** The weight of the edge from the node called [s] towards [d], read as
    [find_edge] reads it (in the first node called [s]); [inf] when there
    is no such edge. *)
Fixpoint edge_weight (g : AdjacencyList) (s d : string) : num :=
  match g with
  | [] => Inf
  | hd :: tl =>
      if String.eqb s (name hd) then edge_lookup (edges hd) d
      else edge_weight tl s d
  end.

(** The order of [list_edges]: by source, then by destination. *)
Definition edge_before (t1 t2 : string * string * Z) : Prop :=
  String.ltb t1.1.1 t2.1.1 = true
  \/ (t1.1.1 = t2.1.1 /\ String.ltb t1.1.2 t2.1.2 = true).

(** A triple of [list_edges] that is a self-loop. *)
Definition is_self_loop (t : string * string * Z) : Prop := t.1.1 = t.1.2.

#[export] Instance is_self_loop_dec t : Decision (is_self_loop t).
Proof. unfold is_self_loop. apply _. Defined.

(** ** The scratch values of Dijkstra *)

(** The scratch distance [info()[0]] and the scratch predecessor
    [info()[1]] of the node behind the reference [r]. *)
Definition scratch_distance (g : AdjacencyList) (r : nat) : num :=
  match info (g !!! r) with
  | Some (x, _) => x
  | None => Inf
  end.

Definition scratch_previous (g : AdjacencyList) (r : nat) : option string :=
  match info (g !!! r) with
  | Some (_, p) => p
  | None => None
  end.

(** The info of [v] once the edges [es] of [u] were relaxed in the store
    [g]: the distance through [u] when that is shorter. *)
Definition relaxed_info (g0 : AdjacencyList) (es : Edge.t)
    (g : AdjacencyList) (u v : nat) : info_t :=
  let through :=
    Num.sum (scratch_distance g u) (edge_lookup es (name (g0 !!! v))) in
  if Num.ltb through (scratch_distance g v)
  then Some (through, Some (name (g0 !!! u)))
  else info (g !!! v).

(** [x] is [inf], or the cost [0] of staying at the start, or the cost of
    a walk from [st] to [j]. *)
Definition path_reached (g : AdjacencyList) (st j : nat) (x : num) : Prop :=
  x = Inf \/ (j = st /\ x = Fin 0) \/ exists mid, walk_cost g st mid j = x.

(** [x] is the least cost of a path from [st] to [j], the empty path from
    [st] to itself included; [inf] when there is no path. *)
Definition least_path_cost (g : AdjacencyList) (st j : nat) (x : num)
  : Prop :=
  (j = st -> Num.le x (Fin 0))
  /\ (forall mid, Num.le x (walk_cost g st mid j))
  /\ path_reached g st j x.

(** The state of the [while] loop of [dijkstra] on the graph [g0] from the
    node at [st]: [g] is the store, [q] the working set, [s] the nodes
    already popped. *)
Definition dijkstra_inv (g0 : AdjacencyList) (st : nat)
    (g : AdjacencyList) (q s : list nat) : Prop :=
  s ++ q ≡ₚ seq 0 (length g0)
  /\ scratch_distance g st = Fin 0
  /\ (forall j, (j < length g0)%nat ->
        path_reached g0 st j (scratch_distance g j))
  /\ (forall u v, u ∈ s -> (v < length g0)%nat ->
        Num.le (scratch_distance g v)
               (Num.sum (scratch_distance g u) (edge_cost g0 u v)))
  /\ (forall u v, u ∈ s -> v ∈ q ->
        Num.le (scratch_distance g u) (scratch_distance g v))
  /\ (forall j, (j < length g0)%nat ->
        match scratch_previous g j with
        | None => scratch_distance g j = Inf \/ scratch_distance g j = Fin 0
        | Some nm =>
            exists u, u ∈ s /\ list_nodes g0 !! u = Some nm
                      /\ scratch_distance g j <> Inf
                      /\ scratch_distance g j
                         = Num.sum (scratch_distance g u) (edge_cost g0 u j)
        end).

(** [a -> b (1)], [a -> c (4)], [b -> c (2)]: the path through [b] is the
    cheaper way from [a] to [c]. *)
Definition detour_graph : AdjacencyList :=
  [Node "a" None [Edge.Cell "b" 1; Edge.Cell "c" 4];
   Node "b" None [Edge.Cell "c" 2];
   Node "c" None []].

(** The state of the [while] loop of [prim] on the graph [g0] from the
    node at [st]: as long as the start node waits in [q] the store is the
    initial one; the start node keeps [[0, None]]; every other node has
    [[inf, None]] or the weight of an edge from a popped node and that
    node's name. *)
Definition prim_inv (g0 : AdjacencyList) (st : nat)
    (g : AdjacencyList) (q s : list nat) : Prop :=
  s ++ q ≡ₚ seq 0 (length g0)
  /\ (st ∈ q -> forall j, (j < length g0)%nat -> j <> st ->
        info (g !!! j) = Some (Inf, None))
  /\ info (g !!! st) = Some (Fin 0, None)
  /\ (forall j, (j < length g0)%nat -> j <> st ->
        info (g !!! j) = Some (Inf, None)
        \/ exists u e,
             u ∈ s /\ e ∈ edges (g0 !!! u)
             /\ Edge.dst e = name (g0 !!! j)
             /\ info (g !!! j)
                = Some (Fin (Edge.weight e), Some (name (g0 !!! u)))).

(** ** Graphs built through the interface *)

(** The graphs a client builds with weights that satisfy [ok]: from the
    empty list, by [add_node] of a name that is not yet a node, by
    [add_edge] and [delete_edge], and by [delete_node] followed by
    [delete_edges] of the same name. *)
Inductive built (ok : Z -> Prop) : AdjacencyList -> Prop :=
  | built_empty : built ok []
  | built_add_node g nm i :
      built ok g -> find_node g nm = false -> built ok (add_node g nm i)
  | built_add_edge g s d w g' :
      built ok g -> ok w -> add_edge g s d w = Ok g' -> built ok g'
  | built_delete_edge g s d g' :
      built ok g -> delete_edge g s d = Ok g' -> built ok g'
  | built_delete_node g nm :
      built ok g -> built ok (delete_edges (delete_node g nm) nm).

(** * Properties *)

(** ** The order on names *)

Section NameOrder.

Lemma compare_as_OT (a b : string) :
  String.compare a b = String_as_OT.compare a b.
Proof.
  revert b. induction a as [|c a IH]; intros [|c' b]; reflexivity.
Qed.

Lemma ltb_lt (a b : string) :
  String.ltb a b = true <-> String_as_OT.lt a b.
Proof.
  unfold String.ltb, String_as_OT.lt. rewrite compare_as_OT.
  destruct (String_as_OT.compare a b); split; congruence.
Qed.

Lemma ltb_irrefl (a : string) : String.ltb a a = false.
Proof.
  destruct (String.ltb a a) eqn:H; [|done].
  apply ltb_lt in H. by apply (StrictOrder_Irreflexive a) in H.
Qed.

Lemma ltb_trans (a b c : string) :
  String.ltb a b = true -> String.ltb b c = true -> String.ltb a c = true.
Proof.
  rewrite !ltb_lt. apply (StrictOrder_Transitive a b c).
Qed.

Lemma ltb_asym (a b : string) :
  String.ltb a b = true -> String.ltb b a = false.
Proof.
  intros H. destruct (String.ltb b a) eqn:H'; [|done].
  pose proof (ltb_trans _ _ _ H H') as Hc. by rewrite ltb_irrefl in Hc.
Qed.

Lemma ltb_total (a b : string) :
  String.ltb a b = false -> String.eqb a b = false -> String.ltb b a = true.
Proof.
  unfold String.ltb. rewrite (String.compare_antisym b a).
  intros H1 H2. destruct (String.compare a b) eqn:Hc; simpl; try done.
  apply String.compare_eq_iff in Hc. subst. by rewrite String.eqb_refl in H2.
Qed.

Lemma ltb_neq (a b : string) : String.ltb a b = true -> String.eqb a b = false.
Proof.
  intros H. apply String.eqb_neq. intros ->. by rewrite ltb_irrefl in H.
Qed.

End NameOrder.

(** ** Strictly ascending sequences: the invariant of the data model *)

Section Ascending.

Lemma ascending_cons (x : string) (l : list string) :
  ascending (x :: l) = true <->
  Forall (fun y => String.ltb x y = true) l /\ ascending l = true.
Proof.
  revert x. induction l as [|y l IH]; intros x.
  - simpl. split; [by split|done].
  - change (ascending (x :: y :: l)) with (String.ltb x y && ascending (y :: l)).
    rewrite andb_true_iff. split.
    + intros [Hxy Hl]. split; [|done]. constructor; [done|].
      apply IH in Hl as [Hl _]. eapply Forall_impl; [exact Hl|].
      intros z Hz. by eapply ltb_trans.
    + intros [Hall Hl]. by inversion Hall.
Qed.

Lemma ascending_tail (x : string) (l : list string) :
  ascending (x :: l) = true -> ascending l = true.
Proof. intros H. by apply ascending_cons in H as [_ ?]. Qed.

End Ascending.

(** ** Nodes *)

Section Nodes.

Implicit Types (g : AdjacencyList) (nm : string).

Lemma node_cardinality_length g : node_cardinality g = length g.
Proof. induction g; simpl; lia. Qed.

Lemma list_nodes_fmap g : list_nodes g = name <$> g.
Proof. induction g as [|hd tl IH]; [done|]. simpl. by rewrite IH. Qed.

Lemma find_node_true g nm :
  find_node g nm = true <-> nm ∈ list_nodes g.
Proof.
  induction g as [|hd tl IH]; simpl.
  - split; [done|]. by intros ?%elem_of_nil.
  - rewrite elem_of_cons. destruct (String.eqb_spec nm (name hd)).
    + split; auto.
    + rewrite IH. split; [auto|]. by intros [?|?].
Qed.

Lemma find_node_false g nm :
  find_node g nm = false <-> nm ∉ list_nodes g.
Proof.
  rewrite <- find_node_true. destruct (find_node g nm); split; try done.
Qed.

Lemma add_node_cardinality g nm i :
  node_cardinality (add_node g nm i) = S (node_cardinality g).
Proof.
  induction g as [|hd tl IH]; simpl; [done|].
  destruct (String.ltb nm (name hd)); simpl; lia.
Qed.

Lemma add_node_find g nm i : find_node (add_node g nm i) nm = true.
Proof.
  induction g as [|hd tl IH]; simpl.
  - by rewrite String.eqb_refl.
  - destruct (String.ltb nm (name hd)); simpl.
    + by rewrite String.eqb_refl.
    + by destruct (String.eqb nm (name hd)).
Qed.

Lemma add_node_names g nm i :
  list_nodes (add_node g nm i) ≡ₚ nm :: list_nodes g.
Proof.
  induction g as [|hd tl IH]; simpl; [done|].
  destruct (String.ltb nm (name hd)); simpl; [done|].
  rewrite IH. apply Permutation_swap.
Qed.

(** What [add_node] does for a name that is not a member: the sequence
    stays strictly ascending. *)
Lemma add_node_fresh_ascending g nm i :
  ascending (list_nodes g) = true -> find_node g nm = false ->
  ascending (list_nodes (add_node g nm i)) = true.
Proof.
  induction g as [|hd tl IH]; simpl; [done|].
  intros Hasc Hfind.
  destruct (String.eqb nm (name hd)) eqn:Heq; [done|].
  destruct (String.ltb nm (name hd)) eqn:Hlt.
  - change (String.ltb nm (name hd) && ascending (name hd :: list_nodes tl) = true).
    by rewrite Hlt.
  - apply ascending_cons in Hasc as [Hall Htl].
    change (ascending (name hd :: list_nodes (add_node tl nm i)) = true).
    apply ascending_cons. split; [|by apply IH].
    rewrite add_node_names. constructor; [|done].
    by apply ltb_total.
Qed.

End Nodes.

(** [add_node] has no branch for [name == self.name()]: a member name
    falls through to the tail and is inserted a second time.  The sibling
    [Edge.add] has that branch, and the docstring of [add_node] promises
    the update. *)

(** C1 (fails on the code): adding a name that is already a member is
    claimed to overwrite the info only, so that the node sequence stays
    free of duplicates and [node_cardinality] counts distinct names.  On
    the code every call of [add_node] lengthens the sequence by one; adding
    ["a"] to the graph that holds only ["a"] yields the names
    [["a"; "a"]], two nodes, and leaves the first node's info as it was. *)
Theorem add_node_member_is_duplicated :
  (forall (g : AdjacencyList) (nm : string) (i : info_t),
      node_cardinality (add_node g nm i) = S (node_cardinality g))
  /\ let g1 := add_node [] "a" None in
     let g2 := add_node g1 "a" (Some (Fin 7, None)) in
     find_node g1 "a" = true
     /\ list_nodes g2 = ["a"; "a"]
     /\ node_cardinality g2 = 2%nat
     /\ info <$> g2 = [None; Some (Fin 7, None)]
     /\ add_node (add_node [] "a" None) "a" None <> add_node [] "a" None.
Proof.
  split; [apply add_node_cardinality|].
  repeat split; done.
Qed.

(** ** Edges towards missing nodes *)

(** C4: when [src] or [dst] is not a node of the graph, [add_edge] returns
    the very adjacency list it was called on: same nodes, same infos, same
    edges. *)
Theorem add_edge_missing_endpoint_unchanged
    (g : AdjacencyList) (src d : string) (w : Z) :
  find_node g src = false \/ find_node g d = false ->
  add_edge g src d w = Ok g.
Proof.
  unfold add_edge. intros [-> | ->]; simpl; [done|].
  by rewrite orb_true_r.
Qed.

Lemma add_edge_missing_endpoint_unchanged_witness :
  (find_node [Node "a" None [Edge.Cell "a" 4]] "a" = false
   \/ find_node [Node "a" None [Edge.Cell "a" 4]] "b" = false)
  /\ add_edge [Node "a" None [Edge.Cell "a" 4]] "a" "b" 3
     = Ok [Node "a" None [Edge.Cell "a" 4]].
Proof.
  split; [right; reflexivity|].
  apply (add_edge_missing_endpoint_unchanged
           [Node "a" None [Edge.Cell "a" 4]] "a" "b" 3).
  right; reflexivity.
Defined.

(** ** Node lookup *)

Section Lookup.

Implicit Types (g : AdjacencyList) (nm : string).

(** [get_node] finds the first node called [nm], or returns [0]. *)
Lemma get_node_spec g nm :
  match get_node g nm with
  | PyInt z => z = 0 /\ find_node g nm = false
  | PyNode r =>
      find_node g nm = true
      /\ name <$> g !! r = Some nm
      /\ forall r', (r' < r)%nat -> name <$> g !! r' <> Some nm
  end.
Proof.
  induction g as [|hd tl IH]; simpl; [done|].
  destruct (String.eqb_spec nm (name hd)) as [->|Hne].
  - split_and!; [done..|]. intros r' Hr'. lia.
  - destruct (get_node tl nm) as [r|z]; simpl; [|done].
    destruct IH as (Hf & Hr & Hfirst). split_and!; [done..|].
    intros [|r'] Hlt; simpl; [congruence|]. apply Hfirst. lia.
Qed.

Lemma get_node_member g nm :
  find_node g nm = true -> exists r, get_node g nm = PyNode r /\ (r < length g)%nat.
Proof.
  intros Hf. pose proof (get_node_spec g nm) as H.
  destruct (get_node g nm) as [r|z].
  - exists r. split; [done|]. destruct H as (_ & Hr & _).
    destruct (g !! r) as [nd|] eqn:E; [|done].
    apply lookup_lt_is_Some. eauto.
  - destruct H as [_ H]. congruence.
Qed.

End Lookup.

(** C8: for a name that is not a member, [get_node] returns the integer
    [0]; for a member it returns (a reference to) the node of that name,
    the first one in the sequence. *)
Theorem get_node_returns_zero_or_node (g : AdjacencyList) (nm : string) :
  (find_node g nm = false -> get_node g nm = PyInt 0)
  /\ (find_node g nm = true ->
      exists r nd, get_node g nm = PyNode r
                   /\ g !! r = Some nd /\ name nd = nm
                   /\ forall r', (r' < r)%nat -> name <$> g !! r' <> Some nm).
Proof.
  pose proof (get_node_spec g nm) as H.
  destruct (get_node g nm) as [r|z].
  - destruct H as (Hf & Hr & Hfirst). split; [congruence|]. intros _.
    destruct (g !! r) as [nd|] eqn:Hnd; [|done].
    exists r, nd. repeat split; [done|by inversion Hr|done].
  - destruct H as [-> Hf]. split; [done|congruence].
Qed.

(** ** The matrix of the empty graph *)

(** C9: on the empty graph [adjacency_matrix] returns [[[]]], one row
    without columns: the matrix holds no weight cell. *)
Theorem adjacency_matrix_empty_graph :
  adjacency_matrix [] = Ok [[]]
  /\ forall m, adjacency_matrix [] = Ok m ->
               concat m = [] /\ Forall (fun row => length row = 0%nat) m.
Proof.
  split; [done|]. intros m [= <-]. split; [done|]. by repeat constructor.
Qed.

(** ** Deleting a node and the edges towards it *)

Section Delete.

Implicit Types (g : AdjacencyList) (es : Edge.t) (n : string).

Lemma filter_all_above g n :
  Forall (fun y => String.ltb n y = true) (list_nodes g) ->
  filter (fun nd => name nd <> n) g = g.
Proof.
  induction g as [|hd tl IH]; cbn [list_nodes]; [done|].
  intros [Hhd Htl]%Forall_cons. rewrite filter_cons_True.
  - by rewrite IH.
  - intros Heq. rewrite Heq, ltb_irrefl in Hhd. done.
Qed.

Lemma delete_node_filter g n :
  ascending (list_nodes g) = true ->
  delete_node g n = filter (fun nd => name nd <> n) g.
Proof.
  induction g as [|hd tl IH]; cbn [list_nodes delete_node]; [done|].
  intros [Hall Htl]%ascending_cons.
  destruct (String.eqb_spec n (name hd)) as [->|Hne].
  - rewrite filter_cons_False by (intros H; by apply H).
    by rewrite filter_all_above.
  - rewrite filter_cons_True by congruence.
    destruct (String.ltb (name hd) n) eqn:Hlt.
    + by rewrite IH.
    + rewrite filter_all_above; [done|].
      eapply Forall_impl; [exact Hall|]. intros y Hy.
      eapply ltb_trans; [|exact Hy]. apply ltb_total; [done|].
      rewrite String.eqb_sym. by apply String.eqb_neq.
Qed.

Lemma edge_delete_filter es n :
  ascending (Edge.dst <$> es) = true ->
  Edge.delete es n = filter (fun e => Edge.dst e <> n) es.
Proof.
  induction es as [|hd tl IH]; cbn [Edge.delete]; [done|].
  rewrite fmap_cons. intros [Hall Htl]%ascending_cons.
  destruct (String.eqb_spec n (Edge.dst hd)) as [->|Hne].
  - rewrite filter_cons_False by (intros H; by apply H).
    clear IH Htl. induction tl as [|e tl IH]; [done|].
    apply Forall_cons in Hall as [He Hall].
    rewrite filter_cons_True; [by rewrite <- IH|].
    intros Heq. rewrite Heq, ltb_irrefl in He. done.
  - rewrite filter_cons_True by congruence. by rewrite IH.
Qed.

Lemma delete_edges_fmap g n :
  delete_edges g n =
  (fun nd => set_edges nd (Edge.delete (edges nd) n)) <$> g.
Proof. induction g as [|hd tl IH]; simpl; [done|]. by rewrite IH. Qed.

Lemma find_node_filter_out g n :
  find_node (filter (fun nd => name nd <> n) g) n = false.
Proof.
  apply find_node_false. rewrite list_nodes_fmap.
  intros (nd & Hn & Hin)%list_elem_of_fmap.
  apply list_elem_of_filter in Hin as [Hne _]. by apply Hne.
Qed.

Lemma delete_node_length g n :
  ascending (list_nodes g) = true -> find_node g n = true ->
  length g = S (length (delete_node g n)).
Proof.
  induction g as [|hd tl IH]; simpl; [done|].
  intros [Hall Htl]%ascending_cons.
  destruct (String.eqb_spec n (name hd)) as [->|Hne]; [done|].
  intros Hf. destruct (String.ltb (name hd) n) eqn:Hlt; simpl.
  - by rewrite <- IH.
  - apply find_node_true in Hf.
    eapply Forall_forall in Hall; [|exact Hf].
    simpl in Hall. congruence.
Qed.

Lemma well_formed_delete_node g n :
  well_formed g = true -> well_formed (delete_node g n) = true.
Proof.
  unfold well_formed. rewrite !andb_true_iff, !forallb_forall.
  intros [Hasc Hes]. rewrite delete_node_filter by done. split.
  - clear Hes. induction g as [|hd tl IH]; [done|].
    simpl in Hasc. apply ascending_cons in Hasc as [Hall Htl].
    destruct (decide (name hd <> n)).
    + rewrite filter_cons_True by done. simpl. apply ascending_cons.
      split; [|by apply IH]. rewrite list_nodes_fmap in *.
      apply Forall_fmap. apply Forall_fmap in Hall.
      rewrite Forall_forall in Hall |- *.
      intros x [_ Hx]%list_elem_of_filter. by apply Hall.
    + rewrite filter_cons_False by done. by apply IH.
  - intros nd Hin. apply Hes. apply list_elem_of_In in Hin.
    apply list_elem_of_In. by apply list_elem_of_filter in Hin as [_ ?].
Qed.

End Delete.

(** C6: in a graph that satisfies the invariant of the data model (names
    strictly ascending, each node's destinations strictly ascending),
    [delete_node n] for a member [n] removes the one node called [n] and
    nothing else -- the other nodes keep their info and all their edges,
    those towards [n] included -- so that [find_node n] is false
    afterwards; [delete_edges n] then removes from every node the edges
    whose destination is [n] and no other edge. *)
Theorem delete_node_then_delete_edges (g : AdjacencyList) (n : string) :
  well_formed g = true -> find_node g n = true ->
  let g' := delete_node g n in
  find_node g' n = false
  /\ g' = filter (fun nd => name nd <> n) g
  /\ length g = S (length g')
  /\ delete_edges g' n =
       (fun nd => set_edges nd (filter (fun e => Edge.dst e <> n) (edges nd)))
         <$> g'.
Proof.
  intros Hwf Hf g'. pose proof (well_formed_delete_node g n Hwf) as Hwf'.
  unfold well_formed in Hwf, Hwf'.
  apply andb_true_iff in Hwf as [Hasc Hes].
  apply andb_true_iff in Hwf' as [Hasc' Hes'].
  split; [|split; [|split]].
  - subst g'. rewrite delete_node_filter by done. apply find_node_filter_out.
  - by apply delete_node_filter.
  - by apply delete_node_length.
  - rewrite delete_edges_fmap. apply list_fmap_ext.
    intros i nd Hnd. f_equal. apply edge_delete_filter.
    rewrite forallb_forall in Hes'. apply Hes'.
    apply list_elem_of_In. by eapply list_elem_of_lookup_2.
Qed.

Lemma delete_node_then_delete_edges_witness :
  well_formed delete_scenario_graph = true
  /\ find_node delete_scenario_graph "a" = true
  /\ find_node (delete_node delete_scenario_graph "a") "a" = false
  /\ delete_node delete_scenario_graph "a"
     = [Node "b" None [Edge.Cell "a" 1; Edge.Cell "b" 5];
        Node "c" None [Edge.Cell "a" 3]]
  /\ delete_edges (delete_node delete_scenario_graph "a") "a"
     = [Node "b" None [Edge.Cell "b" 5]; Node "c" None []].
Proof.
  pose proof (delete_node_then_delete_edges delete_scenario_graph "a"
                eq_refl eq_refl) as (H1 & H2 & H3 & H4).
  split; [reflexivity|]. split; [reflexivity|]. split; [exact H1|].
  split; reflexivity.
Defined.

(** Where the names are not strictly ascending the first conclusion is
    lost: of the two nodes that two calls of [add_node] with the name
    ["a"] leave behind, [delete_node] removes one. *)
Example delete_node_of_duplicated_name :
  find_node
    (delete_node (add_node (add_node [] "a" None) "a" None) "a") "a" = true.
Proof. reflexivity. Qed.

(** ** The invariant is kept by the other mutations *)

Section Invariant.

Implicit Types (g : AdjacencyList) (es : Edge.t).

Lemma edge_add_dsts es d w x :
  x ∈ Edge.dst <$> Edge.add es d w -> x = d \/ x ∈ Edge.dst <$> es.
Proof.
  induction es as [|hd tl IH]; cbn [Edge.add].
  - rewrite list_fmap_singleton, list_elem_of_singleton. by left.
  - destruct (String.eqb_spec d (Edge.dst hd)) as [->|Hne]; [by right|].
    destruct (String.ltb d (Edge.dst hd)).
    + rewrite !fmap_cons, !elem_of_cons. tauto.
    + rewrite !fmap_cons, !elem_of_cons. intros [->|Hin]; [tauto|].
      destruct (IH Hin); tauto.
Qed.

(** [Edge.add] keeps the destinations strictly ascending: it has the
    branch for an existing destination that [add_node] lacks. *)
Lemma edge_add_ascending es d w :
  ascending (Edge.dst <$> es) = true ->
  ascending (Edge.dst <$> Edge.add es d w) = true.
Proof.
  induction es as [|hd tl IH]; cbn [Edge.add]; [done|].
  rewrite fmap_cons. intros Hasc.
  destruct (String.eqb_spec d (Edge.dst hd)) as [->|Hne]; [done|].
  destruct (String.ltb d (Edge.dst hd)) eqn:Hlt.
  - rewrite !fmap_cons.
    change (String.ltb d (Edge.dst hd)
            && ascending (Edge.dst hd :: (Edge.dst <$> tl)) = true).
    by rewrite Hlt.
  - rewrite fmap_cons. apply ascending_cons in Hasc as [Hall Htl].
    apply ascending_cons. split; [|by apply IH].
    apply Forall_forall. intros x [->|Hx]%edge_add_dsts.
    + apply ltb_total; [done|]. rewrite String.eqb_sym.
      by apply String.eqb_neq.
    + rewrite Forall_forall in Hall. by apply Hall.
Qed.

Lemma edge_delete_ascending es d :
  ascending (Edge.dst <$> es) = true ->
  ascending (Edge.dst <$> Edge.delete es d) = true.
Proof.
  induction es as [|hd tl IH]; cbn [Edge.delete]; [done|].
  rewrite fmap_cons. intros [Hall Htl]%ascending_cons.
  destruct (String.eqb d (Edge.dst hd)); [done|].
  rewrite fmap_cons. apply ascending_cons. split; [|by apply IH].
  rewrite edge_delete_filter by done. apply Forall_fmap.
  apply Forall_fmap in Hall. rewrite Forall_forall in Hall |- *.
  intros x [_ Hx]%list_elem_of_filter. by apply Hall.
Qed.

Lemma well_formed_add_node_fresh g nm i :
  well_formed g = true -> find_node g nm = false ->
  well_formed (add_node g nm i) = true.
Proof.
  unfold well_formed. rewrite !andb_true_iff. intros [Hasc Hes] Hf.
  split; [by apply add_node_fresh_ascending|].
  clear Hasc Hf. induction g as [|hd tl IH]; simpl; [done|].
  simpl in Hes. apply andb_true_iff in Hes as [Hhd Htl].
  destruct (String.ltb nm (name hd)); simpl.
  - by rewrite Hhd, Htl.
  - by rewrite Hhd, IH.
Qed.

(** On a list whose names ascend, [_add_edge] finds the member [src]
    before it could reach the end: it returns, and keeps the invariant. *)
Lemma _add_edge_well_formed g src d w :
  well_formed g = true -> find_node g src = true ->
  exists g', _add_edge g src d w = Ok g'
             /\ well_formed g' = true /\ list_nodes g' = list_nodes g.
Proof.
  unfold well_formed. induction g as [|hd tl IH]; simpl; [done|].
  intros [Hasc [Hhd Htl]%andb_true_iff]%andb_true_iff Hf.
  pose proof Hasc as [Hall Hasc']%ascending_cons.
  destruct (String.eqb_spec src (name hd)) as [->|Hne].
  - eexists. split; [done|]. simpl. split; [|done].
    by rewrite Hasc, Htl, edge_add_ascending.
  - assert (String.ltb (name hd) src = true) as ->.
    { apply find_node_true in Hf. rewrite Forall_forall in Hall.
      by apply Hall. }
    destruct IH as (tl' & -> & Hwf' & Hnames); [by rewrite Hasc', Htl|done|].
    simpl. eexists. split; [done|]. simpl. rewrite Hnames. split; [|done].
    apply andb_true_iff in Hwf' as [_ Htl']. by rewrite Hasc, Hhd, Htl'.
Qed.

Lemma add_edge_well_formed g src d w :
  well_formed g = true ->
  exists g', add_edge g src d w = Ok g'
             /\ well_formed g' = true /\ list_nodes g' = list_nodes g.
Proof.
  intros Hwf. unfold add_edge.
  destruct (find_node g src) eqn:Hsrc; simpl; [|by exists g].
  destruct (find_node g d); simpl; [|by exists g].
  by apply _add_edge_well_formed.
Qed.

Lemma well_formed_delete_edges g nm :
  well_formed g = true -> well_formed (delete_edges g nm) = true.
Proof.
  unfold well_formed. rewrite !andb_true_iff. intros [Hasc Hes]. split.
  - clear Hes. replace (list_nodes (delete_edges g nm)) with (list_nodes g);
      [done|]. clear Hasc. induction g as [|hd tl IH]; simpl; [done|].
    by rewrite IH.
  - clear Hasc. induction g as [|hd tl IH]; simpl; [done|].
    simpl in Hes. apply andb_true_iff in Hes as [Hhd Htl].
    by rewrite edge_delete_ascending, IH.
Qed.

End Invariant.

(** ** Loops and matrices *)

Lemma forallb_false {A} (f : A -> bool) (l : list A) :
  forallb f l = false -> exists i x, l !! i = Some x /\ f x = false.
Proof.
  induction l as [|x l IH]; [done|]. cbn [forallb].
  destruct (f x) eqn:Hx.
  - intros (i & y & Hy & Hfy)%IH. by exists (S i), y.
  - intros _. by exists 0%nat, x.
Qed.

Section Loops.

Context {A S : Type}.

Lemma for_each_app (xs ys : list A) (body : A -> S -> result S) (s : S) :
  for_each (xs ++ ys) body s = for_each xs body s ≫= for_each ys body.
Proof.
  revert s. induction xs as [|x xs IH]; intros s; simpl; [done|].
  destruct (body x s); simpl; auto.
Qed.

(** Invariant rule for [for x in xs]: [I pre s] holds of the state [s]
    reached after the elements [pre] were processed. *)
Lemma for_each_inv (I : list A -> S -> Prop) (xs : list A)
    (body : A -> S -> result S) (s : S) :
  I [] s ->
  (forall pre x rest s,
      xs = pre ++ x :: rest -> I pre s ->
      exists s', body x s = Ok s' /\ I (pre ++ [x]) s') ->
  exists s', for_each xs body s = Ok s' /\ I xs s'.
Proof.
  intros H0 Hstep.
  assert (forall rest pre s, xs = pre ++ rest -> I pre s ->
            exists s', for_each rest body s = Ok s' /\ I xs s') as Hgen.
  { induction rest as [|x rest IH]; intros pre s0 Hxs HI; simpl.
    - exists s0. rewrite app_nil_r in Hxs. by subst.
    - destruct (Hstep pre x rest s0 Hxs HI) as (s1 & -> & HI1). simpl.
      apply (IH (pre ++ [x])); [|done]. by rewrite <- app_assoc. }
  by apply (Hgen xs []).
Qed.

End Loops.

Section RangeLoops.

Context {S : Type}.

(** Invariant rule for [for i in range(n)]: [I i s] holds when the
    turns [0 .. i-1] are done. *)
Lemma for_range_inv (I : nat -> S -> Prop) (n : nat)
    (body : nat -> S -> result S) (s : S) :
  I 0%nat s ->
  (forall i s, (i < n)%nat -> I i s ->
               exists s', body i s = Ok s' /\ I (Datatypes.S i) s') ->
  exists s', for_range n body s = Ok s' /\ I n s'.
Proof.
  intros H0 Hstep. unfold for_range.
  destruct (for_each_inv (fun pre s => I (length pre) s) (seq 0 n) body s)
    as (s' & Hs' & HI); [done| |].
  - intros pre x rest s0 Hseq HI.
    assert (x = length pre /\ (x < n)%nat) as [-> Hlt].
    { assert (seq 0 n !! length pre = Some x) as Hx.
      { rewrite Hseq. by rewrite list_lookup_middle. }
      apply lookup_seq in Hx as [-> ?]. simpl. split; [done|lia]. }
    destruct (Hstep _ _ Hlt HI) as (s1 & ? & ?). exists s1. split; [done|].
    rewrite length_app. simpl. by rewrite Nat.add_1_r.
  - exists s'. split; [done|]. by rewrite length_seq in HI.
Qed.

(** The same rule for a loop whose body may raise: the loop returns in a
    state that satisfies [I], or raises an exception that satisfies [E]. *)
Lemma for_range_outcome (I : nat -> S -> Prop) (E : exn -> Prop) (n : nat)
    (body : nat -> S -> result S) (s : S) :
  I 0%nat s ->
  (forall i s, (i < n)%nat -> I i s ->
               match body i s with
               | Ok s' => I (Datatypes.S i) s'
               | Raise e => E e
               | Unfinished => False
               end) ->
  match for_range n body s with
  | Ok s' => I n s'
  | Raise e => E e
  | Unfinished => False
  end.
Proof.
  intros H0 Hstep. unfold for_range.
  assert (forall len j s, (j + len = n)%nat -> I j s ->
            match for_each (seq j len) body s with
            | Ok s' => I n s'
            | Raise e => E e
            | Unfinished => False
            end) as Hgen.
  { induction len as [|len IH]; intros j s0 Hj HI; cbn [seq for_each].
    - by replace n with j by lia.
    - assert (j < n)%nat as Hlt by lia.
      pose proof (Hstep j s0 Hlt HI) as Hb.
      destruct (body j s0) as [s1|e|]; cbn [mbind result_bind]; [|done..].
      apply IH; [lia|done]. }
  by apply (Hgen n 0%nat).
Qed.

End RangeLoops.

(** ** The addition of the code *)

Section Addition.

Implicit Types (x y : num).

Lemma num_add_outcome x y :
  Num.add x y = Ok (Num.sum x y) \/ Num.add x y = Raise OverflowError.
Proof.
  destruct x as [a|], y as [b|]; cbn [Num.add Num.sum]; auto;
    destruct (Num.float_ok _); auto.
Qed.

Lemma num_add_safe x y :
  Num.safe x = true -> Num.safe y = true -> Num.add x y = Ok (Num.sum x y).
Proof.
  destruct x as [a|], y as [b|]; cbn [Num.add Num.sum Num.safe]; try done.
  - by intros ->.
  - by intros _ ->.
Qed.

Lemma num_add_weight x (w : Z) :
  Num.float_ok w = true -> Num.add x (Fin w) = Ok (Num.sum x (Fin w)).
Proof. destruct x; cbn [Num.add Num.sum]; [done|]. by intros ->. Qed.

Lemma num_add_ok x y z : Num.add x y = Ok z -> z = Num.sum x y.
Proof.
  destruct (num_add_outcome x y) as [-> | ->]; [by intros [= <-]|done].
Qed.

(** An integer of absolute value below the limit converts to a float. *)
Lemma float_ok_between (a B : Z) :
  0 <= a <= B -> B < Num.float_limit -> Num.float_ok a = true.
Proof. intros Ha HB. unfold Num.float_ok. apply Z.ltb_lt. lia. Qed.

End Addition.

Section Matrices.

Context {A : Type}.
Implicit Types (m : matrix A) (row : list A).

Lemma py_get_Some row i x : row !! i = Some x -> py_get row i = Ok x.
Proof. unfold py_get. by intros ->. Qed.

Lemma py_set_lt row i x :
  (i < length row)%nat -> py_set row i x = Ok (<[i := x]> row).
Proof. intros H. unfold py_set. by rewrite decide_True. Qed.

Lemma mat_get_cell m i j x :
  cell_at m i j = Some x -> mat_get m i j = Ok x.
Proof.
  unfold cell_at, mat_get, py_get. destruct (m !! i) as [row|]; simpl; [|done].
  by intros ->.
Qed.

Lemma mat_set_row m i j row x :
  m !! i = Some row -> (j < length row)%nat ->
  mat_set m i j x = Ok (<[i := <[j := x]> row]> m).
Proof.
  intros Hrow Hj. unfold mat_set, py_get, py_set. rewrite Hrow. simpl.
  rewrite decide_True by done. simpl.
  rewrite decide_True; [done|]. by eapply lookup_lt_Some.
Qed.

Lemma sq_cell_is_Some n m i j :
  sq n m -> (i < n)%nat -> (j < n)%nat -> is_Some (cell_at m i j).
Proof.
  intros [Hlen Hrows] Hi Hj. unfold cell_at.
  destruct (lookup_lt_is_Some_2 m i) as [row Hrow]; [lia|].
  rewrite Hrow. simpl. apply lookup_lt_is_Some.
  rewrite Forall_forall in Hrows.
  rewrite (Hrows row); [done|]. by eapply list_elem_of_lookup_2.
Qed.

Lemma cell_at_set m i j row x a b :
  m !! i = Some row -> (j < length row)%nat ->
  cell_at (<[i := <[j := x]> row]> m) a b =
  if decide (a = i /\ b = j) then Some x else cell_at m a b.
Proof.
  intros Hrow Hj. unfold cell_at.
  destruct (decide (a = i)) as [->|Hne].
  - rewrite list_lookup_insert_eq by (by eapply lookup_lt_Some).
    rewrite Hrow. simpl. destruct (decide (b = j)) as [->|Hb].
    + rewrite decide_True by done. by apply list_lookup_insert_eq.
    + rewrite decide_False by (intros [_ ?]; done).
      by apply list_lookup_insert_ne.
  - rewrite list_lookup_insert_ne by done.
    rewrite decide_False by (intros [? _]; done). done.
Qed.

Lemma sq_set n m i j row x :
  sq n m -> m !! i = Some row -> sq n (<[i := <[j := x]> row]> m).
Proof.
  intros [Hlen Hrows] Hrow. split; [by rewrite length_insert|].
  apply Forall_insert; [done|]. rewrite length_insert.
  by eapply (Forall_lookup_1 _ _ _ _ Hrows).
Qed.

(** [matrix[i][j] = x] on a square matrix, within range. *)
Lemma mat_set_sq n m i j x :
  sq n m -> (i < n)%nat -> (j < n)%nat ->
  exists m', mat_set m i j x = Ok m' /\ sq n m'
             /\ forall a b, cell_at m' a b =
                            if decide (a = i /\ b = j) then Some x
                            else cell_at m a b.
Proof.
  intros Hsq Hi Hj. pose proof Hsq as [Hlen Hrows].
  destruct (lookup_lt_is_Some_2 m i) as [row Hrow]; [lia|].
  assert (length row = n) as Hr.
  { rewrite Forall_forall in Hrows. apply Hrows.
    by eapply list_elem_of_lookup_2. }
  exists (<[i := <[j := x]> row]> m). split_and!.
  - apply mat_set_row; [done|lia].
  - by apply sq_set.
  - intros a b. apply cell_at_set; [done|lia].
Qed.

End Matrices.

(** ** Warshall *)

Section Warshall.

Lemma warshall_step_num (M : matrix wcell) (i j : nat) (row : list wcell)
    (x : num) :
  M !! i = Some row -> row !! j = Some (WNum x) ->
  warshall_step i j M = Ok (<[i := <[j := reachable_cell x]> row]> M).
Proof.
  intros Hrow Hx. unfold warshall_step.
  rewrite (mat_get_cell M i j (WNum x)) by (unfold cell_at; by rewrite Hrow).
  simpl. erewrite mat_set_row; [done|exact Hrow|by eapply lookup_lt_Some].
Qed.

(** The inner loop, started when the cells [pre] of row [i] are already
    rewritten and the cells [suf] are not. *)
Lemma warshall_row (i : nat) (suf pre : list num) (M : matrix wcell) :
  M !! i = Some ((reachable_cell <$> pre) ++ (WNum <$> suf)) ->
  for_each (seq (length pre) (length suf)) (warshall_step i) M
  = Ok (<[i := reachable_cell <$> (pre ++ suf)]> M).
Proof.
  revert pre M. induction suf as [|x suf IH]; intros pre M Hrow.
  - simpl. f_equal. symmetry. apply list_insert_id.
    by rewrite Hrow, !app_nil_r.
  - cbn [length seq for_each].
    assert (((reachable_cell <$> pre) ++ (WNum <$> x :: suf)) !! length pre
            = Some (WNum x)) as Hx.
    { rewrite fmap_cons. apply list_lookup_middle. by rewrite length_fmap. }
    rewrite (warshall_step_num M i (length pre) _ x Hrow Hx).
    cbn [mbind result_bind].
    rewrite insert_app_r_alt by (by rewrite length_fmap).
    rewrite length_fmap, Nat.sub_diag, fmap_cons. cbn [insert list_insert].
    replace (Datatypes.S (length pre)) with (length (pre ++ [x]))
      by (rewrite length_app; simpl; lia).
    rewrite IH.
    + by rewrite list_insert_insert_eq, <- app_assoc.
    + rewrite list_lookup_insert_eq by (by eapply lookup_lt_Some).
      by rewrite fmap_app, <- app_assoc.
Qed.

Lemma length_reachable_cells (m : matrix num) :
  length (reachable_cells m) = length m.
Proof. unfold reachable_cells. by rewrite length_fmap. Qed.

Lemma reachable_cells_app (m1 m2 : matrix num) :
  reachable_cells (m1 ++ m2) = reachable_cells m1 ++ reachable_cells m2.
Proof. unfold reachable_cells. by rewrite fmap_app. Qed.

Lemma as_wcells_cons (row : list num) (m : matrix num) :
  as_wcells (row :: m) = (WNum <$> row) :: as_wcells m.
Proof. done. Qed.

(** The outer loop, started when the rows [pre] are already rewritten
    and the rows [suf] are not. *)
Lemma warshall_rows (suf pre : matrix num) :
  for_each (seq (length pre) (length suf))
    (fun i m =>
       row ← py_get m i;
       for_range (length row) (warshall_step i) m)
    (reachable_cells pre ++ as_wcells suf)
  = Ok (reachable_cells (pre ++ suf)).
Proof.
  revert pre. induction suf as [|row suf IH]; intros pre.
  - simpl. by rewrite !app_nil_r.
  - cbn [length seq for_each]. rewrite as_wcells_cons.
    assert ((reachable_cells pre ++ (WNum <$> row) :: as_wcells suf)
              !! length pre = Some (WNum <$> row)) as Hrow.
    { apply list_lookup_middle. by rewrite length_reachable_cells. }
    rewrite (py_get_Some _ _ _ Hrow). cbn [mbind result_bind].
    unfold for_range in *. rewrite length_fmap.
    pose proof (warshall_row (length pre) row [] _ Hrow) as Hinner.
    change (length (@nil num)) with 0%nat in Hinner.
    rewrite Hinner. clear Hinner. cbn [mbind result_bind app].
    rewrite insert_app_r_alt by (by rewrite length_reachable_cells).
    rewrite length_reachable_cells, Nat.sub_diag. cbn [insert list_insert].
    specialize (IH (pre ++ [row])).
    rewrite <- (app_assoc pre [row] suf) in IH.
    rewrite length_app, Nat.add_1_r in IH.
    rewrite reachable_cells_app, <- app_assoc in IH.
    exact IH.
Qed.

Lemma warshall_loops_spec (m : matrix num) :
  warshall_loops (as_wcells m) = Ok (reachable_cells m).
Proof.
  unfold warshall_loops, for_range.
  replace (length (as_wcells m)) with (length m)
    by (unfold as_wcells; by rewrite length_fmap).
  apply (warshall_rows m []).
Qed.

Lemma cell_at_reachable_cells (m : matrix num) (i j : nat) :
  cell_at (reachable_cells m) i j = reachable_cell <$> cell_at m i j.
Proof.
  unfold cell_at, reachable_cells. rewrite list_lookup_fmap.
  destruct (m !! i) as [row|]; simpl; [|done]. by rewrite list_lookup_fmap.
Qed.

End Warshall.

(** ** From the adjacency list to the matrix *)

Section Matrix.

Implicit Types (g : AdjacencyList) (m : matrix num).

Lemma find_dst_index_spec g d :
  match find_dst_index g d with
  | Ok r => name <$> g !! r = Some d
            /\ forall r', (r' < r)%nat -> name <$> g !! r' <> Some d
  | Raise e => e = AttributeError /\ find_node g d = false
  | Unfinished => False
  end.
Proof.
  induction g as [|hd tl IH]; simpl; [done|].
  destruct (String.eqb_spec d (name hd)) as [->|Hne].
  - split; [done|]. intros r' Hr'. lia.
  - destruct (find_dst_index tl d) as [r|e|]; simpl; [|done..].
    destruct IH as [Hr Hfirst]. rewrite Nat.add_1_r. split; [done|].
    intros [|r'] Hlt; simpl; [congruence|]. apply Hfirst. lia.
Qed.

Lemma find_dst_index_member g d :
  find_node g d = true ->
  exists r, find_dst_index g d = Ok r /\ (r < length g)%nat
            /\ name <$> g !! r = Some d.
Proof.
  intros Hf. pose proof (find_dst_index_spec g d) as H.
  destruct (find_dst_index g d) as [r|e|]; [|destruct H; congruence|done].
  destruct H as [Hr _]. exists r. split_and!; [done| |done].
  apply lookup_lt_is_Some. destruct (g !! r); [eauto|done].
Qed.

Lemma sq_inf_matrix n : sq n (inf_matrix n).
Proof.
  unfold inf_matrix. split; [by rewrite length_replicate|].
  apply Forall_replicate. by rewrite length_replicate.
Qed.

Lemma cell_at_inf_matrix n i j :
  (i < n)%nat -> (j < n)%nat -> cell_at (inf_matrix n) i j = Some Inf.
Proof.
  intros Hi Hj. unfold cell_at, inf_matrix.
  rewrite lookup_replicate_2 by done. simpl. by apply lookup_replicate_2.
Qed.

(** The edge loop of [add_list_to_matrix] for one node returns when the
    destinations are nodes. *)
Lemma add_row_returns g n (es : Edge.t) i m :
  length g = n -> (i < n)%nat -> sq n m ->
  forallb (fun e => find_node g (Edge.dst e)) es = true ->
  exists m',
    for_each es
      (fun e m =>
         dst_index ← find_dst_index g (Edge.dst e);
         mat_set m i dst_index (Fin (Edge.weight e))) m = Ok m'
    /\ sq n m'.
Proof.
  intros Hn Hi Hsq Hes.
  apply (for_each_inv (fun _ m => sq n m)); [done|].
  intros pre e rest m0 -> Hm0.
  rewrite forallb_app in Hes. apply andb_true_iff in Hes as [_ He].
  simpl in He. apply andb_true_iff in He as [He _].
  destruct (find_dst_index_member g _ He) as (r & -> & Hr & _). simpl.
  destruct (mat_set_sq n m0 i r (Fin (Edge.weight e))) as (m1 & ? & ? & _);
    [done|done|lia|]. eauto.
Qed.

Lemma add_rows_returns g n rest i m :
  length g = n -> (i + length rest = n)%nat -> sq n m ->
  forallb (fun nd => forallb (fun e => find_node g (Edge.dst e)) (edges nd))
    rest = true ->
  exists m', add_rows g rest i m = Ok m' /\ sq n m'.
Proof.
  intros Hn. revert i m.
  induction rest as [|hd tl IH]; intros i m Hi Hsq Hrest; simpl.
  - eauto.
  - simpl in Hi, Hrest. apply andb_true_iff in Hrest as [Hhd Htl].
    destruct (add_row_returns g n (edges hd) i m) as (m1 & -> & Hsq1);
      [done|lia|done|done|]. simpl.
    apply IH; [lia|done|done].
Qed.

Lemma add_list_to_matrix_returns g :
  edges_closed g = true ->
  exists m, add_list_to_matrix g (inf_matrix (length g)) = Ok m
            /\ sq (length g) m.
Proof.
  intros Hc. apply add_rows_returns; [done|simpl; lia| |done].
  apply sq_inf_matrix.
Qed.

Lemma cell_of_cell_at m i j x : cell_at m i j = Some x -> cell m i j = x.
Proof. unfold cell. by intros ->. Qed.

(** One turn of the loop of [floyd] on a square matrix, when the two
    costs it adds can be added. *)
Lemma floyd_step_spec n k i j m :
  sq n m -> (k < n)%nat -> (i < n)%nat -> (j < n)%nat ->
  Num.safe (cell m i k) = true -> Num.safe (cell m k j) = true ->
  exists m', floyd_step k i j m = Ok m' /\ sq n m'
             /\ forall a b, cell_at m' a b =
                            if decide (a = i /\ b = j)
                            then Some (floyd_value k i j m)
                            else cell_at m a b.
Proof.
  intros Hsq Hk Hi Hj Hsik Hskj. unfold floyd_step, floyd_value.
  destruct (sq_cell_is_Some n m i j Hsq Hi Hj) as [mij Hij].
  destruct (sq_cell_is_Some n m i k Hsq Hi Hk) as [mik Hik].
  destruct (sq_cell_is_Some n m k j Hsq Hk Hj) as [mkj Hkj].
  rewrite (mat_get_cell _ _ _ _ Hij). simpl.
  rewrite (cell_of_cell_at _ _ _ _ Hik) in Hsik.
  rewrite (cell_of_cell_at _ _ _ _ Hkj) in Hskj.
  rewrite (cell_of_cell_at _ _ _ _ Hij), (cell_of_cell_at _ _ _ _ Hik),
    (cell_of_cell_at _ _ _ _ Hkj).
  destruct ((i =? j)%nat && Num.is_inf mij).
  - by apply mat_set_sq.
  - rewrite (mat_get_cell _ _ _ _ Hik). simpl.
    rewrite (mat_get_cell _ _ _ _ Hkj). simpl.
    rewrite (num_add_safe _ _ Hsik Hskj). simpl.
    by apply mat_set_sq.
Qed.

(** One turn of the loop returns a square matrix or raises
    [OverflowError]. *)
Lemma floyd_step_outcome n k i j m :
  sq n m -> (k < n)%nat -> (i < n)%nat -> (j < n)%nat ->
  match floyd_step k i j m with
  | Ok m' => sq n m'
  | Raise e => e = OverflowError
  | Unfinished => False
  end.
Proof.
  intros Hsq Hk Hi Hj. unfold floyd_step.
  destruct (sq_cell_is_Some n m i j Hsq Hi Hj) as [mij Hij].
  destruct (sq_cell_is_Some n m i k Hsq Hi Hk) as [mik Hik].
  destruct (sq_cell_is_Some n m k j Hsq Hk Hj) as [mkj Hkj].
  rewrite (mat_get_cell _ _ _ _ Hij). simpl.
  destruct ((i =? j)%nat && Num.is_inf mij).
  - by destruct (mat_set_sq n m i j (Fin 0) Hsq Hi Hj) as (m' & -> & ? & _).
  - rewrite (mat_get_cell _ _ _ _ Hik). simpl.
    rewrite (mat_get_cell _ _ _ _ Hkj). simpl.
    destruct (num_add_outcome mik mkj) as [-> | ->]; simpl; [|done].
    by destruct (mat_set_sq n m i j (Num.min mij (Num.sum mik mkj)) Hsq Hi Hj)
      as (m' & -> & ? & _).
Qed.

Lemma floyd_loops_outcome n m :
  sq n m ->
  match floyd_loops n m with
  | Ok m' => sq n m'
  | Raise e => e = OverflowError
  | Unfinished => False
  end.
Proof.
  intros Hsq. unfold floyd_loops.
  apply (for_range_outcome (fun _ m => sq n m)); [done|].
  intros k m1 Hk Hm1.
  apply (for_range_outcome (fun _ m => sq n m)); [done|].
  intros i m2 Hi Hm2.
  apply (for_range_outcome (fun _ m => sq n m)); [done|].
  intros j m3 Hj Hm3. by apply floyd_step_outcome.
Qed.

(** When every edge points to a node, [floyd] returns a square matrix or
    raises [OverflowError]. *)
Lemma floyd_outcome g :
  edges_closed g = true ->
  match floyd g with
  | Ok m => sq (length g) m
  | Raise e => e = OverflowError
  | Unfinished => False
  end.
Proof.
  intros Hc. unfold floyd. rewrite node_cardinality_length.
  destruct (add_list_to_matrix_returns g Hc) as (m0 & -> & Hsq). simpl.
  by apply floyd_loops_outcome.
Qed.

End Matrix.

(** C7: [warshall] returns the cell-by-cell image of the matrix [floyd]
    returns, a finite cell as [True] and an infinite one as [False]; when
    [floyd] raises, [warshall] raises the same exception. *)
Theorem warshall_is_image_of_floyd (g : AdjacencyList) :
  warshall g = reachable_cells <$> floyd g
  /\ (forall m, floyd g = Ok m ->
        exists w, warshall g = Ok w
                  /\ length w = length m
                  /\ forall i j,
                       cell_at w i j =
                       (fun x => WBool (negb (Num.is_inf x))) <$> cell_at m i j)
  /\ (forall e, floyd g = Raise e -> warshall g = Raise e).
Proof.
  assert (warshall g = reachable_cells <$> floyd g) as Heq.
  { unfold warshall. destruct (floyd g) as [m| |]; simpl; [|done..].
    apply warshall_loops_spec. }
  split_and!; [done| |].
  - intros m Hm. exists (reachable_cells m). rewrite Heq, Hm.
    split_and!; [done|apply length_reachable_cells|].
    intros i j. rewrite cell_at_reachable_cells.
    destruct (cell_at m i j) as [[z|]|]; done.
  - intros e He. by rewrite Heq, He.
Qed.

(** ** The scratch store of Dijkstra and Prim *)

Section Scratch.

Implicit Types (g : AdjacencyList) (q s : list nat).

Lemma list_nodes_object_seq base g :
  list_nodes_object_from base g = seq base (length g).
Proof.
  revert base. induction g as [|hd tl IH]; intros base; simpl; [done|].
  by rewrite IH.
Qed.

Lemma store_info_middle (pre suf : AdjacencyList) nd i :
  store_info (pre ++ nd :: suf) (length pre) i
  = (pre ++ [set_info nd i]) ++ suf.
Proof.
  unfold store_info. rewrite alter_app_r_alt by done.
  rewrite Nat.sub_diag. simpl. by rewrite <- app_assoc.
Qed.

Lemma init_fold start_node (suf pre : AdjacencyList) :
  foldl (fun g r =>
           if String.eqb (name (g !!! r)) start_node
           then store_info g r (Some (Fin 0, None))
           else store_info g r (Some (Inf, None)))
        (pre ++ suf) (seq (length pre) (length suf))
  = pre ++ (initial_info start_node <$> suf).
Proof.
  revert pre. induction suf as [|nd suf IH]; intros pre; [done|].
  cbn [length seq foldl]. rewrite fmap_cons.
  assert ((pre ++ nd :: suf) !!! length pre = nd) as ->.
  { apply list_lookup_total_correct. by apply list_lookup_middle. }
  specialize (IH (pre ++ [initial_info start_node nd])).
  rewrite length_app, Nat.add_1_r in IH.
  etrans; [|etrans; [exact IH|by rewrite <- app_assoc]].
  f_equal. unfold initial_info.
  destruct (String.eqb (name nd) start_node);
    by rewrite store_info_middle.
Qed.

(** [init_single_source] on an empty [q]. *)
Lemma init_single_source_spec g start_node :
  init_single_source g [] start_node
  = (initial_info start_node <$> g, seq 0 (length g)).
Proof.
  unfold init_single_source, list_nodes_object.
  rewrite list_nodes_object_seq. simpl. f_equal.
  apply (init_fold start_node g []).
Qed.

Lemma scratch_of_initial g start_node :
  scratch_of g (initial_info start_node <$> g).
Proof.
  split_and!.
  - rewrite <- list_fmap_compose. by apply list_fmap_ext.
  - rewrite <- list_fmap_compose. by apply list_fmap_ext.
  - apply Forall_fmap, Forall_true. intros nd. simpl. eauto.
Qed.

Lemma scratch_of_length g0 g : scratch_of g0 g -> length g = length g0.
Proof.
  intros (Hn & _ & _). by rewrite <- (length_fmap name g), Hn, length_fmap.
Qed.

Lemma scratch_of_store g0 g r i :
  scratch_of g0 g -> scratch_of g0 (store_info g r (Some i)).
Proof.
  intros (Hn & He & Hi). unfold store_info. split_and!.
  - rewrite <- Hn.
    rewrite (list_fmap_alter name _ id) by (by apply Forall_true).
    by apply list_alter_id.
  - rewrite <- He.
    rewrite (list_fmap_alter edges _ id) by (by apply Forall_true).
    by apply list_alter_id.
  - apply Forall_alter; [done|]. intros nd _. simpl. eauto.
Qed.

Lemma scratch_of_edges g0 g r :
  scratch_of g0 g -> (r < length g0)%nat ->
  edges (g !!! r) = edges (g0 !!! r).
Proof.
  intros Hs Hr. pose proof (scratch_of_length _ _ Hs) as Hlen.
  destruct Hs as (_ & He & _).
  rewrite <- (list_lookup_total_fmap edges g) by lia.
  rewrite <- (list_lookup_total_fmap edges g0) by lia. by rewrite He.
Qed.

Lemma scratch_of_info0 g0 g r :
  scratch_of g0 g -> (r < length g0)%nat ->
  exists x p, info (g !!! r) = Some (x, p).
Proof.
  intros Hs Hr. pose proof (scratch_of_length _ _ Hs) as Hlen.
  destruct Hs as (_ & _ & Hi).
  assert (is_Some (info (g !!! r))) as [[x p] Hx].
  { eapply (Forall_lookup_1 (fun nd => is_Some (info nd)) g r); [exact Hi|].
    apply list_lookup_lookup_total_lt. lia. }
  eauto.
Qed.

(** A lookup by name only reads the names. *)
Lemma get_node_names g g' nm :
  name <$> g = name <$> g' -> get_node g nm = get_node g' nm.
Proof.
  revert g'. induction g as [|hd tl IH]; intros [|hd' tl'] Heq;
    simpl in *; try done.
  injection Heq as Hhd Htl. rewrite Hhd. by rewrite (IH tl').
Qed.

Lemma find_node_names g g' nm :
  name <$> g = name <$> g' -> find_node g nm = find_node g' nm.
Proof.
  revert g'. induction g as [|hd tl IH]; intros [|hd' tl'] Heq;
    simpl in *; try done.
  injection Heq as Hhd Htl. rewrite Hhd. by rewrite (IH tl').
Qed.

Lemma info0_eq nd x p : info nd = Some (x, p) -> info0 nd = Ok x.
Proof. unfold info0. by intros ->. Qed.

Lemma info1_eq nd x p : info nd = Some (x, p) -> info1 nd = Ok p.
Proof. unfold info1. by intros ->. Qed.

(** [relax] on two nodes that carry an info: the sum is formed, and [v]
    receives it when it is smaller than the distance of [v]. *)
Lemma relax_unfold g u v w dv pv du pu :
  info (g !!! v) = Some (dv, pv) -> info (g !!! u) = Some (du, pu) ->
  relax g u (PyNode v) w
  = (through ← Num.add du (Fin w);
     Ok (if Num.ltb through dv
         then store_info g v (Some (through, Some (name (g !!! u))))
         else g)).
Proof.
  intros Hdv Hdu. unfold relax.
  rewrite (info0_eq _ _ _ Hdv), (info0_eq _ _ _ Hdu). cbn [mbind result_bind].
  destruct (Num.add du (Fin w)) as [through|e|]; cbn [mbind result_bind];
    [|done..].
  by destruct (Num.ltb through dv).
Qed.

(** [get_min_node] pops one reference of a non-empty working set. *)
Lemma get_min_node_returns g0 g q :
  scratch_of g0 g -> Forall (fun r => (r < length g0)%nat) q -> q <> [] ->
  exists idx u, get_min_node g q = Ok (u, delete idx q)
                /\ q !! idx = Some u.
Proof.
  intros Hs Hq Hne. unfold get_min_node.
  destruct (for_range_inv (fun _ mi => (mi < length q)%nat) (length q)
              (fun i min_index =>
                 a ← py_get q i;
                 x ← info0 (g !!! a);
                 b ← py_get q min_index;
                 y ← info0 (g !!! b);
                 Ok (if Num.ltb x y then i else min_index)) 0%nat)
    as (mi & -> & Hmi).
  - destruct q; [done|simpl; lia].
  - intros i mi Hi Hmi.
    destruct (lookup_lt_is_Some_2 q i Hi) as [a Ha].
    destruct (lookup_lt_is_Some_2 q mi Hmi) as [b Hb].
    destruct (scratch_of_info0 g0 g a Hs) as (x & px & Hx);
      [by eapply (Forall_lookup_1 _ _ _ _ Hq)|].
    destruct (scratch_of_info0 g0 g b Hs) as (y & py & Hy);
      [by eapply (Forall_lookup_1 _ _ _ _ Hq)|].
    rewrite (py_get_Some _ _ _ Ha). simpl.
    rewrite (info0_eq _ _ _ Hx). simpl.
    rewrite (py_get_Some _ _ _ Hb). simpl.
    rewrite (info0_eq _ _ _ Hy). simpl.
    eexists. split; [done|]. by destruct (Num.ltb x y).
  - simpl. destruct (lookup_lt_is_Some_2 q mi Hmi) as [u Hu].
    rewrite (py_get_Some _ _ _ Hu). simpl. eauto.
Qed.

End Scratch.

(** ** The output arrays *)

Section Output.

Implicit Types (g : AdjacencyList) (l s : list nat).

Lemma insert_by_name_perm g x l : insert_by_name g x l ≡ₚ x :: l.
Proof.
  induction l as [|y l IH]; simpl; [done|].
  destruct (String.ltb _ _); [|done]. rewrite IH. apply Permutation_swap.
Qed.

Lemma sort_by_name_perm g l : sort_by_name g l ≡ₚ l.
Proof.
  induction l as [|x l IH]; simpl; [done|].
  by rewrite insert_by_name_perm, IH.
Qed.

(** The loop of [get_output], started at index [k]. *)
Lemma get_output_loop g0 g l :
  scratch_of g0 g -> Forall (fun r => (r < length g0)%nat) l ->
  forall (f : nat -> nat -> nat * nat) k d_pre d_suf e_pre e_suf,
    (forall i r, f i r = ((k + i)%nat, r)) ->
    length d_pre = k -> length e_pre = k ->
    length d_suf = length l -> length e_suf = length l ->
    for_each (imap f l) (fun '(i, r) '(distance, previous) =>
        x ← info0 (g !!! r);
        distance ← py_set distance i
                     (if Num.is_zero x then None else Some x);
        p ← info1 (g !!! r);
        previous ← py_set previous i
                     (if Num.is_zero x then None else p);
        Ok (distance, previous)) (d_pre ++ d_suf, e_pre ++ e_suf)
    = Ok (d_pre ++ ((fun r => out_distance (g !!! r)) <$> l),
          e_pre ++ ((fun r => out_previous (g !!! r)) <$> l)).
Proof.
  intros Hs. induction l as [|r l IH];
    intros Hl f k d_pre d_suf e_pre e_suf Hf Hd He Hds Hes.
  - destruct d_suf, e_suf; done.
  - destruct d_suf as [|d0 d_suf]; [done|].
    destruct e_suf as [|e0 e_suf]; [done|].
    apply Forall_cons in Hl as [Hr Hl].
    rewrite imap_cons. cbn [for_each]. rewrite Hf, Nat.add_0_r.
    destruct (scratch_of_info0 g0 g r Hs Hr) as (x & p & Hx).
    rewrite (info0_eq _ _ _ Hx), (info1_eq _ _ _ Hx). cbn [mbind result_bind].
    rewrite py_set_lt by (rewrite length_app; simpl; lia).
    cbn [mbind result_bind].
    rewrite py_set_lt by (rewrite length_app; simpl; lia).
    cbn [mbind result_bind].
    rewrite !insert_app_r_alt by lia. rewrite Hd, He, Nat.sub_diag.
    cbn [insert list_insert].
    rewrite (cons_middle _ d_pre), (cons_middle _ e_pre), !app_assoc.
    rewrite (IH Hl (f ∘ S) (S k)).
    + rewrite <- !app_assoc, fmap_cons. simpl.
      unfold out_distance, out_previous. by rewrite Hx.
    + intros i r'. simpl. rewrite Hf. f_equal. lia.
    + rewrite length_app. simpl. lia.
    + rewrite length_app. simpl. lia.
    + simpl in Hds. lia.
    + simpl in Hes. lia.
Qed.

Lemma get_output_spec g0 g s :
  scratch_of g0 g -> Forall (fun r => (r < length g0)%nat) s ->
  get_output g s (replicate (length s) None) (replicate (length s) None)
  = Ok ((fun r => out_distance (g !!! r)) <$> sort_by_name g s,
        (fun r => out_previous (g !!! r)) <$> sort_by_name g s).
Proof.
  intros Hs Hv. unfold get_output.
  assert (length (sort_by_name g s) = length s) as Hlen.
  { by rewrite sort_by_name_perm. }
  apply (get_output_loop g0 g (sort_by_name g s) Hs) with
    (f := pair) (k := 0%nat) (d_pre := []) (e_pre := []); try done.
  - by rewrite sort_by_name_perm.
  - by rewrite length_replicate.
  - by rewrite length_replicate.
Qed.

End Output.

(** ** The selection loops return *)

Section SelectionLoops.

Variable g0 : AdjacencyList.

Implicit Types (g : AdjacencyList) (q s : list nat).

Abbreviation valid := (Forall (fun r => (r < length g0)%nat)).

Lemma get_node_valid g d v :
  scratch_of g0 g -> get_node g d = PyNode v -> (v < length g0)%nat.
Proof.
  intros Hs Hv. pose proof (get_node_spec g d) as H. rewrite Hv in H.
  destruct H as (_ & Hr & _). rewrite <- (scratch_of_length _ _ Hs).
  apply lookup_lt_is_Some. destruct (g !! v); [eauto|done].
Qed.

Lemma relax_returns g u d w :
  scratch_of g0 g -> (u < length g0)%nat -> find_node g0 d = true ->
  Num.float_ok w = true ->
  exists g', relax g u (get_node g d) w = Ok g' /\ scratch_of g0 g'.
Proof.
  intros Hs Hu Hd Hw. pose proof Hs as (Hn & _ & _).
  rewrite <- (find_node_names g g0 d Hn) in Hd.
  destruct (get_node_member g d Hd) as (v & Hv & Hlt). rewrite Hv.
  rewrite (scratch_of_length _ _ Hs) in Hlt.
  destruct (scratch_of_info0 g0 g v Hs Hlt) as (dv & pv & Hdv).
  destruct (scratch_of_info0 g0 g u Hs Hu) as (du & pu & Hdu).
  rewrite (relax_unfold g u v w _ _ _ _ Hdv Hdu), (num_add_weight du w Hw).
  cbn [mbind result_bind].
  destruct (Num.ltb _ _); eexists; split; try done.
  by apply scratch_of_store.
Qed.

Lemma weights_float_lookup u e :
  weights_float g0 = true -> (u < length g0)%nat ->
  e ∈ edges (g0 !!! u) -> Num.float_ok (Edge.weight e) = true.
Proof.
  unfold weights_float. rewrite forallb_forall. intros Hc Hu He.
  specialize (Hc (g0 !!! u)). rewrite forallb_forall in Hc.
  apply Hc; [|by apply list_elem_of_In].
  apply list_elem_of_In. eapply list_elem_of_lookup_2.
  by apply list_lookup_lookup_total_lt.
Qed.

Lemma edges_closed_lookup u e :
  edges_closed g0 = true -> (u < length g0)%nat ->
  e ∈ edges (g0 !!! u) -> find_node g0 (Edge.dst e) = true.
Proof.
  unfold edges_closed. rewrite forallb_forall. intros Hc Hu He.
  specialize (Hc (g0 !!! u)). rewrite forallb_forall in Hc.
  apply Hc; [|by apply list_elem_of_In].
  apply list_elem_of_In. eapply list_elem_of_lookup_2.
  by apply list_lookup_lookup_total_lt.
Qed.

Lemma dijkstra_edges_returns g u :
  edges_closed g0 = true -> weights_float g0 = true ->
  scratch_of g0 g -> (u < length g0)%nat ->
  exists g', dijkstra_edges g u = Ok g' /\ scratch_of g0 g'.
Proof.
  intros Hc Hf Hs Hu. unfold dijkstra_edges, list_edges_object.
  apply (for_each_inv (fun _ g' => scratch_of g0 g')); [done|].
  intros pre e rest g1 Hes Hg1.
  assert (e ∈ edges (g0 !!! u)) as He.
  { rewrite <- (scratch_of_edges g0 g u Hs Hu), Hes.
    apply elem_of_app. right. by left. }
  apply relax_returns; [done..| |].
  - by apply (edges_closed_lookup u).
  - by apply (weights_float_lookup u).
Qed.

Lemma prim_scan_returns g q u e :
  scratch_of g0 g ->
  exists g', prim_scan q u e g = Ok g' /\ scratch_of g0 g'.
Proof.
  intros Hs. unfold prim_scan.
  destruct (get_node g (Edge.dst e)) as [v|z] eqn:Hv; [|eauto].
  destruct (bool_decide (v ∈ q)); [|eauto].
  destruct (scratch_of_info0 g0 g v Hs) as (lv & pv & Hlv);
    [by eapply get_node_valid|].
  rewrite (info0_eq _ _ _ Hlv). cbn [mbind result_bind].
  destruct (Num.ltb _ _); eexists; split; try done.
  by apply scratch_of_store.
Qed.

Lemma prim_edges_returns g q u :
  scratch_of g0 g ->
  exists g', prim_edges g q u = Ok g' /\ scratch_of g0 g'.
Proof.
  intros Hs. unfold prim_edges.
  apply (for_each_inv (fun _ g' => scratch_of g0 g')); [done|].
  intros pre e rest g1 _ Hg1. by apply prim_scan_returns.
Qed.

(** When every edge points to a node and every weight converts to a
    float, the [while] loop of [dijkstra] empties [q] in [length q] turns:
    it returns, with every reference of [q] moved to [s]; a property [P] of
    the store that the edge loop preserves holds at the end. *)
Lemma dijkstra_loop_returns (P : AdjacencyList -> Prop) q g s :
  (forall g u g', scratch_of g0 g -> (u < length g0)%nat -> P g ->
                  dijkstra_edges g u = Ok g' -> P g') ->
  edges_closed g0 = true -> weights_float g0 = true ->
  scratch_of g0 g -> valid q -> P g ->
  exists g' s', dijkstra_loop (length q) g q s = Ok (g', s ++ s')
                /\ scratch_of g0 g' /\ s' ≡ₚ q /\ P g'.
Proof.
  intros HP Hc Hf. remember (length q) as n eqn:Hn.
  revert q g s Hn. induction n as [|n IH]; intros q g s Hn Hs Hq Hg.
  - destruct q; [|done]. exists g, []. simpl. by rewrite app_nil_r.
  - destruct q as [|r q']; [done|]. cbn [dijkstra_loop].
    destruct (get_min_node_returns g0 g (r :: q') Hs Hq) as
      (idx & u & -> & Hu); [done|]. cbn [mbind result_bind].
    assert (u < length g0)%nat as Hlt
      by (by eapply (Forall_lookup_1 _ _ _ _ Hq)).
    destruct (dijkstra_edges_returns g u Hc Hf Hs Hlt) as (g1 & Hg1 & Hs1).
    rewrite Hg1. cbn [mbind result_bind].
    destruct (IH (delete idx (r :: q')) g1 (s ++ [u]))
      as (g2 & s2 & -> & Hs2 & Hperm & HP2);
      [| done |by apply Forall_delete|by apply (HP g u g1)|].
    + rewrite length_delete by eauto. simpl in *. lia.
    + exists g2, (u :: s2). rewrite <- app_assoc. split_and!; [done..| |done].
      rewrite Hperm. symmetry. by apply delete_Permutation.
Qed.

Lemma prim_loop_returns q g s :
  scratch_of g0 g -> valid q ->
  exists g' s', prim_loop (length q) g q s = Ok (g', s ++ s')
                /\ scratch_of g0 g' /\ s' ≡ₚ q.
Proof.
  remember (length q) as n eqn:Hn.
  revert q g s Hn. induction n as [|n IH]; intros q g s Hn Hs Hq.
  - destruct q; [|done]. exists g, []. simpl. by rewrite app_nil_r.
  - destruct q as [|r q']; [done|]. cbn [prim_loop].
    destruct (get_min_node_returns g0 g (r :: q') Hs Hq) as
      (idx & u & -> & Hu); [done|]. cbn [mbind result_bind].
    destruct (prim_edges_returns g (delete idx (r :: q')) u Hs)
      as (g1 & -> & Hs1).
    cbn [mbind result_bind].
    destruct (IH (delete idx (r :: q')) g1 (s ++ [u]))
      as (g2 & s2 & -> & Hs2 & Hperm); [| done |by apply Forall_delete|].
    + rewrite length_delete by eauto. simpl in *. lia.
    + exists g2, (u :: s2). rewrite <- app_assoc. split_and!; [done..|].
      rewrite Hperm. symmetry. by apply delete_Permutation.
Qed.

End SelectionLoops.

Section Runs.

Implicit Types (g : AdjacencyList).

Lemma valid_seq n : Forall (fun r => (r < n)%nat) (seq 0 n).
Proof. apply Forall_forall. intros r Hr%elem_of_seq. lia. Qed.

(** [dijkstra] returns when every edge points to a node and every weight
    converts to a float: the arrays hold, for the nodes sorted by name,
    [None] where the final distance is [0] and the final scratch values
    elsewhere.  A property [P] of the store
    that holds initially and that the edge loop preserves holds of the
    final store. *)
Lemma dijkstra_returns_preserving (P : AdjacencyList -> Prop) g start_node :
  (forall g1 u g2, scratch_of g g1 -> (u < length g)%nat -> P g1 ->
                   dijkstra_edges g1 u = Ok g2 -> P g2) ->
  P (initial_info start_node <$> g) ->
  edges_closed g = true -> weights_float g = true ->
  exists gf s,
    dijkstra_run g start_node = Ok (gf, s)
    /\ scratch_of g gf
    /\ s ≡ₚ seq 0 (length g)
    /\ P gf
    /\ dijkstra g start_node
       = Ok ((fun r => out_distance (gf !!! r)) <$> sort_by_name gf s,
             (fun r => out_previous (gf !!! r)) <$> sort_by_name gf s).
Proof.
  intros HP HP0 Hc Hf. unfold dijkstra, dijkstra_run.
  rewrite init_single_source_spec, length_seq.
  destruct (dijkstra_loop_returns g P (seq 0 (length g))
              (initial_info start_node <$> g) [])
    as (gf & s & Hloop & Hs & Hperm & HPf);
    [done|done|done|apply scratch_of_initial|apply valid_seq|done|].
  rewrite length_seq in Hloop. rewrite Hloop. simpl.
  exists gf, s. split_and!; [done..|].
  rewrite node_cardinality_length.
  replace (length g) with (length s) by (by rewrite Hperm, length_seq).
  apply (get_output_spec g); [done|]. rewrite Hperm. apply valid_seq.
Qed.

Lemma dijkstra_returns g start_node :
  edges_closed g = true -> weights_float g = true ->
  exists gf s,
    dijkstra_run g start_node = Ok (gf, s)
    /\ scratch_of g gf
    /\ s ≡ₚ seq 0 (length g)
    /\ dijkstra g start_node
       = Ok ((fun r => out_distance (gf !!! r)) <$> sort_by_name gf s,
             (fun r => out_previous (gf !!! r)) <$> sort_by_name gf s).
Proof.
  intros Hc Hf.
  destruct (dijkstra_returns_preserving (fun _ => True) g start_node)
    as (gf & s & ? & ? & ? & _ & ?); [done..|].
  by exists gf, s.
Qed.

(** [prim] returns on every graph. *)
Lemma prim_returns g start_node :
  exists gf s,
    prim_run g start_node = Ok (gf, s)
    /\ scratch_of g gf
    /\ s ≡ₚ seq 0 (length g)
    /\ prim g start_node
       = Ok ((fun r => out_distance (gf !!! r)) <$> sort_by_name gf s,
             (fun r => out_previous (gf !!! r)) <$> sort_by_name gf s).
Proof.
  unfold prim, prim_run.
  rewrite init_single_source_spec, length_seq.
  destruct (prim_loop_returns g (seq 0 (length g))
              (initial_info start_node <$> g) [])
    as (gf & s & Hloop & Hs & Hperm);
    [apply scratch_of_initial|apply valid_seq|].
  rewrite length_seq in Hloop. rewrite Hloop. simpl.
  exists gf, s. split_and!; [done..|].
  rewrite node_cardinality_length.
  replace (length g) with (length s) by (by rewrite Hperm, length_seq).
  apply (get_output_spec g); [done|]. rewrite Hperm. apply valid_seq.
Qed.

End Runs.

(** ** The arrays follow the ascending node order *)

Section AscendingOrder.

Implicit Types (g : AdjacencyList) (l s : list nat).

Lemma ascending_lookup_lt (names : list string) i j a b :
  ascending names = true -> (i < j)%nat ->
  names !! i = Some a -> names !! j = Some b -> String.ltb a b = true.
Proof.
  revert i j. induction names as [|x names IH]; intros i j Hasc Hij Ha Hb;
    [done|].
  apply ascending_cons in Hasc as [Hall Htl].
  destruct j as [|j]; [lia|]. simpl in Hb. destruct i as [|i]; simpl in Ha.
  - injection Ha as ->. rewrite Forall_forall in Hall. apply Hall.
    by eapply list_elem_of_lookup_2.
  - apply (IH i j); [done|lia|done..].
Qed.

(** With strictly ascending names, comparing two nodes by name is
    comparing their positions. *)
Lemma name_ltb_positions g a b :
  ascending (list_nodes g) = true ->
  (a < length g)%nat -> (b < length g)%nat ->
  String.ltb (name (g !!! a)) (name (g !!! b)) = bool_decide (a < b)%nat.
Proof.
  intros Hasc Ha Hb. rewrite list_nodes_fmap in Hasc.
  assert (forall i, (i < length g)%nat ->
                    (name <$> g) !! i = Some (name (g !!! i))) as Hlk.
  { intros i Hi. rewrite list_lookup_fmap.
    by rewrite (list_lookup_lookup_total_lt g i Hi). }
  destruct (decide (a < b)%nat) as [Hab|Hab].
  - rewrite bool_decide_eq_true_2 by done.
    eapply ascending_lookup_lt; eauto.
  - rewrite bool_decide_eq_false_2 by done.
    destruct (decide (a = b)) as [->|Hne]; [apply ltb_irrefl|].
    apply ltb_asym. eapply (ascending_lookup_lt _ b a); eauto. lia.
Qed.

Lemma insert_by_name_sorted g x l :
  ascending (list_nodes g) = true ->
  Forall (fun r => (r < length g)%nat) (x :: l) ->
  Sorted le l -> Sorted le (insert_by_name g x l).
Proof.
  intros Hasc Hv Hl. apply Forall_cons in Hv as [Hx Hv].
  induction l as [|y l IH]; simpl; [by repeat constructor|].
  apply Forall_cons in Hv as [Hy Hv].
  rewrite name_ltb_positions by done.
  apply Sorted_inv in Hl as [Hl Hhd].
  destruct (decide (y < x)%nat) as [Hyx|Hyx].
  - rewrite bool_decide_eq_true_2 by done. constructor; [by apply IH|].
    destruct l as [|z l]; simpl.
    + constructor. lia.
    + destruct (String.ltb _ _); constructor; [by inversion Hhd|lia].
  - rewrite bool_decide_eq_false_2 by done.
    constructor; [by constructor|]. constructor. lia.
Qed.

Lemma sort_by_name_sorted g l :
  ascending (list_nodes g) = true ->
  Forall (fun r => (r < length g)%nat) l ->
  Sorted le (sort_by_name g l).
Proof.
  intros Hasc. induction l as [|x l IH]; intros Hv; simpl; [constructor|].
  apply Forall_cons in Hv as [Hx Hv].
  apply insert_by_name_sorted; [done| |by apply IH].
  constructor; [done|]. by rewrite sort_by_name_perm.
Qed.

Lemma Sorted_le_seq j n : Sorted le (seq j n).
Proof.
  revert j. induction n as [|n IH]; intros j; simpl; [constructor|].
  constructor; [apply IH|]. destruct n; simpl; constructor. lia.
Qed.

(** Sorting the popped references by name lists the nodes in the order
    of the adjacency list. *)
Lemma sort_by_name_seq g s :
  ascending (list_nodes g) = true -> s ≡ₚ seq 0 (length g) ->
  sort_by_name g s = seq 0 (length g).
Proof.
  intros Hasc Hperm. apply (Sorted_unique le).
  - apply sort_by_name_sorted; [done|]. rewrite Hperm.
    apply Forall_forall. intros r Hr%elem_of_seq. lia.
  - apply Sorted_le_seq.
  - by rewrite sort_by_name_perm.
Qed.

Lemma fmap_lookup_total_seq {B} (f : node -> B) g :
  (fun r => f (g !!! r)) <$> seq 0 (length g) = f <$> g.
Proof.
  apply list_eq. intros i. rewrite !list_lookup_fmap.
  destruct (decide (i < length g)%nat) as [Hi|Hi].
  - rewrite lookup_seq_lt by done. simpl.
    by rewrite (list_lookup_lookup_total_lt g i Hi).
  - rewrite lookup_seq_ge by lia. by rewrite lookup_ge_None_2 by lia.
Qed.

(** In a graph with strictly ascending names whose edges point to nodes
    and whose weights convert to a float, [dijkstra] returns, index by
    index in node order, [None] where the final distance is [0] and the
    final scratch values elsewhere. *)
Lemma dijkstra_output g start_node :
  ascending (list_nodes g) = true -> edges_closed g = true ->
  weights_float g = true ->
  exists gf s,
    dijkstra_run g start_node = Ok (gf, s)
    /\ scratch_of g gf
    /\ dijkstra g start_node = Ok (out_distance <$> gf, out_previous <$> gf).
Proof.
  intros Hasc Hc Hf.
  destruct (dijkstra_returns g start_node Hc Hf)
    as (gf & s & Hrun & Hs & Hp & ->).
  exists gf, s. split_and!; [done..|].
  pose proof Hs as (Hn & _ & _).
  rewrite sort_by_name_seq.
  - by rewrite !fmap_lookup_total_seq.
  - by rewrite list_nodes_fmap, Hn, <- list_nodes_fmap.
  - by rewrite (scratch_of_length _ _ Hs).
Qed.

Lemma prim_output g start_node :
  ascending (list_nodes g) = true ->
  exists gf s,
    prim_run g start_node = Ok (gf, s)
    /\ scratch_of g gf
    /\ prim g start_node = Ok (out_distance <$> gf, out_previous <$> gf).
Proof.
  intros Hasc.
  destruct (prim_returns g start_node) as (gf & s & Hrun & Hs & Hp & ->).
  exists gf, s. split_and!; [done..|].
  pose proof Hs as (Hn & _ & _).
  rewrite sort_by_name_seq.
  - by rewrite !fmap_lookup_total_seq.
  - by rewrite list_nodes_fmap, Hn, <- list_nodes_fmap.
  - by rewrite (scratch_of_length _ _ Hs).
Qed.

End AscendingOrder.

(** ** Dijkstra from a name that is not a node *)

Section UnknownStart.

Implicit Types (g : AdjacencyList).

Lemma all_inf_info g r :
  all_inf g -> (r < length g)%nat -> info (g !!! r) = Some (Inf, None).
Proof.
  intros Hall Hr.
  apply (Forall_lookup_1 (fun nd => info nd = Some (Inf, None)) g r);
    [done|]. by apply list_lookup_lookup_total_lt.
Qed.

Lemma all_inf_initial g start_node :
  find_node g start_node = false ->
  all_inf (initial_info start_node <$> g).
Proof.
  intros Hf. apply Forall_fmap, Forall_forall. intros nd Hnd. simpl.
  assert (String.eqb (name nd) start_node = false) as ->; [|done].
  apply String.eqb_neq. intros Heq. apply find_node_false in Hf.
  apply Hf. rewrite list_nodes_fmap, <- Heq. by apply list_elem_of_fmap_2.
Qed.

(** No relaxation fires while every distance is [inf], but the weight is
    added to [inf]. *)
Lemma relax_all_inf g u v w :
  all_inf g -> (u < length g)%nat -> (v < length g)%nat ->
  relax g u (PyNode v) w
  = if Num.float_ok w then Ok g else Raise OverflowError.
Proof.
  intros Hall Hu Hv.
  rewrite (relax_unfold g u v w _ _ _ _ (all_inf_info g v Hall Hv)
             (all_inf_info g u Hall Hu)).
  cbn [Num.add]. by destruct (Num.float_ok w).
Qed.

(** The edge loop of [dijkstra] while every distance is [inf]. *)
Lemma relax_edges_all_inf g0 g u (es : Edge.t) :
  scratch_of g0 g -> (u < length g0)%nat -> all_inf g ->
  forallb (fun e => find_node g0 (Edge.dst e)) es = true ->
  for_each es
    (fun edge g => relax g u (get_node g (Edge.dst edge)) (Edge.weight edge))
    g
  = if forallb (fun e => Num.float_ok (Edge.weight e)) es then Ok g
    else Raise OverflowError.
Proof.
  intros Hs Hu Hall. pose proof (scratch_of_length _ _ Hs) as Hlen.
  pose proof Hs as (Hn & _ & _).
  induction es as [|e es IH]; cbn [forallb for_each]; [done|].
  intros [Hd Hes]%andb_true_iff.
  rewrite <- (find_node_names g g0 _ Hn) in Hd.
  destruct (get_node_member g _ Hd) as (v & -> & Hv).
  rewrite relax_all_inf by (done || lia).
  destruct (Num.float_ok (Edge.weight e)); cbn [mbind result_bind andb];
    [by apply IH|done].
Qed.

Lemma dijkstra_edges_all_inf_outcome g0 g u :
  edges_closed g0 = true -> scratch_of g0 g -> (u < length g0)%nat ->
  all_inf g ->
  dijkstra_edges g u
  = if forallb (fun e => Num.float_ok (Edge.weight e)) (edges (g0 !!! u))
    then Ok g else Raise OverflowError.
Proof.
  intros Hc Hs Hu Hall. unfold dijkstra_edges, list_edges_object.
  rewrite (scratch_of_edges g0 g u Hs Hu).
  apply (relax_edges_all_inf g0); [done..|].
  apply forallb_forall. intros e He.
  by apply (edges_closed_lookup g0 u), list_elem_of_In.
Qed.

Lemma dijkstra_edges_all_inf g0 g u g' :
  scratch_of g0 g -> (u < length g0)%nat -> all_inf g ->
  dijkstra_edges g u = Ok g' -> g' = g.
Proof.
  intros Hs Hu Hall. unfold dijkstra_edges.
  generalize (list_edges_object (g !!! u)). intros es.
  assert (forall g1, g1 = g -> for_each es
            (fun edge g2 => relax g2 u (get_node g2 (Edge.dst edge))
                              (Edge.weight edge)) g1 = Ok g' -> g' = g)
    as Hgen; [|by apply Hgen].
  induction es as [|e es IH]; intros g1 -> Hrun; cbn [for_each] in Hrun.
  - by injection Hrun.
  - pose proof (scratch_of_length _ _ Hs) as Hlen.
    destruct (get_node g (Edge.dst e)) as [v|z] eqn:Hv; [|done].
    rewrite relax_all_inf in Hrun; [|done|lia|].
    + destruct (Num.float_ok (Edge.weight e)); [by apply (IH g)|done].
    + rewrite Hlen. by eapply get_node_valid.
Qed.

(** While every distance is [inf], the [while] loop raises once it pops
    a node that has a weight too large for a float. *)
Lemma dijkstra_loop_all_inf_raises g0 q g s u :
  edges_closed g0 = true -> scratch_of g0 g ->
  Forall (fun r => (r < length g0)%nat) q -> all_inf g -> u ∈ q ->
  forallb (fun e => Num.float_ok (Edge.weight e)) (edges (g0 !!! u)) = false ->
  dijkstra_loop (length q) g q s = Raise OverflowError.
Proof.
  intros Hc Hs Hq Hall Hu Hes. remember (length q) as n eqn:Hn.
  revert q s Hn Hq Hu. induction n as [|n IH]; intros q s Hn Hq Hu.
  - destruct q; [by apply elem_of_nil in Hu|done].
  - destruct q as [|r q']; [done|]. cbn [dijkstra_loop].
    destruct (get_min_node_returns g0 g (r :: q') Hs Hq) as
      (idx & v & -> & Hv); [done|]. cbn [mbind result_bind].
    assert (v < length g0)%nat as Hlt
      by (by eapply (Forall_lookup_1 _ _ _ _ Hq)).
    rewrite (dijkstra_edges_all_inf_outcome g0 g v Hc Hs Hlt Hall).
    destruct (decide (v = u)) as [->|Hne]; [by rewrite Hes|].
    destruct (forallb _ (edges (g0 !!! v))); cbn [mbind result_bind]; [|done].
    apply IH; [|by apply Forall_delete|].
    + rewrite length_delete by eauto. simpl in *. lia.
    + rewrite (delete_Permutation _ _ _ Hv) in Hu.
      apply elem_of_cons in Hu as [->|Hu]; done.
Qed.

End UnknownStart.

(** C10, as stated, fails: in [huge_weight_graph] every edge points to a
    node and ["z"] is not a node, but [relax] adds the weight [2^1024] to
    [inf] and [dijkstra] raises [OverflowError]. *)
Lemma dijkstra_unknown_start_overflow :
  dijkstra huge_weight_graph "z" = Raise OverflowError
  /\ ~ unknown_start_as_claimed huge_weight_graph "z".
Proof.
  assert (dijkstra huge_weight_graph "z" = Raise OverflowError) as Hr
    by (vm_compute; reflexivity).
  split; [done|]. intros H. rewrite H in Hr; done.
Qed.

(** C10, amended: when every edge points to a node and [start_node] is not
    a node, [dijkstra] adds every weight to [inf]: if all weights convert
    to a float it raises nothing and returns [inf] as every distance and
    [None] as every predecessor; if some weight does not, it raises
    [OverflowError]. *)
Theorem dijkstra_unknown_start (g : AdjacencyList) (start_node : string) :
  edges_closed g = true -> find_node g start_node = false ->
  (weights_float g = true ->
   dijkstra g start_node
   = Ok (replicate (length g) (Some Inf), replicate (length g) None))
  /\ (weights_float g = false ->
      dijkstra g start_node = Raise OverflowError).
Proof.
  intros Hc Hf. split.
  - intros Hfl.
    destruct (dijkstra_returns_preserving all_inf g start_node)
      as (gf & s & _ & Hs & Hperm & Hall & ->);
      [|by apply all_inf_initial|done|done|].
    { intros g1 u g2 Hs1 Hu Hall Hrun.
      by rewrite (dijkstra_edges_all_inf g g1 u g2 Hs1 Hu Hall Hrun). }
    pose proof (scratch_of_length _ _ Hs) as Hlen.
    assert (length (sort_by_name gf s) = length g) as Hsl
      by (by rewrite sort_by_name_perm, Hperm, length_seq).
    assert (forall i r, sort_by_name gf s !! i = Some r ->
                        info (gf !!! r) = Some (Inf, None)) as Hinfo.
    { intros i r Hr. apply all_inf_info; [done|].
      apply list_elem_of_lookup_2 in Hr.
      rewrite sort_by_name_perm, Hperm in Hr. apply elem_of_seq in Hr. lia. }
    f_equal. f_equal.
    + rewrite <- Hsl. apply const_fmap. intros i r Hr.
      unfold out_distance. by rewrite (Hinfo i r Hr).
    + rewrite <- Hsl. apply const_fmap. intros i r Hr.
      unfold out_previous. by rewrite (Hinfo i r Hr).
  - intros Hfl. unfold weights_float in Hfl.
    apply forallb_false in Hfl as (u & nd & Hu & Hes).
    assert (u < length g)%nat as Hult by (by eapply lookup_lt_Some).
    unfold dijkstra, dijkstra_run. rewrite init_single_source_spec.
    rewrite (dijkstra_loop_all_inf_raises g (seq 0 (length g)) _ [] u);
      [done|done|apply scratch_of_initial|apply valid_seq| | |].
    + by apply all_inf_initial.
    + apply elem_of_seq. lia.
    + by rewrite (list_lookup_total_correct _ _ _ Hu).
Qed.

Lemma dijkstra_unknown_start_witness :
  edges_closed [Node "a" None [Edge.Cell "b" 1]; Node "b" None []] = true
  /\ find_node [Node "a" None [Edge.Cell "b" 1]; Node "b" None []] "z" = false
  /\ dijkstra [Node "a" None [Edge.Cell "b" 1]; Node "b" None []] "z"
     = Ok ([Some Inf; Some Inf], [None; None]).
Proof.
  split; [reflexivity|]. split; [reflexivity|].
  apply (dijkstra_unknown_start
           [Node "a" None [Edge.Cell "b" 1]; Node "b" None []] "z");
    reflexivity.
Defined.

(** ** Dijkstra: the start node and the distance [0] *)

(** [get_output] takes "the distance is [0]" for "this is the start node";
    the docstring of [dijkstra] asks for [None] at the start node only and
    for the minimal cost at every other index. *)

(** C2 (fails on the code): the entries are claimed to be [None] exactly
    at the index of the start node.  On the graph [a -> b (0)] with start
    [a], node [b] ends with the scratch value [(0, "a")], and [dijkstra]
    returns [None] for it in both arrays, as it does for [a]. *)
Theorem dijkstra_zero_distance_reported_as_none :
  build ["a"; "b"] [("a", "b", 0)] = Ok zero_weight_graph
  /\ well_formed zero_weight_graph = true
  /\ edges_closed zero_weight_graph = true
  /\ find_node zero_weight_graph "a" = true
  /\ (exists gf s,
         dijkstra_run zero_weight_graph "a" = Ok (gf, s)
         /\ list_nodes gf = ["a"; "b"]
         /\ info <$> gf = [Some (Fin 0, None); Some (Fin 0, Some "a")])
  /\ dijkstra zero_weight_graph "a" = Ok ([None; None], [None; None]).
Proof.
  split_and!; try reflexivity.
  eexists _, _. split_and!; reflexivity.
Qed.

(** The scenario of the specification: [a -> b (1)], [a -> c (2)],
    [b -> c (2)], start [a]. *)
Example dijkstra_scenario_output :
  (g ← dijkstra_scenario; dijkstra g "a")
  = Ok ([None; Some (Fin 1); Some (Fin 2)], [None; Some "a"; Some "a"]).
Proof. reflexivity. Qed.

(** ** Dijkstra with positive weights *)

Section PositiveWeights.

Variable g0 : AdjacencyList.
Variable start_node : string.
Hypothesis positive : weights_positive g0 = true.

Implicit Types (g : AdjacencyList).

Lemma start_marked_initial :
  start_marked start_node (initial_info start_node <$> g0).
Proof.
  apply Forall_fmap, Forall_true. intros nd. simpl.
  by destruct (String.eqb (name nd) start_node).
Qed.

Lemma start_marked_info g r :
  start_marked start_node g -> (r < length g)%nat ->
  exists x p, info (g !!! r) = Some (x, p)
              /\ if String.eqb (name (g !!! r)) start_node then x = Fin 0
                 else Num.ltb (Fin 0) x = true.
Proof.
  intros Hm Hr. unfold start_marked in Hm. rewrite Forall_lookup in Hm.
  specialize (Hm r _ (list_lookup_lookup_total_lt g r Hr)).
  destruct (info (g !!! r)) as [[x p]|]; [eauto|done].
Qed.

Lemma relax_length g u v w g' : relax g u v w = Ok g' -> length g' = length g.
Proof.
  unfold relax. destruct v as [v|z]; [|done].
  destruct (info0 (g !!! v)) as [dv| |]; [|done..].
  destruct (info0 (g !!! u)) as [du| |]; [|done..].
  cbn [mbind result_bind].
  destruct (Num.add du (Fin w)) as [through|e|]; cbn [mbind result_bind];
    [|done..].
  destruct (Num.ltb _ _); intros [= <-]; [|done].
  unfold store_info. by rewrite length_alter.
Qed.

(** A relaxation along an edge of positive weight writes a positive
    distance, and never into a node called [start_node]. *)
Lemma relax_start_marked g u v w g' :
  start_marked start_node g -> (u < length g)%nat -> 0 < w ->
  relax g u v w = Ok g' -> start_marked start_node g'.
Proof.
  intros Hm Hu Hw. unfold relax. destruct v as [v|z]; [|done].
  destruct (info0 (g !!! v)) as [dv| |] eqn:Hdv; [|done..].
  destruct (info0 (g !!! u)) as [du| |] eqn:Hdu; [|done..].
  cbn [mbind result_bind].
  destruct (Num.add du (Fin w)) as [through|e|] eqn:Hsum;
    cbn [mbind result_bind]; [|done..].
  apply num_add_ok in Hsum. subst through.
  destruct (Num.ltb (Num.sum du (Fin w)) dv) eqn:Hlt; intros [= <-]; [|done].
  destruct (decide (v < length g)%nat) as [Hv|Hv].
  2: { rewrite list_lookup_total_alt, lookup_ge_None_2 in Hdv by lia. done. }
  destruct (start_marked_info g u Hm Hu) as (xu & pu & Hiu & Hxu).
  destruct (start_marked_info g v Hm Hv) as (xv & pv & Hiv & Hxv).
  rewrite (info0_eq _ _ _ Hiu) in Hdu. injection Hdu as <-.
  rewrite (info0_eq _ _ _ Hiv) in Hdv. injection Hdv as <-.
  assert (Num.ltb (Fin 0) (Num.sum xu (Fin w)) = true) as Hpos.
  { destruct (String.eqb (name (g !!! u)) start_node).
    - subst xu. simpl. apply Z.ltb_lt. lia.
    - destruct xu as [a|]; [|done]. simpl in *.
      apply Z.ltb_lt in Hxu. apply Z.ltb_lt. lia. }
  unfold store_info. apply Forall_alter; [done|].
  intros nd Hnd. rewrite (list_lookup_total_correct _ _ _ Hnd) in *.
  simpl. destruct (String.eqb (name nd) start_node); [|done].
  subst xv. destruct (Num.sum xu (Fin w)) as [a|]; [|done].
  simpl in *. apply Z.ltb_lt in Hlt, Hpos. lia.
Qed.

Lemma dijkstra_edges_start_marked g u g' :
  scratch_of g0 g -> (u < length g0)%nat -> start_marked start_node g ->
  dijkstra_edges g u = Ok g' -> start_marked start_node g'.
Proof.
  intros Hs Hu Hm. unfold dijkstra_edges, list_edges_object.
  assert (Forall (fun e => 0 < Edge.weight e) (edges (g !!! u))) as Hes.
  { rewrite (scratch_of_edges g0 g u Hs Hu). apply Forall_forall.
    intros e He. unfold weights_positive in positive.
    rewrite forallb_forall in positive.
    specialize (positive (g0 !!! u)). rewrite forallb_forall in positive.
    apply Z.ltb_lt. apply positive; [|by apply list_elem_of_In].
    apply list_elem_of_In. eapply list_elem_of_lookup_2.
    by apply list_lookup_lookup_total_lt. }
  revert Hes. generalize (edges (g !!! u)). intros es Hes.
  assert (length g = length g0) as Hlen by (by apply scratch_of_length).
  clear Hs. revert g Hm Hlen.
  induction es as [|e es IH]; intros g Hm Hlen; simpl.
  - by intros [= <-].
  - apply Forall_cons in Hes as [He Hes].
    destruct (relax g u (get_node g (Edge.dst e)) (Edge.weight e))
      as [g1| |] eqn:Hrelax; [|done..].
    cbn [mbind result_bind]. apply IH; [done| |].
    + apply (relax_start_marked g u (get_node g (Edge.dst e))
               (Edge.weight e) g1 Hm); [lia|done|done].
    + by rewrite (relax_length _ _ _ _ _ Hrelax).
Qed.

End PositiveWeights.

(** With strictly ascending names, edges that point to nodes and positive
    weights that convert to a float, the arrays of [dijkstra] hold [None]
    at the start node and the final scratch values at every other index. *)
Lemma dijkstra_positive_weights (g : AdjacencyList) (start_node : string) :
  ascending (list_nodes g) = true -> edges_closed g = true ->
  weights_positive g = true -> weights_float g = true ->
  exists gf s,
    dijkstra_run g start_node = Ok (gf, s)
    /\ list_nodes gf = list_nodes g
    /\ dijkstra g start_node = Ok (out_distance <$> gf, out_previous <$> gf)
    /\ forall i nd, gf !! i = Some nd ->
         exists x p,
           info nd = Some (x, p)
           /\ if String.eqb (name nd) start_node
              then out_distance nd = None /\ out_previous nd = None
              else out_distance nd = Some x /\ out_previous nd = p.
Proof.
  intros Hasc Hc Hpos Hfl.
  destruct (dijkstra_returns_preserving (start_marked start_node) g start_node)
    as (gf & s & Hrun & Hs & Hperm & Hm & Hout); [| |done|done|].
  { intros g1 u g2 Hs1 Hu Hm1 Hrun.
    by apply (dijkstra_edges_start_marked g start_node Hpos g1 u g2). }
  { apply start_marked_initial. }
  pose proof Hs as (Hn & _ & _).
  exists gf, s. split_and!; [done|by rewrite !list_nodes_fmap| |].
  - rewrite Hout, sort_by_name_seq.
    + by rewrite !fmap_lookup_total_seq.
    + by rewrite list_nodes_fmap, Hn, <- list_nodes_fmap.
    + by rewrite (scratch_of_length _ _ Hs).
  - intros i nd Hnd. unfold start_marked in Hm. rewrite Forall_lookup in Hm.
    specialize (Hm i nd Hnd). unfold out_distance, out_previous.
    destruct (info nd) as [[x p]|]; [|done]. exists x, p. split; [done|].
    destruct (String.eqb (name nd) start_node).
    + by subst x.
    + destruct x as [z|]; [|done]. simpl in *.
      apply Z.ltb_lt in Hm. by rewrite (proj2 (Z.eqb_neq z 0)) by lia.
Qed.

(** ** Prim: the relaxation rule *)

Section Prim.

Implicit Types (g : AdjacencyList) (q : list nat).

Lemma store_info_lookup g v i r :
  (v < length g)%nat ->
  store_info g v i !!! r
  = if decide (r = v) then set_info (g !!! v) i else g !!! r.
Proof.
  intros Hv. unfold store_info. destruct (decide (r = v)) as [->|Hne].
  - by rewrite list_lookup_total_alter_eq.
  - by rewrite list_lookup_total_alter_ne.
Qed.

Lemma get_node_lt g d v : get_node g d = PyNode v -> (v < length g)%nat.
Proof.
  intros Hv. pose proof (get_node_spec g d) as H. rewrite Hv in H.
  destruct H as (_ & Hr & _). apply lookup_lt_is_Some.
  destruct (g !! v); [eauto|done].
Qed.

End Prim.

(** C5: scanning the edge [u -> v] of weight [w], [prim] sets
    [lowcost(v) = w] and [closest(v) = u] exactly when [v] is still in the
    working set and [w < lowcost(v)]; the cost of [u] is not added, and
    nothing else in the store changes.  [prim] returns on every graph, and
    on the triangle [a-b (1)], [a-c (3)], [b-c (1)] with start [a] it
    returns lowcost [[None, 1, 1]] and closest [[None, "a", "b"]]. *)
Theorem prim_relaxation_rule :
  (forall (g : AdjacencyList) (q : list nat) (u : nat) (e : Edge.cell)
          (v : nat) (lv : num) (pv : option string),
      get_node g (Edge.dst e) = PyNode v ->
      info (g !!! v) = Some (lv, pv) ->
      exists g',
        prim_scan q u e g = Ok g'
        /\ if decide (v ∈ q /\ Num.ltb (Fin (Edge.weight e)) lv = true)
           then info (g' !!! v)
                = Some (Fin (Edge.weight e), Some (name (g !!! u)))
                /\ name (g' !!! v) = name (g !!! v)
                /\ edges (g' !!! v) = edges (g !!! v)
                /\ length g' = length g
                /\ forall r, r <> v -> g' !!! r = g !!! r
           else g' = g)
  /\ (forall (g : AdjacencyList) (start_node : string),
        exists lowcost closest,
          prim g start_node = Ok (lowcost, closest)
          /\ length lowcost = length g /\ length closest = length g)
  /\ (g ← prim_scenario; prim g "a")
     = Ok ([None; Some (Fin 1); Some (Fin 1)], [None; Some "a"; Some "b"]).
Proof.
  split_and!; [| |reflexivity].
  - intros g q u e v lv pv Hv Hlv. unfold prim_scan. rewrite Hv.
    pose proof (get_node_lt _ _ _ Hv) as Hlt.
    destruct (decide (v ∈ q)) as [Hin|Hin].
    + rewrite bool_decide_eq_true_2 by done.
      rewrite (info0_eq _ _ _ Hlv). cbn [mbind result_bind].
      destruct (Num.ltb (Fin (Edge.weight e)) lv) eqn:Hw.
      * eexists. split; [done|]. rewrite decide_True by done.
        rewrite store_info_lookup, decide_True by done.
        split_and!; [done..| |].
        -- unfold store_info. apply length_alter.
        -- intros r Hr. by rewrite store_info_lookup, decide_False by done.
      * exists g. split; [done|]. rewrite decide_False; [done|].
        intros [_ ?]. done.
    + rewrite bool_decide_eq_false_2 by done. exists g. split; [done|].
      rewrite decide_False; [done|]. by intros [? _].
  - intros g start_node.
    destruct (prim_returns g start_node) as (gf & s & _ & _ & Hp & ->).
    eexists _, _. split; [done|].
    by rewrite !length_fmap, sort_by_name_perm, Hp, length_seq.
Qed.

(** ** Floyd: costs of walks *)

Section NumOrder.

Implicit Types (x y z : num).

Lemma num_le_refl x : Num.le x x.
Proof. destruct x; unfold Num.le; simpl; [apply Z.ltb_irrefl|done]. Qed.

Lemma num_le_inf x : Num.le x Inf.
Proof. by destruct x. Qed.

Lemma num_inf_le x : Num.le Inf x -> x = Inf.
Proof. by destruct x. Qed.

Lemma num_le_fin (a b : Z) : Num.le (Fin a) (Fin b) <-> a <= b.
Proof. unfold Num.le. simpl. rewrite Z.ltb_ge. done. Qed.

Lemma num_le_trans x y z : Num.le x y -> Num.le y z -> Num.le x z.
Proof.
  destruct x as [a|], y as [b|], z as [c|]; try done.
  rewrite !num_le_fin. lia.
Qed.

Lemma num_le_antisym x y : Num.le x y -> Num.le y x -> x = y.
Proof.
  destruct x as [a|], y as [b|]; try done.
  rewrite !num_le_fin. intros. f_equal. lia.
Qed.

Lemma num_sum_mono x x' y y' :
  Num.le x x' -> Num.le y y' -> Num.le (Num.sum x y) (Num.sum x' y').
Proof.
  destruct x as [a|], x' as [a'|], y as [b|], y' as [b'|]; try done.
  simpl. rewrite !num_le_fin. lia.
Qed.

Lemma num_sum_nonneg x y :
  Num.le (Fin 0) x -> Num.le (Fin 0) y -> Num.le (Fin 0) (Num.sum x y).
Proof. intros Hx Hy. apply (num_sum_mono (Fin 0) x (Fin 0) y Hx Hy). Qed.

Lemma num_sum_0_l x : Num.sum (Fin 0) x = x.
Proof. by destruct x. Qed.

Lemma num_sum_0_r x : Num.sum x (Fin 0) = x.
Proof. destruct x; simpl; [|done]. f_equal. lia. Qed.

Lemma num_sum_inf_r x : Num.sum x Inf = Inf.
Proof. by destruct x. Qed.

Lemma num_sum_assoc x y z :
  Num.sum x (Num.sum y z) = Num.sum (Num.sum x y) z.
Proof. destruct x, y, z; simpl; try done. f_equal. lia. Qed.

Lemma num_min_le_l x y : Num.le (Num.min x y) x.
Proof.
  unfold Num.min. destruct (Num.ltb y x) eqn:H; [|apply num_le_refl].
  destruct x as [a|], y as [b|]; try done.
  simpl in H. apply num_le_fin. apply Z.ltb_lt in H. lia.
Qed.

Lemma num_min_le_r x y : Num.le (Num.min x y) y.
Proof.
  unfold Num.min. destruct (Num.ltb y x) eqn:H; [apply num_le_refl|done].
Qed.

Lemma num_min_cases x y : Num.min x y = x \/ Num.min x y = y.
Proof. unfold Num.min. destruct (Num.ltb y x); auto. Qed.

Lemma num_is_inf_true x : Num.is_inf x = true <-> x = Inf.
Proof. by destruct x. Qed.

End NumOrder.

Section Walks.

Variable g : AdjacencyList.

Lemma walk_cost_app i l1 k l2 j :
  walk_cost g i (l1 ++ k :: l2) j
  = Num.sum (walk_cost g i l1 k) (walk_cost g k l2 j).
Proof.
  revert i. induction l1 as [|v l1 IH]; intros i; simpl; [done|].
  by rewrite IH, num_sum_assoc.
Qed.

Lemma edge_cost_out_of_range_r i j :
  (length g <= j)%nat -> edge_cost g i j = Inf.
Proof.
  intros Hj. unfold edge_cost. rewrite (lookup_ge_None_2 g j Hj).
  by destruct (g !! i).
Qed.

(** A walk through a position that is not a node has no cost. *)
Lemma walk_cost_out_of_range i mid j :
  ~ Forall (fun v => (v < length g)%nat) mid -> walk_cost g i mid j = Inf.
Proof.
  revert i. induction mid as [|v mid IH]; intros i Hmid; simpl.
  - destruct Hmid. constructor.
  - destruct (decide (v < length g)%nat) as [Hv|Hv].
    + rewrite IH; [apply num_sum_inf_r|]. intros H. apply Hmid. by constructor.
    + rewrite edge_cost_out_of_range_r by lia. done.
Qed.

Hypothesis nonneg : weights_nonneg g = true.

Lemma edge_lookup_nonneg (es : Edge.t) d :
  forallb (fun e => 0 <=? Edge.weight e) es = true ->
  Num.le (Fin 0) (edge_lookup es d).
Proof.
  induction es as [|e es IH]; simpl; [done|].
  intros [He Hes]%andb_true_iff. destruct (String.eqb d (Edge.dst e)); [|auto].
  apply num_le_fin. by apply Z.leb_le.
Qed.

Lemma edge_cost_nonneg i j : Num.le (Fin 0) (edge_cost g i j).
Proof.
  unfold edge_cost. destruct (g !! i) as [a|] eqn:Ha; [|done].
  destruct (g !! j) as [b|]; [|done]. apply edge_lookup_nonneg.
  unfold weights_nonneg in nonneg. rewrite forallb_forall in nonneg.
  apply nonneg. apply list_elem_of_In. by eapply list_elem_of_lookup_2.
Qed.

Lemma walk_cost_nonneg i mid j : Num.le (Fin 0) (walk_cost g i mid j).
Proof.
  revert i. induction mid as [|v mid IH]; intros i; simpl.
  - apply edge_cost_nonneg.
  - apply num_sum_nonneg; [apply edge_cost_nonneg|apply IH].
Qed.

End Walks.

Section InitialMatrix.

Implicit Types (g : AdjacencyList) (es : Edge.t) (m : matrix num).

Lemma ascending_NoDup (l : list string) : ascending l = true -> NoDup l.
Proof.
  induction l as [|x l IH]; [constructor|].
  intros [Hall Hl]%ascending_cons. constructor; [|by apply IH].
  intros Hin. rewrite Forall_forall in Hall.
  specialize (Hall x Hin). by rewrite ltb_irrefl in Hall.
Qed.

Lemma edge_lookup_notin es d :
  d ∉ Edge.dst <$> es -> edge_lookup es d = Inf.
Proof.
  induction es as [|e es IH]; [done|].
  rewrite fmap_cons, not_elem_of_cons. cbn [edge_lookup]. intros [Hne Hnin].
  destruct (String.eqb_spec d (Edge.dst e)); [done|by apply IH].
Qed.

Lemma edge_lookup_app es1 es2 d :
  edge_lookup (es1 ++ es2) d
  = if Num.is_inf (edge_lookup es1 d) then edge_lookup es2 d
    else edge_lookup es1 d.
Proof.
  induction es1 as [|e es1 IH]; simpl; [done|].
  by destruct (String.eqb d (Edge.dst e)).
Qed.

Lemma name_position g b r d :
  ascending (list_nodes g) = true ->
  name <$> g !! b = Some d -> name <$> g !! r = Some d -> b = r.
Proof.
  intros Hasc Hb Hr. apply ascending_NoDup in Hasc.
  rewrite list_nodes_fmap in Hasc.
  eapply (NoDup_lookup (name <$> g)); [done| |]; by rewrite list_lookup_fmap.
Qed.

(** The edge loop for the node at position [i]: the cells of row [i] that
    belong to a destination receive the weight, all others stay. *)
Lemma add_row_spec g n es i m :
  length g = n -> ascending (list_nodes g) = true -> (i < n)%nat -> sq n m ->
  ascending (Edge.dst <$> es) = true ->
  forallb (fun e => find_node g (Edge.dst e)) es = true ->
  exists m',
    for_each es
      (fun e m =>
         dst_index ← find_dst_index g (Edge.dst e);
         mat_set m i dst_index (Fin (Edge.weight e))) m = Ok m'
    /\ sq n m'
    /\ forall a b, (b < n)%nat ->
         cell_at m' a b =
         if decide (a = i)
         then if Num.is_inf (edge_lookup es (name (g !!! b)))
              then cell_at m a b
              else Some (edge_lookup es (name (g !!! b)))
         else cell_at m a b.
Proof.
  intros Hn Hasc Hi Hsq Hes Hc.
  apply (for_each_inv (fun pre m1 =>
    sq n m1 /\ forall a b, (b < n)%nat ->
      cell_at m1 a b =
      if decide (a = i)
      then if Num.is_inf (edge_lookup pre (name (g !!! b)))
           then cell_at m a b
           else Some (edge_lookup pre (name (g !!! b)))
      else cell_at m a b)).
  { split; [done|]. intros a b _. simpl. by destruct (decide (a = i)). }
  intros pre e rest m1 Heq [Hsq1 Hm1]. subst es.
  rewrite forallb_app in Hc. apply andb_true_iff in Hc as [_ Hc].
  simpl in Hc. apply andb_true_iff in Hc as [He _].
  destruct (find_dst_index_member g _ He) as (r & -> & Hr & Hname).
  cbn [mbind result_bind].
  destruct (mat_set_sq n m1 i r (Fin (Edge.weight e))) as (m2 & -> & Hsq2 & Hm2);
    [done|done|lia|].
  exists m2. split; [done|]. split; [done|].
  intros a b Hb. rewrite Hm2, (Hm1 a b Hb).
  destruct (decide (a = i)) as [->|Hne];
    [|by rewrite decide_False by (by intros [? _])].
  rewrite edge_lookup_app. simpl.
  assert (Edge.dst e ∉ Edge.dst <$> pre) as Hfresh.
  { apply ascending_NoDup in Hes. rewrite fmap_app, fmap_cons in Hes.
    apply NoDup_app in Hes as (_ & Hes & _). intros Hin.
    apply (Hes _ Hin). by left. }
  destruct (decide (b = r)) as [->|Hbr].
  - rewrite decide_True by done.
    assert (name (g !!! r) = Edge.dst e) as ->.
    { destruct (g !! r) as [nd|] eqn:Hnd; [|done].
      rewrite (list_lookup_total_correct _ _ _ Hnd). by injection Hname. }
    by rewrite (edge_lookup_notin pre _ Hfresh), String.eqb_refl.
  - rewrite decide_False by (by intros [_ ?]).
    assert (String.eqb (name (g !!! b)) (Edge.dst e) = false) as ->.
    { apply String.eqb_neq. intros Heq. apply Hbr.
      apply (name_position g b r (Edge.dst e)); [done| |done].
      rewrite (list_lookup_lookup_total_lt g b) by lia. simpl. by rewrite Heq. }
    by destruct (edge_lookup pre (name (g !!! b))).
Qed.

Lemma add_rows_spec g n :
  length g = n -> well_formed g = true -> edges_closed g = true ->
  forall rest i m,
    drop i g = rest -> sq n m ->
    (forall a b, (a < n)%nat -> (b < n)%nat ->
       cell_at m a b = Some (if decide (a < i)%nat then edge_cost g a b else Inf)) ->
    exists m', add_rows g rest i m = Ok m' /\ sq n m'
               /\ forall a b, (a < n)%nat -> (b < n)%nat ->
                    cell_at m' a b = Some (edge_cost g a b).
Proof.
  intros Hn Hwf Hc. unfold well_formed in Hwf.
  apply andb_true_iff in Hwf as [Hasc Hes].
  rewrite forallb_forall in Hes. unfold edges_closed in Hc.
  rewrite forallb_forall in Hc.
  induction rest as [|hd tl IH]; intros i m Hdrop Hsq Hm; simpl.
  - exists m. split; [done|]. split; [done|]. intros a b Ha Hb.
    rewrite (Hm a b Ha Hb). rewrite decide_True; [done|].
    apply (f_equal length) in Hdrop. rewrite length_drop in Hdrop.
    simpl in Hdrop. lia.
  - assert (g !! i = Some hd) as Hhd.
    { rewrite <- (Nat.add_0_r i), <- lookup_drop, Hdrop. done. }
    assert (i < n)%nat as Hi by (rewrite <- Hn; by eapply lookup_lt_Some).
    assert (In hd g) as Hin
      by (apply list_elem_of_In; by eapply list_elem_of_lookup_2).
    destruct (add_row_spec g n (edges hd) i m) as (m1 & -> & Hsq1 & Hm1);
      [done..|by apply Hes|by apply Hc|].
    cbn [mbind result_bind]. apply IH; [|done|].
    + rewrite Nat.add_1_r. rewrite (drop_S g hd i Hhd) in Hdrop.
      by injection Hdrop.
    + intros a b Ha Hb. rewrite (Hm1 a b Hb), (Hm a b Ha Hb).
      destruct (decide (a = i)) as [->|Hne].
      * rewrite decide_False by lia. rewrite decide_True by lia.
        assert (edge_cost g i b = edge_lookup (edges hd) (name (g !!! b)))
          as ->.
        { unfold edge_cost. rewrite Hhd.
          by rewrite (list_lookup_lookup_total_lt g b) by lia. }
        by destruct (edge_lookup (edges hd) (name (g !!! b))).
      * destruct (decide (a < i)%nat).
        -- by rewrite decide_True by lia.
        -- by rewrite decide_False by lia.
Qed.

(** The matrix [floyd] starts from holds the weight of the edge [i -> j]
    in the cell [(i, j)], and [inf] where there is no such edge. *)
Lemma add_list_to_matrix_spec g :
  well_formed g = true -> edges_closed g = true ->
  exists m, add_list_to_matrix g (inf_matrix (length g)) = Ok m
            /\ sq (length g) m
            /\ forall a b, (a < length g)%nat -> (b < length g)%nat ->
                 cell m a b = edge_cost g a b.
Proof.
  intros Hwf Hc.
  destruct (add_rows_spec g (length g) eq_refl Hwf Hc g 0%nat
              (inf_matrix (length g))) as (m & Hm & Hsq & Hcells).
  - done.
  - apply sq_inf_matrix.
  - intros a b Ha Hb. rewrite cell_at_inf_matrix by done.
    by rewrite decide_False by lia.
  - exists m. split; [done|]. split; [done|]. intros a b Ha Hb.
    apply cell_of_cell_at. by apply Hcells.
Qed.

End InitialMatrix.

(** ** Floyd: the matrix holds the least costs *)

Section FloydCorrect.

Variable g : AdjacencyList.
Hypothesis nonneg : weights_nonneg g = true.
Hypothesis in_range : costs_float g = true.

Implicit Types (m A B : matrix num) (i j k : nat).

Lemma reached_nonneg i j x : reached g i j x -> Num.le (Fin 0) x.
Proof.
  intros [->|[[mid <-]|(_ & _ & ->)]]; [done| |done].
  by apply walk_cost_nonneg.
Qed.

(** Two costs that meet at [k] add up to a cost from [i] to [j]. *)
Lemma reached_concat i k j x y :
  reached g i k x -> reached g k j y -> reached g i j (Num.sum x y).
Proof.
  intros [->|[[l1 <-]|(-> & Hk & ->)]]; [by left| |].
  - intros [->|[[l2 <-]|(-> & Hj & ->)]].
    + left. apply num_sum_inf_r.
    + right. left. exists (l1 ++ k :: l2). apply walk_cost_app.
    + right. left. exists l1. by rewrite num_sum_0_r.
  - rewrite num_sum_0_l. done.
Qed.

Lemma complete_upper k m i j :
  complete g k m -> (i < length g)%nat -> (j < length g)%nat ->
  Num.le (cell m i j) (edge_cost g i j).
Proof. intros Hc Hi Hj. by apply (Hc i j []). Qed.

Lemma complete_below k A m : complete g k A -> below m A -> complete g k m.
Proof.
  intros Hc Hb i j mid Hi Hj Hmid.
  eapply num_le_trans; [apply Hb|by apply Hc].
Qed.

Lemma floyd_value_reached k0 k i j m :
  sound g m -> complete g k0 m ->
  (k < length g)%nat -> (i < length g)%nat -> (j < length g)%nat ->
  reached g i j (floyd_value k i j m).
Proof.
  intros Hs Hc Hk Hi Hj. unfold floyd_value.
  destruct (Nat.eqb_spec i j) as [->|Hne]; simpl.
  - destruct (Num.is_inf (cell m j j)) eqn:Hinf.
    + right. right. split_and!; [done| |done].
      apply num_is_inf_true in Hinf.
      pose proof (complete_upper k0 m j j Hc Hj Hj) as Hup.
      rewrite Hinf in Hup. by apply num_inf_le.
    + destruct (num_min_cases (cell m j j)
                  (Num.sum (cell m j k) (cell m k j))) as [-> | ->];
        [by apply Hs|apply (reached_concat j k j); by apply Hs].
  - destruct (num_min_cases (cell m i j)
                (Num.sum (cell m i k) (cell m k j))) as [-> | ->];
      [by apply Hs|apply (reached_concat i k j); by apply Hs].
Qed.

Lemma floyd_value_below k i j m : Num.le (floyd_value k i j m) (cell m i j).
Proof.
  unfold floyd_value.
  destruct ((i =? j)%nat && Num.is_inf (cell m i j)) eqn:H.
  - apply andb_true_iff in H as [_ ->%num_is_inf_true]. done.
  - apply num_min_le_l.
Qed.

Lemma floyd_value_bound k i j m :
  sound g m ->
  (k < length g)%nat -> (i < length g)%nat -> (j < length g)%nat ->
  Num.le (floyd_value k i j m) (Num.sum (cell m i k) (cell m k j)).
Proof.
  intros Hs Hk Hi Hj. unfold floyd_value.
  destruct ((i =? j)%nat && Num.is_inf (cell m i j)).
  - apply num_sum_nonneg; eapply reached_nonneg; by apply Hs.
  - apply num_min_le_r.
Qed.

Lemma floyd_value_diag k i m :
  cell m i i = Inf -> floyd_value k i i m = Fin 0.
Proof. intros H. unfold floyd_value. by rewrite Nat.eqb_refl, H. Qed.

Lemma pass_inv_ext k A (v1 v2 : nat -> nat -> Prop) m :
  (forall a b, (a < length g)%nat -> (b < length g)%nat -> v1 a b <-> v2 a b) ->
  pass_inv g k A v1 m -> pass_inv g k A v2 m.
Proof.
  intros Hv (Hsq & Hs & Hb & Hbound & Hframe & Hdiag).
  split_and!; [done..| | |].
  - intros a b Ha Hb' H2. apply Hbound; [done..|]. by apply Hv.
  - intros a b Ha Hb' H2. apply Hframe; [done..|]. intros H1. apply H2.
    by apply Hv.
  - intros a Ha H2. apply Hdiag; [done|]. by apply Hv.
Qed.

(** One turn of the loop keeps the state of the pass. *)
Lemma pass_step k A (visited : nat -> nat -> Prop) m i j m' :
  (k < length g)%nat -> (i < length g)%nat -> (j < length g)%nat ->
  complete g k A -> diag_pending g A ->
  pass_inv g k A visited m -> ~ visited i j ->
  sq (length g) m' ->
  (forall a b, cell m' a b =
               if decide (a = i /\ b = j) then floyd_value k i j m
               else cell m a b) ->
  pass_inv g k A (fun a b => visited a b \/ (a = i /\ b = j)) m'.
Proof.
  intros Hk Hi Hj HcA HdA (Hsq & Hs & Hb & Hbound & Hframe & Hdiag)
    Hnv Hsq' Hcell.
  pose proof (complete_below k A m HcA Hb) as Hcm.
  split_and!; [done| | | | |].
  - intros a b Ha Hb'. rewrite Hcell. case_decide as Hab.
    + destruct Hab as [-> ->]. by apply (floyd_value_reached k).
    + by apply Hs.
  - intros a b. rewrite Hcell. case_decide as Hab; [|apply Hb].
    destruct Hab as [-> ->].
    eapply num_le_trans; [apply floyd_value_below|apply Hb].
  - intros a b Ha Hb' Hv. rewrite Hcell. case_decide as Hab.
    + destruct Hab as [-> ->].
      eapply num_le_trans; [by apply floyd_value_bound|].
      apply num_sum_mono; apply Hb.
    + apply Hbound; [done..|]. by destruct Hv.
  - intros a b Ha Hb' Hv. rewrite Hcell. case_decide as Hab.
    + destruct Hv. by right.
    + apply Hframe; [done..|]. intros H. apply Hv. by left.
  - intros a Ha Hv Hnsl. rewrite Hcell. case_decide as Hab.
    + destruct Hab as [-> <-].
      pose proof (Hframe i i Hi Hi Hnv) as Hii.
      destruct (HdA i Hi Hnsl) as [Hinf|Hle].
      * rewrite floyd_value_diag; [done|]. by rewrite Hii.
      * eapply num_le_trans; [apply floyd_value_below|]. by rewrite Hii.
    + apply Hdiag; [done| |done]. by destruct Hv.
Qed.

Lemma cell_after_step k i j m m' :
  (forall a b, cell_at m' a b =
               if decide (a = i /\ b = j) then Some (floyd_value k i j m)
               else cell_at m a b) ->
  forall a b, cell m' a b =
              if decide (a = i /\ b = j) then floyd_value k i j m
              else cell m a b.
Proof. intros H a b. unfold cell. rewrite H. by case_decide. Qed.

(** A walk whose inner nodes are at most [k] either avoids [k] or splits
    at its first visit of [k]. *)
Lemma split_at_first k (mid : list nat) :
  Forall (fun v => (v < S k)%nat) mid ->
  Forall (fun v => (v < k)%nat) mid
  \/ exists l1 l2, mid = l1 ++ k :: l2
                   /\ Forall (fun v => (v < k)%nat) l1
                   /\ Forall (fun v => (v < S k)%nat) l2.
Proof.
  induction mid as [|v mid IH]; intros Hmid; [by left|].
  apply Forall_cons in Hmid as [Hv Hmid].
  destruct (decide (v = k)) as [->|Hne].
  - right. exists [], mid. by split_and!.
  - destruct (IH Hmid) as [Hall|(l1 & l2 & -> & H1 & H2)].
    + left. constructor; [lia|done].
    + right. exists (v :: l1), l2. split_and!; [done| |done].
      constructor; [lia|done].
Qed.

(** From [k] onwards, visiting [k] again does not pay. *)
Lemma tail_bound k A j :
  complete g k A -> (k < length g)%nat -> (j < length g)%nat ->
  forall len mid, (length mid <= len)%nat ->
                  Forall (fun v => (v < S k)%nat) mid ->
                  Num.le (cell A k j) (walk_cost g k mid j).
Proof.
  intros Hc Hk Hj. induction len as [|len IH]; intros mid Hlen Hmid.
  - destruct mid; [|simpl in Hlen; lia]. by apply (Hc k j []).
  - destruct (split_at_first k mid Hmid) as [Hall|(l1 & l2 & -> & H1 & H2)].
    + by apply Hc.
    + rewrite walk_cost_app.
      eapply num_le_trans; [apply (IH l2); [|done]|].
      * rewrite length_app in Hlen. simpl in Hlen. lia.
      * rewrite <- (num_sum_0_l (walk_cost g k l2 j)) at 1.
        apply num_sum_mono; [by apply walk_cost_nonneg|apply num_le_refl].
Qed.

Lemma complete_next k A B :
  (k < length g)%nat -> complete g k A -> below B A ->
  (forall i j, (i < length g)%nat -> (j < length g)%nat ->
     Num.le (cell B i j) (Num.sum (cell A i k) (cell A k j))) ->
  complete g (S k) B.
Proof.
  intros Hk Hc Hb Hbound i j mid Hi Hj Hmid.
  destruct (split_at_first k mid Hmid) as [Hall|(l1 & l2 & -> & H1 & H2)].
  - eapply num_le_trans; [apply Hb|by apply Hc].
  - rewrite walk_cost_app.
    eapply num_le_trans; [by apply Hbound|].
    apply num_sum_mono; [by apply Hc|].
    by apply (tail_bound k A j Hc Hk Hj (length l2)).
Qed.

(** *** The costs stay in the range of floats *)

Lemma edges_max_cons (e : Edge.cell) (es : Edge.t) :
  edges_max (e :: es) = Z.max (Edge.weight e) (edges_max es).
Proof. done. Qed.

Lemma max_weight_cons (nd : node) (g1 : AdjacencyList) :
  max_weight (nd :: g1) = Z.max (edges_max (edges nd)) (max_weight g1).
Proof. done. Qed.

Lemma edges_max_nonneg (es : Edge.t) : 0 <= edges_max es.
Proof.
  induction es as [|e es IH]; [done|]. rewrite edges_max_cons. lia.
Qed.

Lemma edge_lookup_below (es : Edge.t) d a :
  edge_lookup es d = Fin a -> a <= edges_max es.
Proof.
  induction es as [|e es IH]; cbn [edge_lookup]; [done|].
  rewrite edges_max_cons. destruct (String.eqb d (Edge.dst e)).
  - intros [= <-]. lia.
  - intros H%IH. lia.
Qed.

Lemma max_weight_nonneg : 0 <= max_weight g.
Proof.
  generalize g. intros g1.
  induction g1 as [|nd g1 IH]; [done|]. rewrite max_weight_cons. lia.
Qed.

Lemma edges_max_le_max nd : nd ∈ g -> edges_max (edges nd) <= max_weight g.
Proof.
  generalize g. intros g1.
  induction g1 as [|hd g1 IH]; [by intros ?%elem_of_nil|].
  rewrite max_weight_cons. intros [->|H%IH]%elem_of_cons; lia.
Qed.

Lemma cost_bound_nonneg : 0 <= cost_bound g.
Proof. unfold cost_bound. pose proof max_weight_nonneg. nia. Qed.

Lemma edge_cost_below i j a : edge_cost g i j = Fin a -> a <= max_weight g.
Proof.
  unfold edge_cost. destruct (g !! i) as [nd|] eqn:Hi; [|done].
  destruct (g !! j) as [nd'|]; [|done]. intros H%edge_lookup_below.
  pose proof (edges_max_le_max nd (list_elem_of_lookup_2 _ _ _ Hi)). lia.
Qed.

(** A walk costs at most the largest weight for each of its edges. *)
Lemma walk_cost_below mid i j c :
  walk_cost g i mid j = Fin c ->
  c <= (Z.of_nat (length mid) + 1) * max_weight g.
Proof.
  revert i c. induction mid as [|v mid IH]; intros i c; cbn [walk_cost].
  - intros H%edge_cost_below. cbn [length]. lia.
  - destruct (edge_cost g i v) as [a|] eqn:Ha; [|done].
    destruct (walk_cost g v mid j) as [b|] eqn:Hb; [|done].
    cbn [Num.sum]. intros [= <-]. apply edge_cost_below in Ha.
    specialize (IH v b Hb). cbn [length]. lia.
Qed.

(** Leaving out the cycles of a walk does not raise its cost. *)
Lemma walk_without_cycles mid i j :
  exists mid',
    NoDup mid' /\ (forall v, v ∈ mid' -> v ∈ mid)
    /\ Num.le (walk_cost g i mid' j) (walk_cost g i mid j).
Proof.
  revert i. induction mid as [|v mid IH]; intros i.
  - exists []. split_and!; [constructor|done|apply num_le_refl].
  - destruct (IH v) as (mid1 & Hnd & Hsub & Hle).
    destruct (decide (v ∈ mid1)) as [Hin|Hnin].
    + apply list_elem_of_split in Hin as (l1 & l2 & ->).
      exists (v :: l2). split_and!.
      * apply NoDup_app in Hnd as (_ & _ & Hnd). done.
      * intros x [->|Hx]%elem_of_cons; [by left|].
        right. apply Hsub, elem_of_app. right. by right.
      * cbn [walk_cost]. apply num_sum_mono; [apply num_le_refl|].
        eapply num_le_trans; [|exact Hle]. rewrite walk_cost_app.
        rewrite <- (num_sum_0_l (walk_cost g v l2 j)) at 1.
        apply num_sum_mono; [by apply walk_cost_nonneg|apply num_le_refl].
    + exists (v :: mid1). split_and!.
      * by constructor.
      * intros x [->|Hx]%elem_of_cons; [by left|]. right. by apply Hsub.
      * cbn [walk_cost]. by apply num_sum_mono; [apply num_le_refl|].
Qed.

Lemma simple_walk_length k (mid : list nat) :
  NoDup mid -> Forall (fun v => (v < k)%nat) mid -> (length mid <= k)%nat.
Proof.
  intros Hnd Hall. rewrite <- (length_seq k 0).
  apply submseteq_length, NoDup_submseteq; [done|].
  intros v Hv. apply elem_of_seq. rewrite Forall_forall in Hall.
  specialize (Hall v Hv). lia.
Qed.

Lemma reached_within_nonneg k i j x :
  reached_within g k i j x -> Num.le (Fin 0) x.
Proof.
  intros [->|[(mid & _ & <-)|(_ & _ & ->)]]; [done| |done].
  by apply walk_cost_nonneg.
Qed.

Lemma reached_within_mono k k' i j x :
  (k <= k')%nat -> reached_within g k i j x -> reached_within g k' i j x.
Proof.
  intros Hk [->|[(mid & Hmid & <-)|H]]; [by left| |by right; right].
  right. left. exists mid. split; [|done].
  eapply Forall_impl; [exact Hmid|]. intros v Hv. simpl in Hv. lia.
Qed.

(** Two costs that meet at [k] add up to a cost through [k]. *)
Lemma reached_within_concat k i j x y :
  reached_within g (S k) i k x -> reached_within g (S k) k j y ->
  reached_within g (S k) i j (Num.sum x y).
Proof.
  intros [->|[(l1 & H1 & <-)|(-> & Hk & ->)]]; [by left| |].
  - intros [->|[(l2 & H2 & <-)|(-> & Hj & ->)]].
    + left. apply num_sum_inf_r.
    + right. left. exists (l1 ++ k :: l2). split; [|apply walk_cost_app].
      apply Forall_app. split; [done|]. constructor; [lia|done].
    + right. left. exists l1. split; [done|]. by rewrite num_sum_0_r.
  - rewrite num_sum_0_l. done.
Qed.

(** Between two passes a finite cell is the cost of a walk that visits
    no node twice, so it is within the bound. *)
Lemma boundary_bound k m i j :
  (k <= length g)%nat -> tight g k m -> complete g k m ->
  (i < length g)%nat -> (j < length g)%nat ->
  cost_below (cost_bound g) (cell m i j).
Proof.
  intros Hk Ht Hc Hi Hj.
  destruct (Ht i j Hi Hj) as [->|[(mid & Hmid & Hcost)|(_ & _ & ->)]];
    [done| |apply cost_bound_nonneg].
  destruct (walk_without_cycles mid i j) as (mid1 & Hnd & Hsub & Hle).
  assert (Forall (fun v => (v < k)%nat) mid1) as Hmid1.
  { apply Forall_forall. intros v Hv%Hsub. rewrite Forall_forall in Hmid.
    by apply Hmid. }
  assert (walk_cost g i mid1 j = cell m i j) as Heq.
  { apply num_le_antisym; [by rewrite <- Hcost|by apply Hc]. }
  destruct (cell m i j) as [c|]; [|done]. cbn [cost_below].
  pose proof (walk_cost_below mid1 i j c Heq) as Hc1.
  pose proof (simple_walk_length k mid1 Hnd Hmid1) as Hlen.
  pose proof max_weight_nonneg. unfold cost_bound. nia.
Qed.

Lemma cost_below_safe (U : Z) x :
  Num.le (Fin 0) x -> cost_below U x -> U < Num.float_limit ->
  Num.safe x = true.
Proof.
  destruct x as [a|]; [|done]. cbn [cost_below Num.safe].
  intros Ha%num_le_fin HU Hlim. apply (float_ok_between a U); [lia|done].
Qed.

Lemma cost_below_sum (U : Z) x y :
  cost_below U x -> cost_below U y -> cost_below (2 * U) (Num.sum x y).
Proof. destruct x, y; cbn [cost_below Num.sum]; try done. lia. Qed.

Lemma cost_below_min (U : Z) x y :
  cost_below U x -> (x = Inf -> y = Inf) -> cost_below U (Num.min x y).
Proof.
  intros Hx Hy. unfold Num.min. destruct (Num.ltb y x) eqn:Hlt; [|done].
  destruct x as [a|]; [|by rewrite Hy in Hlt].
  destruct y as [b|]; [|done]. cbn [cost_below Num.ltb] in *.
  apply Z.ltb_lt in Hlt. lia.
Qed.

Lemma cost_below_mono (U U' : Z) x :
  U <= U' -> cost_below U x -> cost_below U' x.
Proof. destruct x; cbn [cost_below]; [lia|done]. Qed.

Lemma floyd_value_tight k0 k i j m :
  tight g (S k) m -> complete g k0 m ->
  (k < length g)%nat -> (i < length g)%nat -> (j < length g)%nat ->
  reached_within g (S k) i j (floyd_value k i j m).
Proof.
  intros Hs Hc Hk Hi Hj. unfold floyd_value.
  destruct (Nat.eqb_spec i j) as [->|Hne]; simpl.
  - destruct (Num.is_inf (cell m j j)) eqn:Hinf.
    + right. right. split_and!; [done| |done].
      apply num_is_inf_true in Hinf.
      pose proof (complete_upper k0 m j j Hc Hj Hj) as Hup.
      rewrite Hinf in Hup. by apply num_inf_le.
    + destruct (num_min_cases (cell m j j)
                  (Num.sum (cell m j k) (cell m k j))) as [-> | ->];
        [by apply Hs|apply (reached_within_concat k j j); by apply Hs].
  - destruct (num_min_cases (cell m i j)
                (Num.sum (cell m i k) (cell m k j))) as [-> | ->];
      [by apply Hs|apply (reached_within_concat k i j); by apply Hs].
Qed.

(** One turn of the loop keeps the bounds of the pass. *)
Lemma pass_bound_step k0 k m i j m' :
  (k < length g)%nat -> (i < length g)%nat -> (j < length g)%nat ->
  complete g k0 m -> pass_bound g k m ->
  (forall a b, cell m' a b =
               if decide (a = i /\ b = j) then floyd_value k i j m
               else cell m a b) ->
  pass_bound g k m'.
Proof.
  intros Hk Hi Hj Hc (Ht & Hall & Hcross) Hcell.
  assert (cost_below (2 * cost_bound g) (floyd_value k i j m)) as Hnew.
  { unfold floyd_value.
    destruct ((i =? j)%nat && Num.is_inf (cell m i j)).
    - cbn [cost_below]. pose proof cost_bound_nonneg. lia.
    - destruct (num_min_cases (cell m i j)
                  (Num.sum (cell m i k) (cell m k j))) as [-> | ->].
      + by apply Hall.
      + apply cost_below_sum; by apply Hcross. }
  split_and!.
  - intros a b Ha Hb. rewrite Hcell. case_decide as Hab; [|by apply Ht].
    destruct Hab as [-> ->]. by apply (floyd_value_tight k0).
  - intros a b Ha Hb. rewrite Hcell. case_decide as Hab; [|by apply Hall].
    by destruct Hab as [-> ->].
  - intros a Ha. rewrite !Hcell. split.
    + case_decide as Hab; [|by apply Hcross]. destruct Hab as [-> <-].
      unfold floyd_value.
      destruct ((i =? k)%nat && Num.is_inf (cell m i k)).
      * apply cost_bound_nonneg.
      * apply cost_below_min; [by apply Hcross|]. by intros ->.
    + case_decide as Hab; [|by apply Hcross]. destruct Hab as [<- ->].
      unfold floyd_value.
      destruct ((k =? j)%nat && Num.is_inf (cell m k j)).
      * apply cost_bound_nonneg.
      * apply cost_below_min; [by apply Hcross|]. intros ->.
        apply num_sum_inf_r.
Qed.

(** A pass starts within its bounds. *)
Lemma pass_bound_start k A :
  (k < length g)%nat -> tight g k A -> complete g k A -> pass_bound g k A.
Proof.
  intros Hk Ht Hc.
  assert (forall a b, (a < length g)%nat -> (b < length g)%nat ->
            cost_below (cost_bound g) (cell A a b)) as Hb.
  { intros a b Ha Hb. apply (boundary_bound k); (done || lia). }
  split_and!.
  - intros a b Ha Hb'. apply (reached_within_mono k); [lia|by apply Ht].
  - intros a b Ha Hb'. eapply cost_below_mono; [|by apply Hb].
    pose proof cost_bound_nonneg. lia.
  - intros a Ha. split; by apply Hb.
Qed.

Lemma cost_bound_float : cost_bound g < Num.float_limit.
Proof.
  pose proof in_range as H. unfold costs_float in H. apply Z.ltb_lt in H.
  pose proof cost_bound_nonneg. lia.
Qed.

(** The two cells a turn of the pass adds can be added. *)
Lemma pass_operands_safe k m a :
  sound g m -> pass_bound g k m ->
  (k < length g)%nat -> (a < length g)%nat ->
  Num.safe (cell m a k) = true /\ Num.safe (cell m k a) = true.
Proof.
  intros Hs (_ & _ & Hcross) Hk Ha. destruct (Hcross a Ha) as [H1 H2].
  split; (eapply cost_below_safe; [|eassumption|apply cost_bound_float]);
    eapply reached_nonneg; by apply Hs.
Qed.

(** One pass of the two inner loops, for a fixed [k]. *)
Lemma floyd_pass k A :
  (k < length g)%nat -> sq (length g) A -> sound g A -> complete g k A ->
  diag_pending g A -> tight g k A ->
  exists B,
    for_range (length g)
      (fun i => for_range (length g) (fun j => floyd_step k i j)) A = Ok B
    /\ sq (length g) B /\ sound g B /\ complete g (S k) B /\ diag_zero g B
    /\ tight g (S k) B.
Proof.
  intros Hk Hsq Hs Hc Hd Ht.
  destruct (for_range_inv
              (fun i0 m => pass_inv g k A (fun a _ => (a < i0)%nat) m
                           /\ pass_bound g k m)
              (length g)
              (fun i => for_range (length g) (fun j => floyd_step k i j)) A)
    as (B & HB & Hinv & Hbound).
  - split; [|by apply pass_bound_start].
    split_and!; [done|done|intros ??; apply num_le_refl| | |];
      intros; (done || lia).
  - intros i m Hi [Hm Hbm].
    destruct (for_range_inv
                (fun j0 m1 =>
                   pass_inv g k A
                     (fun a b => (a < i)%nat \/ (a = i /\ (b < j0)%nat)) m1
                   /\ pass_bound g k m1)
                (length g) (fun j => floyd_step k i j) m)
      as (m2 & Hm2 & Hinv2 & Hb2).
    + split; [|done].
      eapply pass_inv_ext; [|exact Hm]. intros a b _ _. simpl. lia.
    + intros j m1 Hj [Hm1 Hb1]. pose proof Hm1 as (Hsq1 & Hs1 & Hbel1 & _).
      destruct (pass_operands_safe k m1 i Hs1 Hb1 Hk Hi) as [Hsafe1 _].
      destruct (pass_operands_safe k m1 j Hs1 Hb1 Hk Hj) as [_ Hsafe2].
      destruct (floyd_step_spec (length g) k i j m1 Hsq1 Hk Hi Hj
                  Hsafe1 Hsafe2)
        as (m3 & Hm3 & Hsq3 & Hcells).
      exists m3. split; [done|]. split.
      * eapply pass_inv_ext;
          [|apply (pass_step k A
                     (fun a b => (a < i)%nat \/ (a = i /\ (b < j)%nat))
                     m1 i j m3); try done].
        -- intros a b _ _. simpl. lia.
        -- lia.
        -- by apply cell_after_step.
      * apply (pass_bound_step k k m1 i j m3); try done.
        -- by apply (complete_below k A).
        -- by apply cell_after_step.
    + exists m2. split; [done|]. split; [|done].
      eapply pass_inv_ext; [|exact Hinv2]. intros a b Ha Hb. simpl. lia.
  - destruct Hinv as (HsqB & HsB & HbB & Hbd & _ & Hdiag).
    destruct Hbound as (HtB & _).
    exists B. split_and!; [done..| | |done].
    + apply (complete_next k A B); [done..|]. intros i j Hi Hj.
      by apply Hbd.
    + intros i Hi Hnsl. by apply Hdiag.
Qed.

(** The three loops of [floyd], started from the matrix of edge weights. *)
Lemma floyd_loops_spec W :
  sq (length g) W ->
  (forall a b, (a < length g)%nat -> (b < length g)%nat ->
               cell W a b = edge_cost g a b) ->
  exists M,
    floyd_loops (length g) W = Ok M
    /\ sq (length g) M /\ sound g M /\ complete g (length g) M
    /\ diag_zero g M.
Proof.
  intros Hsq HW. unfold floyd_loops.
  destruct (for_range_inv
              (fun k m => sq (length g) m /\ sound g m /\ complete g k m
                          /\ diag_pending g m
                          /\ ((0 < k)%nat -> diag_zero g m)
                          /\ tight g k m)
              (length g)
              (fun k => for_range (length g)
                          (fun i => for_range (length g)
                                      (fun j => floyd_step k i j))) W)
    as (M & HM & HsqM & HsM & HcM & _ & HdM & _).
  - split_and!; [done| | | |lia|].
    + intros i j Hi Hj. right. left. exists []. simpl. by rewrite HW.
    + intros i j mid Hi Hj Hmid. destruct mid as [|v mid].
      * simpl. rewrite HW by done. apply num_le_refl.
      * apply Forall_cons in Hmid as [Hv _]. lia.
    + intros i Hi Hnsl. left. by rewrite HW.
    + intros i j Hi Hj. right. left. exists []. split; [done|].
      simpl. by rewrite HW.
  - intros k m Hk (Hsq1 & Hs1 & Hc1 & Hd1 & _ & Ht1).
    destruct (floyd_pass k m Hk Hsq1 Hs1 Hc1 Hd1 Ht1)
      as (B & HB & HsqB & HsB & HcB & HdB & HtB).
    exists B. split; [done|]. split_and!; [done..| |done|done].
    intros i Hi Hnsl. right. by apply HdB.
  - exists M. split_and!; [done..|].
    intros i Hi Hnsl. apply HdM; [lia|done..].
Qed.

End FloydCorrect.

(** ** Floyd: what the matrix holds *)

(** C3, as stated, fails: in [self_loop_graph] the node [a] has a
    self-loop of weight [10], and [floyd] puts [2], the cost of
    [a -> b -> a], into its diagonal cell. *)
Lemma floyd_self_loop_weight_not_kept : ~ floyd_as_claimed self_loop_graph.
Proof.
  intros (m & Hm & _ & H). vm_compute in Hm. injection Hm as <-.
  destruct (H 0%nat 0%nat) as (_ & _ & Hloop & _); [simpl; lia..|].
  specialize (Hloop eq_refl). vm_compute in Hloop.
  assert (Fin 10 <> Inf) as Hne by done. specialize (Hloop Hne). done.
Qed.

(** With a cycle of negative cost the cells are not least costs:
    [floyd] answers [-2] where the walk [a -> a -> a -> a] costs [-3]. *)
Lemma floyd_negative_cycle : ~ floyd_as_claimed negative_loop_graph.
Proof.
  intros (m & Hm & _ & H). vm_compute in Hm. injection Hm as <-.
  destruct (H 0%nat 0%nat) as (_ & _ & Hloop & _); [simpl; lia..|].
  specialize (Hloop eq_refl). vm_compute in Hloop.
  assert (Fin (-1) <> Inf) as Hne by done. specialize (Hloop Hne). done.
Qed.

(** With an edge towards a name that is not a node [floyd] raises. *)
Lemma floyd_dangling_edge_raises :
  floyd dangling_edge_graph = Raise AttributeError
  /\ ~ floyd_as_claimed dangling_edge_graph.
Proof.
  split; [reflexivity|]. intros (m & Hm & _). vm_compute in Hm. done.
Qed.

(** With a weight too large for a float [floyd] raises: on
    [a -> b (2^1024)] it adds that weight to [inf]. *)
Lemma floyd_huge_weight_raises :
  well_formed huge_weight_graph = true
  /\ edges_closed huge_weight_graph = true
  /\ weights_nonneg huge_weight_graph = true
  /\ costs_float huge_weight_graph = false
  /\ floyd huge_weight_graph = Raise OverflowError
  /\ ~ floyd_as_claimed huge_weight_graph.
Proof.
  assert (floyd huge_weight_graph = Raise OverflowError) as Hr
    by (vm_compute; reflexivity).
  split_and!; [vm_compute; reflexivity..|done|].
  intros (m & Hm & _). by rewrite Hr in Hm.
Qed.

(** C3, amended: for a graph that satisfies the invariant of the data
    model, whose edges all point to nodes and whose weights are not
    negative and small enough for twice the cost of a walk through every
    node to convert to a float ([costs_float]),
    [floyd] returns the N x N matrix in which the cell [(i, j)],
    [i <> j], is the least cost of a walk from [i] to [j]; the diagonal
    cell [(i, i)] is [0] when node [i] has no self-loop and, when it has
    one, the least cost of a walk from [i] back to [i] (at most the weight
    of the self-loop); and a cell is [inf] exactly when [j] is another
    node that no walk from [i] reaches.  On the graph with the single edge
    [a -> b (5)] the matrix is [[[0, 5], [inf, 0]]]. *)
Theorem floyd_least_costs (g : AdjacencyList) :
  well_formed g = true -> edges_closed g = true -> weights_nonneg g = true ->
  costs_float g = true ->
  floyd_as_coded g
  /\ floyd one_edge_graph = Ok [[Fin 0; Fin 5]; [Inf; Fin 0]].
Proof.
  intros Hwf Hc Hnn Hfl. split; [|reflexivity].
  destruct (add_list_to_matrix_spec g Hwf Hc) as (W & HW & HsqW & Hcells).
  destruct (floyd_loops_spec g Hnn Hfl W HsqW Hcells)
    as (M & HM & HsqM & Hs & Hcomp & Hdiag).
  exists M. split_and!; [|done|].
  { unfold floyd. rewrite node_cardinality_length, HW. exact HM. }
  intros i j Hi Hj.
  assert (forall mid, Num.le (cell M i j) (walk_cost g i mid j)) as Hlow.
  { intros mid.
    destruct (decide (Forall (fun v => (v < length g)%nat) mid)) as [Hv|Hv].
    - by apply Hcomp.
    - rewrite walk_cost_out_of_range by done. apply num_le_inf. }
  pose proof (Hs i j Hi Hj) as Hreach.
  split_and!.
  - intros Hne. split; [done|].
    destruct Hreach as [?|[?|(? & _)]]; [by left|by right|done].
  - intros -> Hnsl. apply num_le_antisym; [by apply Hdiag|].
    by apply (reached_nonneg g Hnn j j).
  - intros -> Hloop. split; [|by apply (Hlow [])]. split; [done|].
    destruct Hreach as [?|[?|(_ & ? & _)]]; [by left|by right|done].
  - split.
    + intros Hinf. rewrite Hinf in Hlow. split.
      * intros ->. destruct (decide (edge_cost g j j = Inf)) as [Hnsl|Hloop].
        -- pose proof (Hdiag j Hj Hnsl) as H0. by rewrite Hinf in H0.
        -- apply Hloop. apply num_inf_le. apply (Hlow []).
      * intros mid. by apply num_inf_le.
    + intros [Hne Hall].
      destruct Hreach as [?|[[mid Hmid]|(? & _)]]; [done| |done].
      by rewrite <- Hmid, Hall.
Qed.

Lemma floyd_least_costs_witness :
  well_formed one_edge_graph = true
  /\ edges_closed one_edge_graph = true
  /\ weights_nonneg one_edge_graph = true
  /\ costs_float one_edge_graph = true
  /\ floyd_as_coded one_edge_graph
  /\ floyd one_edge_graph = Ok [[Fin 0; Fin 5]; [Inf; Fin 0]].
Proof.
  split; [reflexivity|]. split; [reflexivity|]. split; [reflexivity|].
  split; [reflexivity|].
  apply (floyd_least_costs one_edge_graph); reflexivity.
Defined.

(** The scenario of the specification: a single edge [a -> b (5)]. *)
Example floyd_scenario_output :
  floyd_scenario = Ok one_edge_graph
  /\ floyd one_edge_graph = Ok [[Fin 0; Fin 5]; [Inf; Fin 0]]
  /\ warshall one_edge_graph
     = Ok [[WBool true; WBool true]; [WBool false; WBool true]].
Proof. split_and!; reflexivity. Qed.

(** * Further properties of the code *)

(** ** class Edge: add, delete, find, cardinality *)

Section EdgeSequence.

Implicit Types (es : Edge.t) (d : string) (w : Z).

Lemma edge_cardinality_length es : Edge.cardinality es = length es.
Proof. induction es as [|hd tl IH]; simpl; lia. Qed.

Lemma edge_find_elem es d : Edge.find es d = true <-> d ∈ Edge.dst <$> es.
Proof.
  induction es as [|hd tl IH]; cbn [Edge.find].
  - split; [done|]. by intros ?%elem_of_nil.
  - rewrite fmap_cons, elem_of_cons.
    destruct (String.eqb_spec d (Edge.dst hd)); [by split; auto|].
    rewrite IH. split; [auto|]. by intros [?|?].
Qed.

Lemma edge_find_add es d w d' :
  Edge.find (Edge.add es d w) d' = String.eqb d' d || Edge.find es d'.
Proof.
  induction es as [|hd tl IH]; cbn [Edge.add Edge.find Edge.dst].
  - by destruct (String.eqb d' d).
  - destruct (String.eqb_spec d (Edge.dst hd)) as [->|Hne].
    + cbn [Edge.find Edge.dst]. by destruct (String.eqb d' (Edge.dst hd)).
    + destruct (String.ltb d (Edge.dst hd)); cbn [Edge.find Edge.dst].
      * done.
      * rewrite IH. destruct (String.eqb d' (Edge.dst hd)); [|done].
        by rewrite orb_true_r.
Qed.

Lemma edge_lookup_add es d w d' :
  edge_lookup (Edge.add es d w) d'
  = if String.eqb d' d then Fin w else edge_lookup es d'.
Proof.
  induction es as [|hd tl IH]; cbn [Edge.add edge_lookup Edge.dst Edge.weight].
  - done.
  - destruct (String.eqb_spec d (Edge.dst hd)) as [->|Hne].
    + cbn [edge_lookup Edge.dst Edge.weight].
      by destruct (String.eqb d' (Edge.dst hd)).
    + destruct (String.ltb d (Edge.dst hd));
        cbn [edge_lookup Edge.dst Edge.weight]; [done|].
      rewrite IH. destruct (String.eqb_spec d' (Edge.dst hd)) as [->|]; [|done].
      by rewrite (proj2 (String.eqb_neq (Edge.dst hd) d)) by congruence.
Qed.

Lemma edge_find_lookup es d :
  Edge.find es d = negb (Num.is_inf (edge_lookup es d)).
Proof.
  induction es as [|hd tl IH]; simpl; [done|].
  by destruct (String.eqb d (Edge.dst hd)).
Qed.

Lemma edge_find_above es d :
  Forall (fun y => String.ltb d y = true) (Edge.dst <$> es) ->
  Edge.find es d = false.
Proof.
  intros Hall. destruct (Edge.find es d) eqn:Hf; [|done].
  apply edge_find_elem in Hf. rewrite Forall_forall in Hall.
  specialize (Hall d Hf). by rewrite ltb_irrefl in Hall.
Qed.

Lemma edge_add_cardinality es d w :
  ascending (Edge.dst <$> es) = true ->
  Edge.cardinality (Edge.add es d w)
  = if Edge.find es d then Edge.cardinality es else S (Edge.cardinality es).
Proof.
  induction es as [|hd tl IH]; cbn [Edge.add Edge.find]; [done|].
  rewrite fmap_cons. intros Hasc.
  destruct (String.eqb_spec d (Edge.dst hd)) as [->|Hne]; [done|].
  destruct (String.ltb d (Edge.dst hd)) eqn:Hlt.
  - rewrite edge_find_above; [simpl; lia|].
    apply ascending_cons in Hasc as [Hall _].
    eapply Forall_impl; [exact Hall|]. intros y Hy. by eapply ltb_trans.
  - cbn [Edge.cardinality]. rewrite IH by (by eapply ascending_tail).
    destruct (Edge.find tl d); lia.
Qed.

Lemma edge_find_delete_other es d d' :
  d' <> d -> Edge.find (Edge.delete es d) d' = Edge.find es d'.
Proof.
  intros Hne. induction es as [|hd tl IH]; cbn [Edge.delete Edge.find]; [done|].
  destruct (String.eqb_spec d (Edge.dst hd)) as [->|Hd].
  - by rewrite (proj2 (String.eqb_neq d' (Edge.dst hd))).
  - cbn [Edge.find]. by rewrite IH.
Qed.

Lemma edge_lookup_delete_other es d d' :
  d' <> d -> edge_lookup (Edge.delete es d) d' = edge_lookup es d'.
Proof.
  intros Hne. induction es as [|hd tl IH]; cbn [Edge.delete edge_lookup]; [done|].
  destruct (String.eqb_spec d (Edge.dst hd)) as [->|Hd].
  - by rewrite (proj2 (String.eqb_neq d' (Edge.dst hd))).
  - cbn [edge_lookup]. by rewrite IH.
Qed.

Lemma edge_delete_cardinality es d :
  (Edge.cardinality (Edge.delete es d) + (if Edge.find es d then 1 else 0))%nat
  = Edge.cardinality es.
Proof.
  induction es as [|hd tl IH]; cbn [Edge.delete Edge.find]; [done|].
  destruct (String.eqb d (Edge.dst hd)); cbn [Edge.cardinality]; lia.
Qed.

Lemma edge_delete_absent es d : Edge.find es d = false -> Edge.delete es d = es.
Proof.
  induction es as [|hd tl IH]; cbn [Edge.delete Edge.find]; [done|].
  destruct (String.eqb d (Edge.dst hd)); [done|]. intros H. by rewrite IH.
Qed.

Lemma edge_find_delete_same es d :
  ascending (Edge.dst <$> es) = true -> Edge.find (Edge.delete es d) d = false.
Proof.
  intros Hasc. rewrite edge_delete_filter by done.
  destruct (Edge.find _ d) eqn:Hf; [|done]. apply edge_find_elem in Hf.
  apply list_elem_of_fmap in Hf as (e & -> & [He _]%list_elem_of_filter). done.
Qed.

Lemma edge_delete_add es d w :
  Edge.find es d = false -> Edge.delete (Edge.add es d w) d = es.
Proof.
  induction es as [|hd tl IH]; cbn [Edge.add Edge.find].
  - intros _. cbn [Edge.delete Edge.dst]. by rewrite String.eqb_refl.
  - destruct (String.eqb d (Edge.dst hd)) eqn:Heq; [done|]. intros Hf.
    destruct (String.ltb d (Edge.dst hd)); cbn [Edge.delete Edge.dst].
    + by rewrite String.eqb_refl.
    + by rewrite Heq, IH.
Qed.

End EdgeSequence.

(** X1: after [add(dst, weight)] the sequence has an edge towards [dst],
    its weight is [weight], and for every other destination both the
    membership and the weight are what they were. *)
Theorem edge_add_then_find (es : Edge.t) (d d' : string) (w : Z) :
  Edge.find (Edge.add es d w) d = true
  /\ edge_lookup (Edge.add es d w) d = Fin w
  /\ Edge.find (Edge.add es d w) d' = (String.eqb d' d || Edge.find es d')
  /\ (d' <> d -> edge_lookup (Edge.add es d w) d' = edge_lookup es d').
Proof.
  split_and!.
  - by rewrite edge_find_add, String.eqb_refl.
  - by rewrite edge_lookup_add, String.eqb_refl.
  - apply edge_find_add.
  - intros Hne. rewrite edge_lookup_add.
    by rewrite (proj2 (String.eqb_neq d' d)).
Qed.

(** X2: on a sequence with strictly ascending destinations, [add] keeps
    the destinations strictly ascending, and the cardinality grows by one
    for a new destination and stays for one that was there (only its
    weight is replaced). *)
Theorem edge_add_keeps_order (es : Edge.t) (d : string) (w : Z) :
  ascending (Edge.dst <$> es) = true ->
  ascending (Edge.dst <$> Edge.add es d w) = true
  /\ Edge.cardinality (Edge.add es d w)
     = if Edge.find es d then Edge.cardinality es
       else S (Edge.cardinality es).
Proof.
  intros Hasc. split; [by apply edge_add_ascending|].
  by apply edge_add_cardinality.
Qed.

Lemma edge_add_keeps_order_witness :
  ascending (Edge.dst <$> [Edge.Cell "a" 1; Edge.Cell "c" 2]) = true
  /\ Edge.add [Edge.Cell "a" 1; Edge.Cell "c" 2] "b" 7
     = [Edge.Cell "a" 1; Edge.Cell "b" 7; Edge.Cell "c" 2]
  /\ ascending
       (Edge.dst <$> Edge.add [Edge.Cell "a" 1; Edge.Cell "c" 2] "b" 7) = true.
Proof.
  split; [reflexivity|]. split; [reflexivity|].
  apply (edge_add_keeps_order [Edge.Cell "a" 1; Edge.Cell "c" 2] "b" 7).
  reflexivity.
Defined.

(** X3: [delete(dst)] on any sequence leaves the edges towards other
    destinations as they are, lowers the cardinality by one exactly when
    an edge towards [dst] was there, and returns the sequence unchanged
    when there was none. *)
Theorem edge_delete_frame (es : Edge.t) (d d' : string) :
  (d' <> d ->
   Edge.find (Edge.delete es d) d' = Edge.find es d'
   /\ edge_lookup (Edge.delete es d) d' = edge_lookup es d')
  /\ (Edge.cardinality (Edge.delete es d)
      + (if Edge.find es d then 1 else 0))%nat = Edge.cardinality es
  /\ (Edge.find es d = false -> Edge.delete es d = es).
Proof.
  split_and!.
  - intros Hne. split;
      [by apply edge_find_delete_other|by apply edge_lookup_delete_other].
  - apply edge_delete_cardinality.
  - apply edge_delete_absent.
Qed.

(** X4: on a sequence with strictly ascending destinations, after
    [delete(dst)] there is no edge towards [dst] and the destinations are
    still strictly ascending; and deleting a destination that was just
    added, and was not there before, gives the original sequence back. *)
Theorem edge_delete_removes (es : Edge.t) (d : string) (w : Z) :
  ascending (Edge.dst <$> es) = true ->
  Edge.find (Edge.delete es d) d = false
  /\ ascending (Edge.dst <$> Edge.delete es d) = true
  /\ (Edge.find es d = false -> Edge.delete (Edge.add es d w) d = es).
Proof.
  intros Hasc. split_and!.
  - by apply edge_find_delete_same.
  - by apply edge_delete_ascending.
  - apply edge_delete_add.
Qed.

Lemma edge_delete_removes_witness :
  ascending (Edge.dst <$> [Edge.Cell "a" 1; Edge.Cell "c" 2]) = true
  /\ Edge.find (Edge.delete [Edge.Cell "a" 1; Edge.Cell "c" 2] "c") "c" = false
  /\ Edge.delete (Edge.add [Edge.Cell "a" 1; Edge.Cell "c" 2] "b" 7) "b"
     = [Edge.Cell "a" 1; Edge.Cell "c" 2].
Proof.
  split; [reflexivity|].
  destruct (edge_delete_removes [Edge.Cell "a" 1; Edge.Cell "c" 2] "c" 0
              eq_refl) as (H1 & _ & _).
  split; [exact H1|reflexivity].
Defined.

(** ** class AdjacencyList: nodes *)

Section NodeOperations.

Implicit Types (g : AdjacencyList) (nm : string).

Lemma find_node_add_node g nm i nm' :
  find_node (add_node g nm i) nm' = String.eqb nm' nm || find_node g nm'.
Proof.
  induction g as [|hd tl IH]; cbn [add_node find_node name].
  - by destruct (String.eqb nm' nm).
  - destruct (String.ltb nm (name hd)); cbn [find_node name]; [done|].
    rewrite IH. destruct (String.eqb nm' (name hd)); [|done].
    by rewrite orb_true_r.
Qed.

Lemma delete_node_absent g nm : find_node g nm = false -> delete_node g nm = g.
Proof.
  induction g as [|hd tl IH]; cbn [delete_node find_node]; [done|].
  destruct (String.eqb nm (name hd)); [done|]. intros Hf.
  destruct (String.ltb (name hd) nm); [|done]. by rewrite IH.
Qed.

Lemma delete_add_node g nm i :
  find_node g nm = false -> delete_node (add_node g nm i) nm = g.
Proof.
  induction g as [|hd tl IH]; cbn [add_node find_node].
  - intros _. cbn [delete_node name]. by rewrite String.eqb_refl.
  - destruct (String.eqb nm (name hd)) eqn:Heq; [done|]. intros Hf.
    destruct (String.ltb nm (name hd)) eqn:Hlt; cbn [delete_node name].
    + by rewrite String.eqb_refl.
    + by rewrite Heq, (ltb_total nm (name hd) Hlt Heq), IH.
Qed.

Lemma get_node_add_node g nm i :
  find_node g nm = false ->
  exists r, get_node (add_node g nm i) nm = PyNode r
            /\ add_node g nm i !! r = Some (Node nm i []).
Proof.
  induction g as [|hd tl IH]; cbn [add_node find_node].
  - intros _. exists 0%nat. cbn [get_node name]. by rewrite String.eqb_refl.
  - destruct (String.eqb nm (name hd)) eqn:Heq; [done|]. intros Hf.
    destruct (String.ltb nm (name hd)); cbn [get_node name].
    + exists 0%nat. by rewrite String.eqb_refl.
    + destruct (IH Hf) as (r & -> & Hr). exists (S r). by rewrite Heq.
Qed.

End NodeOperations.

(** X5: for a name that is not a node, [delete_node] returns the list
    unchanged; [add_node] inserts one node with the given info and no
    edges, which a lookup by that name finds; it keeps the invariant of the
    data model; and [delete_node] after it gives the original list back. *)
Theorem add_node_fresh_name (g : AdjacencyList) (nm : string) (i : info_t) :
  find_node g nm = false ->
  delete_node g nm = g
  /\ delete_node (add_node g nm i) nm = g
  /\ (exists r, get_node (add_node g nm i) nm = PyNode r
                /\ add_node g nm i !! r = Some (Node nm i []))
  /\ (forall nm', find_node (add_node g nm i) nm'
                  = (String.eqb nm' nm || find_node g nm'))
  /\ (well_formed g = true -> well_formed (add_node g nm i) = true).
Proof.
  intros Hf. split_and!.
  - by apply delete_node_absent.
  - by apply delete_add_node.
  - by apply get_node_add_node.
  - intros nm'. apply find_node_add_node.
  - intros Hwf. by apply well_formed_add_node_fresh.
Qed.

Lemma add_node_fresh_name_witness :
  find_node [Node "a" None [Edge.Cell "a" 1]; Node "c" None []] "b" = false
  /\ delete_node
       (add_node [Node "a" None [Edge.Cell "a" 1]; Node "c" None []] "b" None)
       "b"
     = [Node "a" None [Edge.Cell "a" 1]; Node "c" None []].
Proof.
  split; [reflexivity|].
  apply (add_node_fresh_name
           [Node "a" None [Edge.Cell "a" 1]; Node "c" None []] "b" None).
  reflexivity.
Defined.

(** ** class AdjacencyList: edges *)

Section EdgeOperations.

Implicit Types (g : AdjacencyList) (s d : string) (w : Z).

Lemma find_edge_find_node g s d : find_edge g s d = true -> find_node g s = true.
Proof.
  induction g as [|hd tl IH]; cbn [find_edge find_node]; [done|].
  by destruct (String.eqb s (name hd)).
Qed.

Lemma find_edge_weight g s d :
  find_edge g s d = negb (Num.is_inf (edge_weight g s d)).
Proof.
  induction g as [|hd tl IH]; cbn [find_edge edge_weight]; [done|].
  destruct (String.eqb s (name hd)); [apply edge_find_lookup|done].
Qed.

Lemma edge_weight_absent g s d : find_node g s = false -> edge_weight g s d = Inf.
Proof.
  induction g as [|hd tl IH]; cbn [find_node edge_weight]; [done|].
  by destruct (String.eqb s (name hd)).
Qed.

(** [_add_edge] below a member [src] never reaches the end of the list. *)
Lemma _add_edge_returns g s d w :
  find_node g s = true ->
  exists g', _add_edge g s d w = Ok g'
             /\ list_nodes g' = list_nodes g /\ info <$> g' = info <$> g.
Proof.
  induction g as [|hd tl IH]; cbn [find_node _add_edge]; [done|].
  destruct (String.eqb s (name hd)); [by eexists|]. intros Hf.
  destruct (String.ltb (name hd) s); [|by eexists].
  destruct (IH Hf) as (tl' & -> & Hn & Hi). eexists. split; [done|].
  cbn [list_nodes]. rewrite !fmap_cons. by rewrite Hn, Hi.
Qed.

Lemma _delete_edge_returns g s d :
  find_node g s = true ->
  exists g', _delete_edge g s d = Ok g'
             /\ list_nodes g' = list_nodes g /\ info <$> g' = info <$> g.
Proof.
  induction g as [|hd tl IH]; cbn [find_node _delete_edge]; [done|].
  destruct (String.eqb s (name hd)); [by eexists|]. intros Hf.
  destruct (String.ltb (name hd) s); [|by eexists].
  destruct (IH Hf) as (tl' & -> & Hn & Hi). eexists. split; [done|].
  cbn [list_nodes]. rewrite !fmap_cons. by rewrite Hn, Hi.
Qed.

End EdgeOperations.

(** X6: [add_edge] and [delete_edge] never raise, whatever the list: the
    comparison of a name with the empty list's [None] in [_add_edge] and
    [_delete_edge] is not reached, because the guards let only member
    sources through.  Both leave the names and the infos of the nodes as
    they are. *)
Theorem add_edge_delete_edge_return
    (g : AdjacencyList) (s d : string) (w : Z) :
  (exists g', add_edge g s d w = Ok g'
              /\ list_nodes g' = list_nodes g /\ info <$> g' = info <$> g)
  /\ (exists g', delete_edge g s d = Ok g'
                 /\ list_nodes g' = list_nodes g /\ info <$> g' = info <$> g).
Proof.
  split.
  - unfold add_edge. destruct (find_node g s) eqn:Hs; simpl; [|by exists g].
    destruct (find_node g d); simpl; [|by exists g].
    by apply _add_edge_returns.
  - unfold delete_edge. destruct (find_edge g s d) eqn:He; simpl; [|by exists g].
    apply _delete_edge_returns. by eapply find_edge_find_node.
Qed.

Section EdgeOperationsOrdered.

Implicit Types (g : AdjacencyList) (s d : string) (w : Z).

Lemma member_above_head (hd : node) (tl : AdjacencyList) s :
  ascending (list_nodes (hd :: tl)) = true -> find_node tl s = true ->
  String.ltb (name hd) s = true.
Proof.
  cbn [list_nodes]. intros [Hall _]%ascending_cons Hf.
  apply find_node_true in Hf. rewrite Forall_forall in Hall. by apply Hall.
Qed.

Lemma well_formed_cons (hd : node) (tl : AdjacencyList) :
  well_formed (hd :: tl) = true ->
  ascending (list_nodes (hd :: tl)) = true
  /\ ascending (Edge.dst <$> edges hd) = true
  /\ well_formed tl = true.
Proof.
  unfold well_formed. cbn [forallb].
  intros [Hasc [Hhd Htl]%andb_true_iff]%andb_true_iff.
  split_and!; [done..|]. cbn [list_nodes] in Hasc.
  apply ascending_tail in Hasc. by rewrite Hasc, Htl.
Qed.

Lemma edge_lookup_delete es d d' :
  ascending (Edge.dst <$> es) = true ->
  edge_lookup (Edge.delete es d) d'
  = if String.eqb d' d then Inf else edge_lookup es d'.
Proof.
  intros Hasc. destruct (String.eqb_spec d' d) as [->|Hne].
  - pose proof (edge_find_delete_same es d Hasc) as Hf.
    rewrite edge_find_lookup in Hf.
    by destruct (edge_lookup (Edge.delete es d) d).
  - by apply edge_lookup_delete_other.
Qed.

(** What [_add_edge] does below a member source of a well-formed list. *)
Lemma _add_edge_spec g s d w :
  well_formed g = true -> find_node g s = true ->
  exists g',
    _add_edge g s d w = Ok g'
    /\ (forall s' d',
          edge_weight g' s' d'
          = if String.eqb s' s && String.eqb d' d then Fin w
            else edge_weight g s' d')
    /\ edge_cardinality g'
       = if find_edge g s d then edge_cardinality g
         else S (edge_cardinality g).
Proof.
  induction g as [|hd tl IH]; [done|].
  intros (Hasc & Hes & Hwf)%well_formed_cons.
  cbn [find_node _add_edge find_edge].
  destruct (String.eqb_spec s (name hd)) as [->|Hne].
  - intros _. eexists. split; [done|]. split.
    + intros s' d'. cbn [edge_weight set_edges name edges].
      rewrite edge_lookup_add.
      by destruct (String.eqb s' (name hd)).
    + cbn [edge_cardinality set_edges edges].
      rewrite edge_add_cardinality by done.
      destruct (Edge.find (edges hd) d); lia.
  - intros Hf. rewrite (member_above_head hd tl s Hasc Hf).
    destruct (IH Hwf Hf) as (tl' & -> & Hw & Hc). eexists. split; [done|].
    split.
    + intros s' d'. cbn [edge_weight]. rewrite Hw.
      destruct (String.eqb_spec s' (name hd)) as [->|]; [|done].
      by rewrite (proj2 (String.eqb_neq (name hd) s)) by congruence.
    + cbn [edge_cardinality]. rewrite Hc. destruct (find_edge tl s d); lia.
Qed.

(** What [_delete_edge] does below a member source of a well-formed list. *)
Lemma _delete_edge_spec g s d :
  well_formed g = true -> find_node g s = true ->
  exists g',
    _delete_edge g s d = Ok g'
    /\ well_formed g' = true
    /\ (forall s' d',
          edge_weight g' s' d'
          = if String.eqb s' s && String.eqb d' d then Inf
            else edge_weight g s' d')
    /\ (edge_cardinality g' + (if find_edge g s d then 1 else 0))%nat
       = edge_cardinality g.
Proof.
  induction g as [|hd tl IH]; [done|].
  intros Hwfg. pose proof Hwfg as (Hasc & Hes & Hwf)%well_formed_cons.
  cbn [find_node _delete_edge find_edge].
  destruct (String.eqb_spec s (name hd)) as [->|Hne].
  - intros _. eexists. split; [done|]. split_and!.
    + unfold well_formed in *. apply andb_true_iff in Hwf as [_ Hwf].
      apply andb_true_iff. split; [exact Hasc|]. cbn [forallb].
      apply andb_true_iff. split; [|exact Hwf].
      by apply edge_delete_ascending.
    + intros s' d'. cbn [edge_weight set_edges name edges].
      rewrite edge_lookup_delete by done.
      by destruct (String.eqb s' (name hd)).
    + cbn [edge_cardinality set_edges edges].
      pose proof (edge_delete_cardinality (edges hd) d).
      destruct (Edge.find (edges hd) d); lia.
  - intros Hf. rewrite (member_above_head hd tl s Hasc Hf).
    destruct (IH Hwf Hf) as (tl' & Htl' & Hwf' & Hw & Hc).
    rewrite Htl'. eexists. split; [done|].
    assert (list_nodes tl' = list_nodes tl) as Hnames.
    { destruct (_delete_edge_returns tl s d Hf) as (tl2 & Htl2 & Hn & _).
      rewrite Htl' in Htl2. by injection Htl2 as <-. }
    split_and!.
    + unfold well_formed in *. apply andb_true_iff in Hwf' as [_ Hwf'].
      apply andb_true_iff. split.
      * cbn [list_nodes] in *. by rewrite Hnames.
      * cbn [forallb]. by rewrite Hes, Hwf'.
    + intros s' d'. cbn [edge_weight]. rewrite Hw.
      destruct (String.eqb_spec s' (name hd)) as [->|]; [|done].
      by rewrite (proj2 (String.eqb_neq (name hd) s)) by congruence.
    + cbn [edge_cardinality]. destruct (find_edge tl s d); lia.
Qed.

Lemma _delete_add_edge g s d w g1 :
  ascending (list_nodes g) = true -> find_node g s = true ->
  find_edge g s d = false ->
  _add_edge g s d w = Ok g1 -> _delete_edge g1 s d = Ok g.
Proof.
  revert g1. induction g as [|hd tl IH]; [done|]. intros g1 Hasc.
  cbn [find_node find_edge _add_edge].
  destruct (String.eqb s (name hd)) eqn:Heq.
  - intros _ Hf [= <-]. cbn [_delete_edge set_edges name edges].
    rewrite Heq, edge_delete_add by done. by destruct hd.
  - intros Hn Hf. rewrite (member_above_head hd tl s Hasc Hn).
    destruct (_add_edge tl s d w) as [tl'| |] eqn:Htl; [|done..].
    intros [= <-]. cbn [_delete_edge]. rewrite Heq.
    rewrite (member_above_head hd tl s Hasc Hn).
    rewrite (IH tl'); [done| |done..].
    cbn [list_nodes] in Hasc. by eapply ascending_tail.
Qed.

End EdgeOperationsOrdered.

(** X7: in a well-formed graph, [add_edge] between two nodes returns a
    well-formed graph with the same nodes in which [find_edge(src, dst)]
    is true and the edge weighs [weight]; every other edge is as it was;
    [edge_cardinality] grows by one for a new edge and stays when the edge
    was there. *)
Theorem add_edge_between_nodes (g : AdjacencyList) (s d : string) (w : Z) :
  well_formed g = true -> find_node g s = true -> find_node g d = true ->
  exists g',
    add_edge g s d w = Ok g'
    /\ well_formed g' = true
    /\ list_nodes g' = list_nodes g
    /\ find_edge g' s d = true
    /\ (forall s' d',
          edge_weight g' s' d'
          = if String.eqb s' s && String.eqb d' d then Fin w
            else edge_weight g s' d')
    /\ edge_cardinality g'
       = if find_edge g s d then edge_cardinality g
         else S (edge_cardinality g).
Proof.
  intros Hwf Hs Hd.
  destruct (_add_edge_spec g s d w Hwf Hs) as (g' & Hg' & Hw & Hc).
  destruct (_add_edge_well_formed g s d w Hwf Hs) as (g2 & Hg2 & Hwf' & Hn).
  rewrite Hg' in Hg2. injection Hg2 as <-.
  exists g'. unfold add_edge. rewrite Hs, Hd. split_and!; try done.
  rewrite find_edge_weight, Hw. by rewrite !String.eqb_refl.
Qed.

Lemma add_edge_between_nodes_witness :
  well_formed delete_scenario_graph = true
  /\ find_node delete_scenario_graph "c" = true
  /\ find_node delete_scenario_graph "b" = true
  /\ exists g', add_edge delete_scenario_graph "c" "b" 9 = Ok g'
                /\ find_edge g' "c" "b" = true
                /\ edge_cardinality g' = 5%nat.
Proof.
  split; [reflexivity|]. split; [reflexivity|]. split; [reflexivity|].
  destruct (add_edge_between_nodes delete_scenario_graph "c" "b" 9
              eq_refl eq_refl eq_refl) as (g' & Hg' & _ & _ & Hf & _ & Hc).
  exists g'. split; [exact Hg'|]. split; [exact Hf|exact Hc].
Defined.

(** X8: in a well-formed graph, [delete_edge] returns a well-formed graph
    in which [find_edge(src, dst)] is false; every other edge is as it
    was; [edge_cardinality] drops by one exactly when the edge was there;
    and deleting an edge that [add_edge] has just created between two
    nodes gives the original graph back. *)
Theorem delete_edge_removes (g : AdjacencyList) (s d : string) (w : Z) :
  well_formed g = true ->
  (exists g',
      delete_edge g s d = Ok g'
      /\ well_formed g' = true
      /\ find_edge g' s d = false
      /\ (forall s' d',
            edge_weight g' s' d'
            = if String.eqb s' s && String.eqb d' d then Inf
              else edge_weight g s' d')
      /\ (edge_cardinality g' + (if find_edge g s d then 1 else 0))%nat
         = edge_cardinality g)
  /\ (find_node g s = true -> find_node g d = true ->
      find_edge g s d = false ->
      exists g1, add_edge g s d w = Ok g1 /\ delete_edge g1 s d = Ok g).
Proof.
  intros Hwf. split.
  - unfold delete_edge. destruct (find_edge g s d) eqn:He; cbn [negb].
    + destruct (_delete_edge_spec g s d Hwf) as (g' & -> & Hwf' & Hw & Hc);
        [by eapply find_edge_find_node|].
      exists g'. rewrite He in Hc. split_and!; try done.
      rewrite find_edge_weight, Hw. by rewrite !String.eqb_refl.
    + exists g. split_and!; try done.
      intros s' d'. destruct (String.eqb_spec s' s) as [->|]; [|done].
      destruct (String.eqb_spec d' d) as [->|]; [|done]. simpl.
      rewrite find_edge_weight in He. by destruct (edge_weight g s d).
  - intros Hs Hd He.
    destruct (_add_edge_spec g s d w Hwf Hs) as (g1 & Hg1 & Hw & _).
    exists g1. unfold add_edge, delete_edge. rewrite Hs, Hd. cbn [negb orb].
    split; [done|].
    assert (find_edge g1 s d = true) as ->.
    { rewrite find_edge_weight, Hw. by rewrite !String.eqb_refl. }
    cbn [negb]. apply (_delete_add_edge g s d w g1); try done.
    unfold well_formed in Hwf. by apply andb_true_iff in Hwf as [? _].
Qed.

Lemma delete_edge_removes_witness :
  well_formed delete_scenario_graph = true
  /\ delete_edge delete_scenario_graph "b" "a"
     = Ok [Node "a" None [Edge.Cell "b" 2];
           Node "b" None [Edge.Cell "b" 5];
           Node "c" None [Edge.Cell "a" 3]]
  /\ exists g', delete_edge delete_scenario_graph "b" "a" = Ok g'
                /\ find_edge g' "b" "a" = false.
Proof.
  split; [reflexivity|]. split; [reflexivity|].
  destruct (delete_edge_removes delete_scenario_graph "b" "a" 0 eq_refl)
    as [(g' & Hg' & _ & Hf & _) _].
  exists g'. split; [exact Hg'|exact Hf].
Defined.

(** ** class AdjacencyList: listings and counts *)

Section Listings.

Implicit Types (g : AdjacencyList) (es : Edge.t) (s d nm : string) (w : Z).

Lemma edge_list_elem es nm s d w :
  (s, d, w) ∈ Edge.list es nm <-> s = nm /\ Edge.Cell d w ∈ es.
Proof.
  induction es as [|hd tl IH]; cbn [Edge.list].
  - split; [by intros ?%elem_of_nil|]. by intros [_ ?%elem_of_nil].
  - rewrite !elem_of_cons, IH. destruct hd as [d0 w0]. simpl. split.
    + intros [[= -> -> ->]|[-> ?]]; auto.
    + intros [-> [[= -> ->]|?]]; auto.
Qed.

Lemma edge_list_length es nm : length (Edge.list es nm) = Edge.cardinality es.
Proof. induction es as [|hd tl IH]; simpl; lia. Qed.

Lemma edge_lookup_Fin es d w :
  ascending (Edge.dst <$> es) = true ->
  edge_lookup es d = Fin w <-> Edge.Cell d w ∈ es.
Proof.
  induction es as [|[d0 w0] tl IH]; cbn [edge_lookup Edge.dst Edge.weight].
  - intros _. split; [done|]. by intros ?%elem_of_nil.
  - rewrite fmap_cons. intros [Hall Htl]%ascending_cons. simpl in Hall.
    rewrite elem_of_cons. destruct (String.eqb_spec d d0) as [->|Hne].
    + split.
      * intros [= <-]. by left.
      * intros [[= ->]|Hin]; [done|]. exfalso.
        rewrite Forall_forall in Hall. specialize (Hall d0).
        rewrite ltb_irrefl in Hall.
        apply (list_elem_of_fmap_2 Edge.dst) in Hin. by specialize (Hall Hin).
    + rewrite (IH Htl). split; [auto|]. by intros [[= -> _]|?].
Qed.

Lemma list_edges_source g s d w :
  (s, d, w) ∈ list_edges g -> find_node g s = true.
Proof.
  induction g as [|hd tl IH]; cbn [list_edges find_node].
  - by intros ?%elem_of_nil.
  - rewrite elem_of_app. intros [[-> _]%edge_list_elem|Hin].
    + by rewrite String.eqb_refl.
    + rewrite (IH Hin). by destruct (String.eqb s (name hd)).
Qed.

Lemma list_edges_length g : length (list_edges g) = edge_cardinality g.
Proof.
  induction g as [|hd tl IH]; cbn [list_edges edge_cardinality]; [done|].
  by rewrite length_app, edge_list_length, IH.
Qed.

Lemma list_edges_weight g s d w :
  well_formed g = true ->
  (s, d, w) ∈ list_edges g <-> edge_weight g s d = Fin w.
Proof.
  induction g as [|hd tl IH]; cbn [list_edges edge_weight].
  - intros _. split; [by intros ?%elem_of_nil|done].
  - intros (Hasc & Hes & Hwf)%well_formed_cons.
    rewrite elem_of_app, edge_list_elem, (IH Hwf).
    destruct (String.eqb_spec s (name hd)) as [->|Hne].
    + rewrite edge_lookup_Fin by done. split; [|by auto].
      intros [[_ ?]|Hw]; [done|]. exfalso.
      assert (find_node tl (name hd) = true) as Hf.
      { destruct (find_node tl (name hd)) eqn:Hf; [done|].
        by rewrite edge_weight_absent in Hw. }
      pose proof (member_above_head hd tl (name hd) Hasc Hf) as Hlt.
      by rewrite ltb_irrefl in Hlt.
    + split; [|by auto]. by intros [[? _]|?].
Qed.

Lemma edge_list_sorted es nm :
  ascending (Edge.dst <$> es) = true ->
  StronglySorted edge_before (Edge.list es nm).
Proof.
  induction es as [|hd tl IH]; cbn [Edge.list]; [constructor|].
  rewrite fmap_cons. intros [Hall Htl]%ascending_cons.
  apply StronglySorted_cons. split; [|by apply IH].
  apply Forall_forall. intros [[s d] w] [-> Hin]%edge_list_elem.
  right. split; [done|]. simpl. rewrite Forall_forall in Hall.
  apply Hall. by apply (list_elem_of_fmap_2 Edge.dst) in Hin.
Qed.

Lemma list_edges_sorted g :
  well_formed g = true -> StronglySorted edge_before (list_edges g).
Proof.
  induction g as [|hd tl IH]; cbn [list_edges]; [constructor|].
  intros (Hasc & Hes & Hwf)%well_formed_cons.
  apply StronglySorted_app_2; [|by apply edge_list_sorted|by apply IH].
  intros [[s1 d1] w1] [[s2 d2] w2] [-> _]%edge_list_elem Hin.
  left. simpl. apply (member_above_head hd tl s2 Hasc).
  by eapply list_edges_source.
Qed.

Lemma self_loops_filter g :
  self_loops g
  = length (filter (fun nd => Edge.find (edges nd) (name nd) = true) g).
Proof.
  induction g as [|hd tl IH]; cbn [self_loops find_edge]; [done|].
  rewrite String.eqb_refl, filter_cons.
  destruct (Edge.find (edges hd) (name hd)) eqn:Hf.
  - rewrite decide_True by done. simpl. lia.
  - by rewrite decide_False by done.
Qed.

Lemma edge_list_self_loops es nm :
  ascending (Edge.dst <$> es) = true ->
  length (filter is_self_loop (Edge.list es nm))
  = if Edge.find es nm then 1%nat else 0%nat.
Proof.
  induction es as [|hd tl IH]; cbn [Edge.list Edge.find]; [done|].
  rewrite fmap_cons. intros [Hall Htl]%ascending_cons. rewrite filter_cons.
  destruct (String.eqb_spec nm (Edge.dst hd)) as [->|Hne].
  - rewrite decide_True by done. simpl. rewrite (IH Htl).
    by rewrite edge_find_above.
  - rewrite decide_False by (unfold is_self_loop; simpl; congruence).
    by apply IH.
Qed.

Lemma list_edges_self_loops g :
  well_formed g = true ->
  length (filter is_self_loop (list_edges g)) = self_loops g.
Proof.
  induction g as [|hd tl IH]; cbn [list_edges self_loops find_edge]; [done|].
  intros (Hasc & Hes & Hwf)%well_formed_cons.
  rewrite filter_app, length_app, edge_list_self_loops, (IH Hwf) by done.
  rewrite String.eqb_refl. destruct (Edge.find (edges hd) (name hd)); lia.
Qed.

End Listings.

(** X9: [list_edges] has [edge_cardinality] entries and [list_nodes] has
    [node_cardinality] entries.  In a well-formed graph [list_edges] is
    strictly ascending by source, then destination, and it holds the
    triple [(src, dst, w)] exactly when the graph has the edge
    [src -> dst] with weight [w]; [find_edge] is true exactly for the
    pairs listed. *)
Theorem list_edges_lists_the_edges (g : AdjacencyList) :
  length (list_edges g) = edge_cardinality g
  /\ length (list_nodes g) = node_cardinality g
  /\ (well_formed g = true ->
      StronglySorted edge_before (list_edges g)
      /\ (forall s d w,
            (s, d, w) ∈ list_edges g <-> edge_weight g s d = Fin w)
      /\ (forall s d,
            find_edge g s d = true <-> exists w, (s, d, w) ∈ list_edges g)).
Proof.
  split_and!.
  - apply list_edges_length.
  - by rewrite list_nodes_fmap, length_fmap, node_cardinality_length.
  - intros Hwf. split_and!.
    + by apply list_edges_sorted.
    + intros s d w. by apply list_edges_weight.
    + intros s d. rewrite find_edge_weight. split.
      * destruct (edge_weight g s d) as [w|] eqn:Hw; [|done]. intros _.
        exists w. by apply list_edges_weight.
      * intros [w Hw%list_edges_weight]; [|done]. by rewrite Hw.
Qed.

(** X10: [self_loops] counts the nodes that have an edge towards their own
    name, so it is at most the number of nodes; in a well-formed graph it
    is the number of triples of [list_edges] whose source is their
    destination. *)
Theorem self_loops_counts (g : AdjacencyList) :
  self_loops g
  = length (filter (fun nd => Edge.find (edges nd) (name nd) = true) g)
  /\ (self_loops g <= node_cardinality g)%nat
  /\ (well_formed g = true ->
      self_loops g = length (filter is_self_loop (list_edges g))).
Proof.
  split_and!.
  - apply self_loops_filter.
  - rewrite self_loops_filter, node_cardinality_length. apply length_filter.
  - intros Hwf. symmetry. by apply list_edges_self_loops.
Qed.

(** ** class AdjacencyList: positions and the adjacency matrix *)

Section Positions.

Implicit Types (g : AdjacencyList) (d : string).

Lemma find_dst_index_get_node g d r :
  find_dst_index g d = Ok r <-> get_node g d = PyNode r.
Proof.
  revert r. induction g as [|hd tl IH]; intros r;
    cbn [find_dst_index get_node]; [done|].
  destruct (String.eqb d (name hd)).
  - split; intros [= <-]; done.
  - destruct (find_dst_index tl d) as [i|e|] eqn:Hi;
      destruct (get_node tl d) as [v|z] eqn:Hv; simpl.
    + pose proof (proj1 (IH i) eq_refl) as [= ->].
      rewrite Nat.add_1_r. split; intros [= <-]; done.
    + by pose proof (proj1 (IH i) eq_refl).
    + by pose proof (proj2 (IH v) eq_refl).
    + done.
    + by pose proof (proj2 (IH v) eq_refl).
    + done.
Qed.

Lemma find_dst_index_name g d r :
  find_dst_index g d = Ok r -> list_nodes g !! r = Some d.
Proof.
  intros Hr. pose proof (find_dst_index_spec g d) as H. rewrite Hr in H.
  destruct H as [H _]. by rewrite list_nodes_fmap, list_lookup_fmap.
Qed.

Lemma find_dst_index_of_name g d r :
  ascending (list_nodes g) = true -> list_nodes g !! r = Some d ->
  find_dst_index g d = Ok r.
Proof.
  intros Hasc Hr.
  assert (find_node g d = true) as Hf.
  { apply find_node_true. by eapply list_elem_of_lookup_2. }
  destruct (find_dst_index_member g d Hf) as (r' & -> & _ & Hr').
  f_equal. apply (name_position g r' r d Hasc); [done|].
  by rewrite <- list_lookup_fmap, <- list_nodes_fmap.
Qed.

Lemma edge_weight_at g i nd d :
  ascending (list_nodes g) = true -> g !! i = Some nd ->
  edge_weight g (name nd) d = edge_lookup (edges nd) d.
Proof.
  revert i. induction g as [|hd tl IH]; intros i Hasc Hi; [done|].
  cbn [edge_weight]. destruct i as [|i]; simpl in Hi.
  - injection Hi as ->. by rewrite String.eqb_refl.
  - assert (find_node tl (name nd) = true) as Hf.
    { apply find_node_true. rewrite list_nodes_fmap.
      apply list_elem_of_fmap_2. by eapply list_elem_of_lookup_2. }
    pose proof (member_above_head hd tl (name nd) Hasc Hf) as Hlt.
    rewrite String.eqb_sym, (ltb_neq _ _ Hlt).
    apply (IH i); [|done]. cbn [list_nodes] in Hasc.
    by eapply ascending_tail.
Qed.

Lemma add_row_raises g n (es : Edge.t) i (m : matrix num) :
  length g = n -> (i < n)%nat -> sq n m ->
  forallb (fun e => find_node g (Edge.dst e)) es = false ->
  for_each es
    (fun e m =>
       dst_index ← find_dst_index g (Edge.dst e);
       mat_set m i dst_index (Fin (Edge.weight e))) m = Raise AttributeError.
Proof.
  intros Hn Hi. revert m. induction es as [|e es IH]; intros m Hsq; [done|].
  cbn [forallb for_each]. destruct (find_node g (Edge.dst e)) eqn:He.
  - simpl. intros Hes.
    destruct (find_dst_index_member g _ He) as (r & -> & Hr & _).
    cbn [mbind result_bind].
    destruct (mat_set_sq n m i r (Fin (Edge.weight e))) as (m1 & -> & Hsq1 & _);
      [done|done|lia|]. cbn [mbind result_bind]. by apply IH.
  - intros _. pose proof (find_dst_index_spec g (Edge.dst e)) as H.
    destruct (find_dst_index g (Edge.dst e)) as [r|x|]; [|by destruct H as [-> _]|done].
    destruct H as [H _]. apply find_node_false in He. destruct He.
    rewrite list_nodes_fmap. apply list_elem_of_lookup. exists r.
    by rewrite list_lookup_fmap.
Qed.

Lemma add_rows_raises g n rest i (m : matrix num) :
  length g = n -> (i + length rest = n)%nat -> sq n m ->
  forallb (fun nd => forallb (fun e => find_node g (Edge.dst e)) (edges nd))
    rest = false ->
  add_rows g rest i m = Raise AttributeError.
Proof.
  intros Hn. revert i m.
  induction rest as [|hd tl IH]; intros i m Hi Hsq Hrest; [done|].
  cbn [forallb add_rows] in *. simpl in Hi.
  destruct (forallb (fun e => find_node g (Edge.dst e)) (edges hd)) eqn:Hhd.
  - destruct (add_row_returns g n (edges hd) i m) as (m1 & -> & Hsq1);
      [done|lia|done|done|]. cbn [mbind result_bind].
    apply IH; [lia|done|done].
  - rewrite (add_row_raises g n (edges hd) i m); [done..|lia|done|done].
Qed.

End Positions.

(** X11: the two lookups by name agree: [find_dst_index] returns the
    position [r] exactly when [get_node] returns the node at position [r],
    and that node carries the name looked up.  For a name that is not a
    node [find_dst_index] raises [AttributeError].  With strictly
    ascending names the position of a name in [list_nodes] is the index
    [find_dst_index] returns for it. *)
Theorem find_dst_index_is_position (g : AdjacencyList) (d : string) :
  (forall r, find_dst_index g d = Ok r <-> get_node g d = PyNode r)
  /\ (forall r, find_dst_index g d = Ok r -> list_nodes g !! r = Some d)
  /\ (find_node g d = false -> find_dst_index g d = Raise AttributeError)
  /\ (ascending (list_nodes g) = true ->
      forall r, list_nodes g !! r = Some d -> find_dst_index g d = Ok r).
Proof.
  split_and!.
  - intros r. apply find_dst_index_get_node.
  - intros r. apply find_dst_index_name.
  - intros Hf. pose proof (find_dst_index_spec g d) as H.
    destruct (find_dst_index g d) as [r|e|]; [|by destruct H as [-> _]|done].
    destruct H as [H _]. apply find_node_false in Hf. destruct Hf.
    rewrite list_nodes_fmap. apply list_elem_of_lookup. exists r.
    by rewrite list_lookup_fmap.
  - intros Hasc r. by apply find_dst_index_of_name.
Qed.

(** X12: for a well-formed, non-empty graph whose edges point to nodes,
    [adjacency_matrix] returns an N x N matrix whose rows and columns
    follow [list_nodes]: the cell [(i, j)] holds the weight of the edge
    from the [i]-th to the [j]-th name, and [inf] exactly when
    [find_edge] finds no such edge. *)
Theorem adjacency_matrix_holds_weights (g : AdjacencyList) :
  well_formed g = true -> edges_closed g = true -> g <> [] ->
  exists m,
    adjacency_matrix g = Ok m
    /\ sq (node_cardinality g) m
    /\ forall i j si sj,
         list_nodes g !! i = Some si -> list_nodes g !! j = Some sj ->
         cell_at m i j = Some (edge_weight g si sj)
         /\ (cell_at m i j = Some Inf <-> find_edge g si sj = false).
Proof.
  intros Hwf Hc Hne.
  destruct (add_list_to_matrix_spec g Hwf Hc) as (m & Hm & Hsq & Hcells).
  exists m. rewrite node_cardinality_length. split_and!; [|done|].
  { destruct g; [done|]. unfold adjacency_matrix.
    by rewrite node_cardinality_length. }
  intros i j si sj Hi Hj. rewrite list_nodes_fmap, list_lookup_fmap in Hi, Hj.
  destruct (g !! i) as [a|] eqn:Ha; [|done]. injection Hi as <-.
  destruct (g !! j) as [b|] eqn:Hb; [|done]. injection Hj as <-.
  pose proof (lookup_lt_Some _ _ _ Ha) as Hlti.
  pose proof (lookup_lt_Some _ _ _ Hb) as Hltj.
  destruct (sq_cell_is_Some _ m i j Hsq Hlti Hltj) as [x Hx].
  pose proof (Hcells i j Hlti Hltj) as Hcell.
  rewrite (cell_of_cell_at _ _ _ _ Hx) in Hcell. subst x.
  assert (edge_cost g i j = edge_weight g (name a) (name b)) as Hcost.
  { unfold edge_cost. rewrite Ha, Hb. symmetry. apply (edge_weight_at g i).
    - unfold well_formed in Hwf. by apply andb_true_iff in Hwf as [? _].
    - done. }
  rewrite Hx, Hcost. split; [done|].
  rewrite find_edge_weight.
  destruct (edge_weight g (name a) (name b)); split; done.
Qed.

Lemma adjacency_matrix_holds_weights_witness :
  well_formed self_loop_graph = true
  /\ edges_closed self_loop_graph = true
  /\ self_loop_graph <> []
  /\ adjacency_matrix self_loop_graph = Ok [[Fin 10; Fin 1]; [Fin 1; Inf]]
  /\ exists m, adjacency_matrix self_loop_graph = Ok m
               /\ sq (node_cardinality self_loop_graph) m.
Proof.
  split; [reflexivity|]. split; [reflexivity|]. split; [discriminate|].
  split; [reflexivity|].
  destruct (adjacency_matrix_holds_weights self_loop_graph eq_refl eq_refl)
    as (m & Hm & Hsq & _); [discriminate|].
  exists m. split; [exact Hm|exact Hsq].
Defined.

(** X13: [floyd] raises [AttributeError] exactly when some edge points to
    a name that is not a node, and then [warshall] and [adjacency_matrix]
    raise it too.  When every edge points to a node, [floyd] returns an
    N x N matrix or raises [OverflowError], which is what adding [inf] to
    an integer too large for a float raises; it raises nothing else. *)
Theorem floyd_raises_on_dangling_edge (g : AdjacencyList) :
  (edges_closed g = false <-> floyd g = Raise AttributeError)
  /\ (edges_closed g = false ->
      warshall g = Raise AttributeError
      /\ adjacency_matrix g = Raise AttributeError)
  /\ (edges_closed g = true ->
      (exists m, floyd g = Ok m /\ sq (node_cardinality g) m)
      \/ floyd g = Raise OverflowError).
Proof.
  assert (edges_closed g = false ->
          add_list_to_matrix g (inf_matrix (length g))
          = Raise AttributeError) as Hraise.
  { intros Hc. apply (add_rows_raises g (length g)); [done|simpl; lia| |done].
    apply sq_inf_matrix. }
  assert (edges_closed g = false -> floyd g = Raise AttributeError) as Hfloyd.
  { intros Hc. unfold floyd. by rewrite node_cardinality_length, Hraise. }
  assert (edges_closed g = true ->
          (exists m, floyd g = Ok m /\ sq (node_cardinality g) m)
          \/ floyd g = Raise OverflowError) as Hclosed.
  { intros Hc. pose proof (floyd_outcome g Hc) as H.
    rewrite node_cardinality_length.
    destruct (floyd g) as [m|e|]; [left; by exists m|right; by subst e|done]. }
  split_and!; [| |done].
  - split; [done|]. intros Hr. destruct (edges_closed g) eqn:Hc; [|done].
    destruct (Hclosed eq_refl) as [(m & Hm & _)|Ho]; congruence.
  - intros Hc. split.
    + unfold warshall. by rewrite (Hfloyd Hc).
    + destruct g; [done|]. unfold adjacency_matrix.
      rewrite node_cardinality_length. by apply Hraise.
Qed.

(** ** Cleaning up after [delete_node] *)

Section Cleanup.

Implicit Types (g : AdjacencyList) (n s d : string).

Lemma list_nodes_delete_edges g n : list_nodes (delete_edges g n) = list_nodes g.
Proof.
  induction g as [|hd tl IH]; cbn [delete_edges list_nodes]; [done|].
  by rewrite IH.
Qed.

Lemma find_node_delete_edges g n s :
  find_node (delete_edges g n) s = find_node g s.
Proof.
  induction g as [|hd tl IH]; cbn [delete_edges find_node]; [done|].
  by rewrite IH.
Qed.

Lemma find_edge_delete_edges g n s d :
  well_formed g = true ->
  find_edge (delete_edges g n) s d
  = if String.eqb d n then false else find_edge g s d.
Proof.
  induction g as [|hd tl IH]; cbn [delete_edges find_edge].
  - intros _. by destruct (String.eqb d n).
  - intros (Hasc & Hes & Hwf)%well_formed_cons.
    cbn [set_edges name edges]. destruct (String.eqb s (name hd)); [|by apply IH].
    destruct (String.eqb_spec d n) as [Heq|Hne].
    + subst d. by apply edge_find_delete_same.
    + by apply edge_find_delete_other.
Qed.

Lemma find_node_delete_node g n s :
  ascending (list_nodes g) = true ->
  find_node (delete_node g n) s
  = if String.eqb s n then false else find_node g s.
Proof.
  intros Hasc. rewrite delete_node_filter by done.
  destruct (String.eqb_spec s n) as [->|Hne]; [apply find_node_filter_out|].
  destruct (find_node g s) eqn:Hf.
  - apply find_node_true. apply find_node_true in Hf.
    rewrite list_nodes_fmap in *.
    apply list_elem_of_fmap in Hf as (nd & -> & Hnd).
    apply list_elem_of_fmap_2, list_elem_of_filter. done.
  - apply find_node_false. apply find_node_false in Hf.
    rewrite list_nodes_fmap in *. intros (nd & -> & Hnd)%list_elem_of_fmap.
    apply Hf, list_elem_of_fmap_2.
    by apply list_elem_of_filter in Hnd as [_ ?].
Qed.

Lemma edges_closed_cleanup g n :
  well_formed g = true -> edges_closed g = true ->
  edges_closed (delete_edges (delete_node g n) n) = true.
Proof.
  intros Hwf Hc. pose proof (well_formed_delete_node g n Hwf) as Hwf1.
  pose proof Hwf as [Hasc _]%andb_true_iff.
  pose proof Hwf1 as [_ Hes1]%andb_true_iff.
  unfold edges_closed in *. rewrite forallb_forall in Hc, Hes1.
  apply forallb_forall. intros nd2 Hnd2. apply forallb_forall. intros e He.
  rewrite delete_edges_fmap in Hnd2. apply list_elem_of_In in Hnd2.
  apply list_elem_of_fmap in Hnd2 as (nd & -> & Hnd).
  cbn [set_edges edges] in He.
  rewrite edge_delete_filter in He by (by apply Hes1, list_elem_of_In).
  apply list_elem_of_In, list_elem_of_filter in He as [Hne He].
  rewrite find_node_delete_edges, find_node_delete_node by done.
  rewrite (proj2 (String.eqb_neq (Edge.dst e) n)) by done.
  rewrite delete_node_filter in Hnd by done.
  apply list_elem_of_filter in Hnd as [_ Hnd].
  specialize (Hc nd (proj1 (list_elem_of_In _ _) Hnd)).
  rewrite forallb_forall in Hc. by apply Hc, list_elem_of_In.
Qed.

End Cleanup.

(** X14: in a well-formed graph, [delete_node(n)] followed by
    [delete_edges(n)] leaves a well-formed graph without the node [n] and
    without any edge towards [n], and keeps every other edge between the
    remaining nodes; if every edge pointed to a node before, every edge
    points to a node afterwards. *)
Theorem delete_node_cleanup (g : AdjacencyList) (n : string) :
  well_formed g = true ->
  let g' := delete_edges (delete_node g n) n in
  well_formed g' = true
  /\ (forall s, find_node g' s = if String.eqb s n then false
                                 else find_node g s)
  /\ (forall s d, find_edge g' s d
                  = if String.eqb d n || String.eqb s n then false
                    else find_edge g s d)
  /\ (edges_closed g = true -> edges_closed g' = true).
Proof.
  intros Hwf g'. pose proof (well_formed_delete_node g n Hwf) as Hwf1.
  pose proof Hwf as [Hasc _]%andb_true_iff. split_and!.
  - by apply well_formed_delete_edges.
  - intros s. subst g'. rewrite find_node_delete_edges.
    by apply find_node_delete_node.
  - intros s d. subst g'. rewrite find_edge_delete_edges by done.
    destruct (String.eqb d n); [done|]. cbn [orb].
    rewrite delete_node_filter by done. clear Hwf1 Hwf.
    induction g as [|hd tl IH]; [by destruct (String.eqb s n)|].
    cbn [list_nodes] in Hasc. pose proof (ascending_tail _ _ Hasc) as Htl.
    rewrite filter_cons. cbn [find_edge].
    destruct (decide (name hd <> n)) as [Hne|Heq].
    + cbn [find_edge]. destruct (String.eqb_spec s (name hd)) as [->|Hs].
      * by rewrite (proj2 (String.eqb_neq (name hd) n)).
      * by apply IH.
    + assert (name hd = n) as Hn by (by destruct (decide (name hd = n))).
      rewrite (IH Htl). rewrite <- Hn.
      by destruct (String.eqb s (name hd)).
  - intros Hc. by apply edges_closed_cleanup.
Qed.

Lemma delete_node_cleanup_witness :
  well_formed delete_scenario_graph = true
  /\ edges_closed delete_scenario_graph = true
  /\ edges_closed (delete_node delete_scenario_graph "a") = false
  /\ edges_closed
       (delete_edges (delete_node delete_scenario_graph "a") "a") = true.
Proof.
  split; [reflexivity|]. split; [reflexivity|]. split; [reflexivity|].
  apply (delete_node_cleanup delete_scenario_graph "a" eq_refl). reflexivity.
Defined.

(** ** [get_min_node] *)

Section MinNode.

Implicit Types (g : AdjacencyList) (q : list nat) (x y z : num).

Lemma num_ltb_le x y : Num.ltb x y = true -> Num.le x y.
Proof.
  destruct x, y; unfold Num.le; simpl; try done.
  intros H%Z.ltb_lt. apply Z.ltb_ge. lia.
Qed.

Lemma num_lt_le_trans x y z :
  Num.ltb x y = true -> Num.le y z -> Num.ltb x z = true.
Proof.
  destruct x, y, z; unfold Num.le; simpl; try done.
  rewrite Z.ltb_ge, !Z.ltb_lt. lia.
Qed.

Lemma num_le_sum_nonneg x y : Num.le (Fin 0) y -> Num.le x (Num.sum x y).
Proof.
  destruct x, y; unfold Num.le; simpl; try done.
  rewrite !Z.ltb_ge. lia.
Qed.

Lemma scratch_distance_info g r x p :
  info (g !!! r) = Some (x, p) -> scratch_distance g r = x.
Proof. unfold scratch_distance. by intros ->. Qed.

Lemma scratch_distance_info0 g0 g r :
  scratch_of g0 g -> (r < length g0)%nat ->
  info0 (g !!! r) = Ok (scratch_distance g r).
Proof.
  intros Hs Hr. destruct (scratch_of_info0 g0 g r Hs Hr) as (x & p & Hx).
  by rewrite (info0_eq _ _ _ Hx), (scratch_distance_info _ _ _ _ Hx).
Qed.

(** [get_min_node] pops the first reference of least scratch distance. *)
Lemma get_min_node_spec g0 g q :
  scratch_of g0 g -> Forall (fun r => (r < length g0)%nat) q -> q <> [] ->
  exists idx u,
    get_min_node g q = Ok (u, delete idx q)
    /\ q !! idx = Some u
    /\ (forall v, v ∈ q ->
          Num.le (scratch_distance g u) (scratch_distance g v))
    /\ (forall i v, (i < idx)%nat -> q !! i = Some v ->
          Num.ltb (scratch_distance g u) (scratch_distance g v) = true).
Proof.
  intros Hs Hq Hne. unfold get_min_node.
  destruct (for_range_inv
              (fun i mi =>
                 (mi < length q)%nat
                 /\ (forall k v, (k < i)%nat -> q !! k = Some v ->
                       Num.le (scratch_distance g (q !!! mi))
                              (scratch_distance g v))
                 /\ (forall k v, (k < mi)%nat -> q !! k = Some v ->
                       Num.ltb (scratch_distance g (q !!! mi))
                               (scratch_distance g v) = true))
              (length q)
              (fun i min_index =>
                 a ← py_get q i;
                 x ← info0 (g !!! a);
                 b ← py_get q min_index;
                 y ← info0 (g !!! b);
                 Ok (if Num.ltb x y then i else min_index)) 0%nat)
    as (mi & -> & Hmi & Hle & Hlt).
  - split_and!; [destruct q; [done|simpl; lia]|intros; lia..].
  - intros i mi Hi (Hmi & Hle & Hlt).
    destruct (lookup_lt_is_Some_2 q i Hi) as [a Ha].
    destruct (lookup_lt_is_Some_2 q mi Hmi) as [b Hb].
    assert (a < length g0)%nat as Hav
      by (by eapply (Forall_lookup_1 _ _ _ _ Hq)).
    assert (b < length g0)%nat as Hbv
      by (by eapply (Forall_lookup_1 _ _ _ _ Hq)).
    rewrite (py_get_Some _ _ _ Ha). cbn [mbind result_bind].
    rewrite (scratch_distance_info0 g0 g a Hs Hav). cbn [mbind result_bind].
    rewrite (py_get_Some _ _ _ Hb). cbn [mbind result_bind].
    rewrite (scratch_distance_info0 g0 g b Hs Hbv). cbn [mbind result_bind].
    rewrite (list_lookup_total_correct _ _ _ Hb) in Hle, Hlt.
    eexists. split; [done|].
    destruct (Num.ltb (scratch_distance g a) (scratch_distance g b)) eqn:Hab.
    + rewrite (list_lookup_total_correct _ _ _ Ha). split_and!; [done| |].
      * intros k v Hk Hv. destruct (decide (k = i)) as [->|Hki].
        -- assert (v = a) as -> by congruence. apply num_le_refl.
        -- apply num_ltb_le, (num_lt_le_trans _ _ _ Hab).
           apply (Hle k); [lia|done].
      * intros k v Hk Hv. apply (num_lt_le_trans _ _ _ Hab).
        by apply (Hle k).
    + rewrite (list_lookup_total_correct _ _ _ Hb). split_and!; [done| |done].
      intros k v Hk Hv. destruct (decide (k = i)) as [->|Hki].
      * assert (v = a) as -> by congruence. exact Hab.
      * apply (Hle k); [lia|done].
  - cbn [mbind result_bind].
    destruct (lookup_lt_is_Some_2 q mi Hmi) as [u Hu].
    rewrite (py_get_Some _ _ _ Hu). cbn [mbind result_bind].
    rewrite (list_lookup_total_correct _ _ _ Hu) in Hle, Hlt.
    exists mi, u. split_and!; [done|done| |done].
    intros v [k Hk]%list_elem_of_lookup_1. apply (Hle k); [|done].
    by apply lookup_lt_Some in Hk.
Qed.

End MinNode.

(** ** Dijkstra: the distances are the least path costs *)

Section DijkstraCorrect.

Variable g0 : AdjacencyList.
Hypothesis wf : well_formed g0 = true.
Hypothesis closed : edges_closed g0 = true.
Hypothesis nonneg : weights_nonneg g0 = true.
Hypothesis in_float : weights_float g0 = true.

Implicit Types (g : AdjacencyList) (q s : list nat) (u v j st : nat).

Lemma scratch_of_name g r :
  scratch_of g0 g -> (r < length g0)%nat -> name (g !!! r) = name (g0 !!! r).
Proof.
  intros Hs Hr. pose proof (scratch_of_length _ _ Hs) as Hlen.
  destruct Hs as (Hn & _ & _).
  rewrite <- (list_lookup_total_fmap name g) by lia.
  rewrite <- (list_lookup_total_fmap name g0) by lia. by rewrite Hn.
Qed.

Lemma names_ascending : ascending (list_nodes g0) = true.
Proof. by apply andb_true_iff in wf as [? _]. Qed.

Lemma edges_ascending u :
  (u < length g0)%nat -> ascending (Edge.dst <$> edges (g0 !!! u)) = true.
Proof.
  intros Hu. apply andb_true_iff in wf as [_ Hes].
  rewrite forallb_forall in Hes. apply Hes, list_elem_of_In.
  eapply list_elem_of_lookup_2. by apply list_lookup_lookup_total_lt.
Qed.

Lemma weights_nonneg_lookup u e :
  (u < length g0)%nat -> e ∈ edges (g0 !!! u) -> 0 <= Edge.weight e.
Proof.
  intros Hu He. pose proof nonneg as Hn. unfold weights_nonneg in Hn.
  rewrite forallb_forall in Hn. specialize (Hn (g0 !!! u)).
  rewrite forallb_forall in Hn. apply Z.leb_le, Hn; [|by apply list_elem_of_In].
  apply list_elem_of_In. eapply list_elem_of_lookup_2.
  by apply list_lookup_lookup_total_lt.
Qed.

Lemma edge_cost_lookup u v :
  (u < length g0)%nat -> (v < length g0)%nat ->
  edge_cost g0 u v = edge_lookup (edges (g0 !!! u)) (name (g0 !!! v)).
Proof.
  intros Hu Hv. unfold edge_cost.
  by rewrite (list_lookup_lookup_total_lt g0 u Hu),
             (list_lookup_lookup_total_lt g0 v Hv).
Qed.

Lemma position_of_name v r :
  (v < length g0)%nat -> name <$> g0 !! r = Some (name (g0 !!! v)) -> r = v.
Proof.
  intros Hv Hr. apply (name_position g0 r v (name (g0 !!! v)));
    [apply names_ascending|done|].
  by rewrite (list_lookup_lookup_total_lt g0 v Hv).
Qed.

Lemma relax_node g u v w :
  scratch_of g0 g -> (u < length g0)%nat -> (v < length g0)%nat ->
  Num.float_ok w = true ->
  relax g u (PyNode v) w
  = Ok (if Num.ltb (Num.sum (scratch_distance g u) (Fin w))
                   (scratch_distance g v)
        then store_info g v
               (Some (Num.sum (scratch_distance g u) (Fin w),
                      Some (name (g0 !!! u))))
        else g).
Proof.
  intros Hs Hu Hv Hw.
  destruct (scratch_of_info0 g0 g v Hs Hv) as (dv & pv & Hdv).
  destruct (scratch_of_info0 g0 g u Hs Hu) as (du & pu & Hdu).
  rewrite (relax_unfold g u v w _ _ _ _ Hdv Hdu), (num_add_weight du w Hw).
  cbn [mbind result_bind]. rewrite (scratch_of_name g u Hs Hu).
  by rewrite (scratch_distance_info _ _ _ _ Hdv),
             (scratch_distance_info _ _ _ _ Hdu).
Qed.

(** The edge loop of [dijkstra] over the edges [es] of the popped node
    [u]. *)
Lemma relax_edges_spec (es : Edge.t) g u :
  scratch_of g0 g -> (u < length g0)%nat ->
  ascending (Edge.dst <$> es) = true ->
  Forall (fun e => find_node g0 (Edge.dst e) = true
                  /\ 0 <= Edge.weight e
                  /\ Num.float_ok (Edge.weight e) = true) es ->
  exists g',
    for_each es
      (fun edge g => relax g u (get_node g (Edge.dst edge)) (Edge.weight edge))
      g = Ok g'
    /\ scratch_of g0 g'
    /\ forall v, (v < length g0)%nat ->
         info (g' !!! v) = relaxed_info g0 es g u v.
Proof.
  intros Hs Hu. revert g Hs.
  induction es as [|e es IH]; intros g Hs Hasc Hes.
  - exists g. split_and!; [done..|]. intros v Hv. unfold relaxed_info.
    cbn [edge_lookup]. by rewrite num_sum_inf_r.
  - rewrite fmap_cons in Hasc. pose proof Hasc as [Habove Hasc']%ascending_cons.
    apply Forall_cons in Hes as [(Hdst & Hw & Hfl) Hes]. cbn [for_each].
    pose proof Hs as (Hn & _ & _).
    pose proof (scratch_of_length _ _ Hs) as Hlen.
    rewrite <- (find_node_names g g0 _ Hn) in Hdst.
    destruct (get_node_member g _ Hdst) as (v0 & Hv0 & Hlt0).
    rewrite Hlen in Hlt0.
    assert (name (g0 !!! v0) = Edge.dst e) as Hname.
    { pose proof (get_node_spec g (Edge.dst e)) as H. rewrite Hv0 in H.
      destruct H as (_ & H & _). rewrite <- (scratch_of_name g v0 Hs Hlt0).
      rewrite list_lookup_lookup_total_lt in H by lia. by injection H. }
    rewrite Hv0, (relax_node g u v0 _ Hs Hu Hlt0 Hfl).
    set (through := Num.sum (scratch_distance g u) (Fin (Edge.weight e))).
    set (g1 := if Num.ltb through (scratch_distance g v0)
               then store_info g v0 (Some (through, Some (name (g0 !!! u))))
               else g).
    cbn [mbind result_bind].
    assert (scratch_of g0 g1) as Hs1.
    { subst g1. destruct (Num.ltb _ _); [by apply scratch_of_store|done]. }
    assert (forall v, (v < length g0)%nat ->
              info (g1 !!! v)
              = if decide (v = v0)
                then (if Num.ltb through (scratch_distance g v0)
                      then Some (through, Some (name (g0 !!! u)))
                      else info (g !!! v0))
                else info (g !!! v)) as Hinfo1.
    { intros v Hv. subst g1.
      destruct (Num.ltb through (scratch_distance g v0)).
      - rewrite store_info_lookup by lia. by destruct (decide (v = v0)).
      - by destruct (decide (v = v0)) as [->|]. }
    assert (scratch_distance g1 u = scratch_distance g u) as Hu1.
    { unfold scratch_distance at 1. rewrite Hinfo1 by done.
      destruct (decide (u = v0)) as [<-|]; [|done].
      destruct (Num.ltb through (scratch_distance g u)) eqn:Hlt; [|done].
      assert (Num.le (scratch_distance g u) through) as Hle
        by (by apply num_le_sum_nonneg, num_le_fin).
      unfold Num.le in Hle. congruence. }
    destruct (IH g1 Hs1 Hasc' Hes) as (g' & -> & Hs' & Hinfo').
    exists g'. split_and!; [done..|]. intros v Hv.
    rewrite (Hinfo' v Hv). unfold relaxed_info. rewrite Hu1.
    cbn [edge_lookup].
    destruct (String.eqb_spec (name (g0 !!! v)) (Edge.dst e)) as [Heq|Hne].
    + assert (v = v0) as ->.
      { apply (position_of_name v0 v Hlt0).
        rewrite list_lookup_lookup_total_lt by done. simpl.
        by rewrite Heq, Hname. }
      rewrite edge_lookup_notin, num_sum_inf_r.
      * cbn [Num.ltb]. rewrite Hinfo1 by done.
        rewrite decide_True by done. done.
      * rewrite Hname. intros Hin. rewrite Forall_forall in Habove.
        specialize (Habove _ Hin). by rewrite ltb_irrefl in Habove.
    + assert (v <> v0) as Hvv by (intros ->; by rewrite Hname in Hne).
      unfold scratch_distance at 2. rewrite (Hinfo1 v Hv).
      rewrite decide_False by done. done.
Qed.

Lemma dijkstra_edges_spec g u :
  scratch_of g0 g -> (u < length g0)%nat ->
  exists g',
    dijkstra_edges g u = Ok g'
    /\ scratch_of g0 g'
    /\ forall v, (v < length g0)%nat ->
         info (g' !!! v) = relaxed_info g0 (edges (g0 !!! u)) g u v.
Proof.
  intros Hs Hu. unfold dijkstra_edges, list_edges_object.
  rewrite (scratch_of_edges g0 g u Hs Hu).
  apply relax_edges_spec; [done|done|by apply edges_ascending|].
  apply Forall_forall. intros e He. split_and!.
  - by apply (edges_closed_lookup g0 u).
  - by apply (weights_nonneg_lookup u).
  - by apply (weights_float_lookup g0 u).
Qed.

Lemma relaxed_distance g g' u v :
  (u < length g0)%nat -> (v < length g0)%nat ->
  info (g' !!! v) = relaxed_info g0 (edges (g0 !!! u)) g u v ->
  scratch_distance g' v
  = Num.min (scratch_distance g v)
            (Num.sum (scratch_distance g u) (edge_cost g0 u v)).
Proof.
  intros Hu Hv Hinfo. unfold scratch_distance at 1. rewrite Hinfo.
  unfold relaxed_info, Num.min. rewrite <- (edge_cost_lookup u v) by done.
  by destruct (Num.ltb _ _).
Qed.

Lemma relaxed_previous g g' u v :
  (u < length g0)%nat -> (v < length g0)%nat ->
  info (g' !!! v) = relaxed_info g0 (edges (g0 !!! u)) g u v ->
  scratch_previous g' v
  = if Num.ltb (Num.sum (scratch_distance g u) (edge_cost g0 u v))
               (scratch_distance g v)
    then Some (name (g0 !!! u))
    else scratch_previous g v.
Proof.
  intros Hu Hv Hinfo. unfold scratch_previous at 1. rewrite Hinfo.
  unfold relaxed_info. rewrite <- (edge_cost_lookup u v) by done.
  by destruct (Num.ltb _ _).
Qed.

Lemma path_reached_nonneg st j x :
  path_reached g0 st j x -> Num.le (Fin 0) x.
Proof.
  intros [->|[[_ ->]|[mid <-]]]; [done|done|by apply walk_cost_nonneg].
Qed.

Lemma path_reached_step st u j x :
  path_reached g0 st u x ->
  path_reached g0 st j (Num.sum x (edge_cost g0 u j)).
Proof.
  intros [->|[[-> ->]|[mid <-]]].
  - by left.
  - right. right. exists []. by rewrite num_sum_0_l.
  - right. right. exists (mid ++ [u]). by rewrite walk_cost_app.
Qed.

(** One turn of the [while] loop keeps the invariant: [u] is the popped
    node, [g'] the store after its edges were relaxed. *)
Lemma dijkstra_inv_step st g q s idx u g' :
  (st < length g0)%nat ->
  dijkstra_inv g0 st g q s ->
  q !! idx = Some u ->
  (forall v, v ∈ q -> Num.le (scratch_distance g u) (scratch_distance g v)) ->
  (forall v, (v < length g0)%nat ->
     info (g' !!! v) = relaxed_info g0 (edges (g0 !!! u)) g u v) ->
  dijkstra_inv g0 st g' (delete idx q) (s ++ [u]).
Proof.
  intros Hst (Hperm & Hstart & Hsound & Hrel & Hord & Hprev) Hu Hmin Hinfo.
  assert (forall r, r ∈ s ++ q -> (r < length g0)%nat) as Hvalid.
  { intros r Hr. rewrite Hperm in Hr. apply elem_of_seq in Hr. lia. }
  assert (u ∈ q) as Huq by (by eapply list_elem_of_lookup_2).
  assert (u < length g0)%nat as Hult
    by (apply Hvalid, elem_of_app; by right).
  assert (forall v, (v < length g0)%nat ->
            scratch_distance g' v
            = Num.min (scratch_distance g v)
                (Num.sum (scratch_distance g u) (edge_cost g0 u v))) as Hd.
  { intros v Hv. by apply relaxed_distance, Hinfo. }
  assert (forall j, (j < length g0)%nat ->
            Num.le (Fin 0) (scratch_distance g j)) as Hpos.
  { intros j Hj. by eapply path_reached_nonneg, Hsound. }
  assert (forall v, Num.le (scratch_distance g u)
                      (Num.sum (scratch_distance g u) (edge_cost g0 u v)))
    as Hthrough.
  { intros v. by apply num_le_sum_nonneg, edge_cost_nonneg. }
  assert (forall w, (w < length g0)%nat ->
            Num.le (scratch_distance g w) (scratch_distance g u) ->
            Num.ltb (Num.sum (scratch_distance g u) (edge_cost g0 u w))
                    (scratch_distance g w) = false) as Hkeep.
  { intros w Hw Hle. by apply (num_le_trans _ _ _ Hle). }
  assert (forall w, (w < length g0)%nat ->
            Num.le (scratch_distance g w) (scratch_distance g u) ->
            scratch_distance g' w = scratch_distance g w) as Hsame.
  { intros w Hw Hle. rewrite Hd by done. unfold Num.min.
    by rewrite Hkeep. }
  assert (forall v, (v < length g0)%nat ->
            Num.le (scratch_distance g u) (scratch_distance g v) ->
            Num.le (scratch_distance g u) (scratch_distance g' v)) as Habove.
  { intros v Hv Hle. rewrite Hd by done.
    by destruct (num_min_cases (scratch_distance g v)
                   (Num.sum (scratch_distance g u) (edge_cost g0 u v)))
      as [-> | ->]. }
  assert (forall w, w ∈ s ++ [u] -> (w < length g0)%nat
            /\ scratch_distance g' w = scratch_distance g w
            /\ Num.le (scratch_distance g w) (scratch_distance g u))
    as Hsettled.
  { intros w [Hw|Hw%list_elem_of_singleton]%elem_of_app; [|subst w].
    - assert (w < length g0)%nat as Hwlt
        by (apply Hvalid, elem_of_app; by left).
      split_and!; [done| |by apply Hord]. apply Hsame; [done|by apply Hord].
    - split_and!; [done| |apply num_le_refl].
      apply Hsame; [done|apply num_le_refl]. }
  split_and!.
  - rewrite <- Hperm, <- app_assoc. apply Permutation_app_head. simpl.
    symmetry. by apply delete_Permutation.
  - rewrite Hd by done. unfold Num.min.
    destruct (Num.ltb _ _) eqn:Hlt; [|done]. exfalso.
    rewrite Hstart in Hlt.
    assert (Num.le (Fin 0)
              (Num.sum (scratch_distance g u) (edge_cost g0 u st))) as Hle.
    { apply num_sum_nonneg; [by apply Hpos|by apply edge_cost_nonneg]. }
    unfold Num.le in Hle. congruence.
  - intros j Hj. rewrite Hd by done.
    destruct (num_min_cases (scratch_distance g j)
                (Num.sum (scratch_distance g u) (edge_cost g0 u j)))
      as [-> | ->]; [by apply Hsound|].
    by apply path_reached_step, Hsound.
  - intros w v Hw Hv. destruct (Hsettled w Hw) as (Hwlt & -> & Hwu).
    rewrite Hd by done.
    apply elem_of_app in Hw as [Hw|Hw%list_elem_of_singleton]; [|subst w].
    + eapply num_le_trans; [apply num_min_le_l|by apply Hrel].
    + apply num_min_le_r.
  - intros w v Hw Hv. destruct (Hsettled w Hw) as (Hwlt & -> & Hwu).
    assert (v ∈ q) as Hvq.
    { eapply elem_of_submseteq; [exact Hv|apply submseteq_delete]. }
    assert (v < length g0)%nat as Hvlt
      by (apply Hvalid, elem_of_app; by right).
    eapply num_le_trans; [exact Hwu|]. apply Habove; [done|by apply Hmin].
  - intros j Hj. rewrite (relaxed_previous g g' u j) by auto.
    rewrite Hd by done. unfold Num.min.
    destruct (Num.ltb _ _) eqn:Hlt.
    + exists u. split_and!.
      * apply elem_of_app. right. by left.
      * rewrite list_nodes_fmap, list_lookup_fmap.
        by rewrite (list_lookup_lookup_total_lt g0 u Hult).
      * intros Hinf. by rewrite Hinf in Hlt.
      * f_equal. symmetry. apply Hsame; [done|apply num_le_refl].
    + specialize (Hprev j Hj).
      destruct (scratch_previous g j) as [nm|]; [|done].
      destruct Hprev as (w & Hw & Hnm & Hfin & Hdj). exists w.
      destruct (Hsettled w) as (_ & -> & _);
        [apply elem_of_app; by left|].
      split_and!; [apply elem_of_app; by left|done..].
Qed.

Lemma dijkstra_inv_valid st g q s r :
  dijkstra_inv g0 st g q s -> r ∈ s ++ q -> (r < length g0)%nat.
Proof.
  intros (Hperm & _) Hr. rewrite Hperm in Hr. apply elem_of_seq in Hr. lia.
Qed.

(** The [while] loop of [dijkstra] returns and keeps the invariant. *)
Lemma dijkstra_loop_inv st q g s :
  (st < length g0)%nat -> scratch_of g0 g -> dijkstra_inv g0 st g q s ->
  exists g' s', dijkstra_loop (length q) g q s = Ok (g', s')
                /\ scratch_of g0 g' /\ dijkstra_inv g0 st g' [] s'.
Proof.
  intros Hst. remember (length q) as n eqn:Hn.
  revert q g s Hn. induction n as [|n IH]; intros q g s Hn Hs Hinv.
  - destruct q; [|done]. by exists g, s.
  - destruct q as [|r q']; [done|]. cbn [dijkstra_loop].
    assert (Forall (fun r => (r < length g0)%nat) (r :: q')) as Hq.
    { apply Forall_forall. intros v Hv.
      apply (dijkstra_inv_valid st g (r :: q') s v Hinv), elem_of_app.
      by right. }
    destruct (get_min_node_spec g0 g (r :: q') Hs Hq) as
      (idx & u & -> & Hu & Hmin & _); [done|]. cbn [mbind result_bind].
    assert (u < length g0)%nat as Hlt
      by (by eapply (Forall_lookup_1 _ _ _ _ Hq)).
    destruct (dijkstra_edges_spec g u Hs Hlt) as (g1 & -> & Hs1 & Hinfo).
    cbn [mbind result_bind].
    apply IH; [|done|by apply (dijkstra_inv_step st g (r :: q') s idx u g1)].
    rewrite length_delete by eauto. simpl in *. lia.
Qed.

Lemma dijkstra_inv_initial st start_node :
  list_nodes g0 !! st = Some start_node ->
  dijkstra_inv g0 st (initial_info start_node <$> g0)
    (seq 0 (length g0)) [].
Proof.
  intros Hname.
  assert (st < length g0)%nat as Hst.
  { apply lookup_lt_Some in Hname. by rewrite list_nodes_fmap, length_fmap in Hname. }
  assert (name (g0 !!! st) = start_node) as Hstart.
  { rewrite list_nodes_fmap, list_lookup_fmap in Hname.
    rewrite (list_lookup_lookup_total_lt g0 st Hst) in Hname.
    by injection Hname. }
  assert (forall j, (j < length g0)%nat ->
            info ((initial_info start_node <$> g0) !!! j)
            = Some (if String.eqb (name (g0 !!! j)) start_node
                    then Fin 0 else Inf, None)) as Hinfo.
  { intros j Hj.
    by rewrite (list_lookup_total_fmap (initial_info start_node) g0 j Hj). }
  split_and!.
  - done.
  - unfold scratch_distance. rewrite Hinfo by done.
    by rewrite Hstart, String.eqb_refl.
  - intros j Hj. unfold scratch_distance. rewrite Hinfo by done.
    destruct (String.eqb_spec (name (g0 !!! j)) start_node) as [Heq|Hne];
      [|by left].
    right. left. split; [|done]. apply (position_of_name st j Hst).
    rewrite (list_lookup_lookup_total_lt g0 j Hj). simpl.
    by rewrite Heq, Hstart.
  - by intros u v ?%elem_of_nil.
  - by intros u v ?%elem_of_nil.
  - intros j Hj. unfold scratch_previous, scratch_distance.
    rewrite Hinfo by done. destruct (String.eqb _ _); auto.
Qed.

(** Once every node is popped, no walk beats the scratch distances. *)
Lemma settled_lower_bound g mid i j :
  (forall u v, (u < length g0)%nat -> (v < length g0)%nat ->
     Num.le (scratch_distance g v)
            (Num.sum (scratch_distance g u) (edge_cost g0 u v))) ->
  (i < length g0)%nat -> (j < length g0)%nat ->
  Num.le (scratch_distance g j)
         (Num.sum (scratch_distance g i) (walk_cost g0 i mid j)).
Proof.
  intros Hrel. revert i. induction mid as [|v mid IH]; intros i Hi Hj.
  - by apply Hrel.
  - cbn [walk_cost]. destruct (decide (v < length g0)%nat) as [Hv|Hv].
    + eapply num_le_trans; [by apply (IH v)|].
      rewrite num_sum_assoc.
      apply num_sum_mono; [by apply Hrel|apply num_le_refl].
    + rewrite edge_cost_out_of_range_r by lia.
      cbn [Num.sum]. rewrite num_sum_inf_r. apply num_le_inf.
Qed.

Lemma dijkstra_inv_least st g s j :
  (st < length g0)%nat -> dijkstra_inv g0 st g [] s -> (j < length g0)%nat ->
  least_path_cost g0 st j (scratch_distance g j).
Proof.
  intros Hst (Hperm & Hstart & Hsound & Hrel & _ & _) Hj.
  rewrite app_nil_r in Hperm.
  assert (forall u, (u < length g0)%nat -> u ∈ s) as Hall.
  { intros u Hu. rewrite Hperm. apply elem_of_seq. lia. }
  split_and!.
  - intros ->. rewrite Hstart. apply num_le_refl.
  - intros mid. rewrite <- (num_sum_0_l (walk_cost g0 st mid j)).
    rewrite <- Hstart. apply settled_lower_bound; [|done..].
    intros u v Hu Hv. apply Hrel; [by apply Hall|done].
  - by apply Hsound.
Qed.

(** [dijkstra], up to the call of [get_output], returns a store that
    satisfies the invariant with an empty working set. *)
Lemma dijkstra_run_inv st start_node :
  list_nodes g0 !! st = Some start_node ->
  exists gf s,
    dijkstra_run g0 start_node = Ok (gf, s)
    /\ scratch_of g0 gf
    /\ dijkstra_inv g0 st gf [] s.
Proof.
  intros Hname.
  assert (st < length g0)%nat as Hst.
  { apply lookup_lt_Some in Hname. by rewrite list_nodes_fmap, length_fmap in Hname. }
  unfold dijkstra_run. rewrite init_single_source_spec.
  apply (dijkstra_loop_inv st); [done|apply scratch_of_initial|].
  by apply dijkstra_inv_initial.
Qed.

End DijkstraCorrect.

(** X15: on a working set of references to nodes that all carry an info,
    [get_min_node] pops the first reference of least scratch distance: it
    returns it, [arr] loses exactly that position, no reference of [arr]
    has a smaller distance and every earlier one has a larger distance.
    On an empty working set it raises [IndexError]. *)
Theorem get_min_node_pops_first_least (g : AdjacencyList) (arr : list nat) :
  Forall (fun nd => is_Some (info nd)) g ->
  Forall (fun r => (r < length g)%nat) arr ->
  match arr with
  | [] => get_min_node g arr = Raise IndexError
  | _ :: _ =>
      exists idx u,
        get_min_node g arr = Ok (u, delete idx arr)
        /\ arr !! idx = Some u
        /\ (forall v, v ∈ arr ->
              Num.le (scratch_distance g u) (scratch_distance g v))
        /\ (forall i v, (i < idx)%nat -> arr !! i = Some v ->
              Num.ltb (scratch_distance g u) (scratch_distance g v) = true)
  end.
Proof.
  intros Hinfo Hvalid. destruct arr as [|r arr]; [reflexivity|].
  by apply (get_min_node_spec g g).
Qed.

Lemma get_min_node_pops_first_least_witness :
  exists idx u,
    get_min_node (initial_info "b" <$> detour_graph) [2; 0; 1]%nat
    = Ok (u, delete idx [2; 0; 1]%nat)
    /\ [2; 0; 1]%nat !! idx = Some u
    /\ (forall v, v ∈ [2; 0; 1]%nat ->
          Num.le (scratch_distance (initial_info "b" <$> detour_graph) u)
                 (scratch_distance (initial_info "b" <$> detour_graph) v))
    /\ (forall i v, (i < idx)%nat -> [2; 0; 1]%nat !! i = Some v ->
          Num.ltb (scratch_distance (initial_info "b" <$> detour_graph) u)
                  (scratch_distance (initial_info "b" <$> detour_graph) v)
          = true).
Proof.
  apply (get_min_node_pops_first_least
           (initial_info "b" <$> detour_graph) [2; 0; 1]%nat).
  - repeat constructor; by eexists.
  - repeat constructor.
Defined.



(** ** Dijkstra and edges towards missing nodes *)

Section DanglingEdges.

Variable g0 : AdjacencyList.
Hypothesis in_float : weights_float g0 = true.

Implicit Types (g : AdjacencyList) (q s : list nat) (u : nat).

Lemma relax_edges_raise (es : Edge.t) g u :
  scratch_of g0 g -> (u < length g0)%nat ->
  Forall (fun e => Num.float_ok (Edge.weight e) = true) es ->
  forallb (fun e => find_node g0 (Edge.dst e)) es = false ->
  for_each es
    (fun edge g => relax g u (get_node g (Edge.dst edge)) (Edge.weight edge))
    g = Raise AttributeError.
Proof.
  intros Hs Hu Hfl. revert g Hs.
  induction Hfl as [|e es He Hfl IH]; intros g Hs Hes.
  - done.
  - cbn [forallb] in Hes. cbn [for_each].
    destruct (find_node g0 (Edge.dst e)) eqn:Hf.
    + destruct (relax_returns g0 g u (Edge.dst e) (Edge.weight e) Hs Hu Hf He)
        as (g1 & -> & Hs1).
      cbn [mbind result_bind]. by apply IH.
    + pose proof Hs as (Hn & _ & _).
      rewrite <- (find_node_names g g0 _ Hn) in Hf.
      pose proof (get_node_spec g (Edge.dst e)) as H.
      destruct (get_node g (Edge.dst e)) as [r|z]; [|done].
      destruct H as (H & _). congruence.
Qed.

(** The node behind [u] has an edge towards a name that is not a node. *)
Lemma dijkstra_edges_raise g u :
  scratch_of g0 g -> (u < length g0)%nat ->
  forallb (fun e => find_node g0 (Edge.dst e)) (edges (g0 !!! u)) = false ->
  dijkstra_edges g u = Raise AttributeError.
Proof.
  intros Hs Hu Hes. unfold dijkstra_edges, list_edges_object.
  rewrite (scratch_of_edges g0 g u Hs Hu).
  apply relax_edges_raise; [done..| |done].
  apply Forall_forall. intros e He. by apply (weights_float_lookup g0 u).
Qed.

Lemma dijkstra_edges_outcome g u :
  scratch_of g0 g -> (u < length g0)%nat ->
  dijkstra_edges g u = Raise AttributeError
  \/ exists g', dijkstra_edges g u = Ok g' /\ scratch_of g0 g'.
Proof.
  intros Hs Hu.
  destruct (forallb (fun e => find_node g0 (Edge.dst e)) (edges (g0 !!! u)))
    eqn:Hes; [|left; by apply dijkstra_edges_raise].
  right. unfold dijkstra_edges, list_edges_object.
  apply (for_each_inv (fun _ g' => scratch_of g0 g')); [done|].
  intros pre e rest g1 Heq Hg1.
  assert (e ∈ edges (g0 !!! u)) as He.
  { rewrite <- (scratch_of_edges g0 g u Hs Hu), Heq.
    apply elem_of_app. right. by left. }
  apply relax_returns; [done..| |by apply (weights_float_lookup g0 u)].
  rewrite forallb_forall in Hes. by apply Hes, list_elem_of_In.
Qed.

(** The [while] loop raises once it pops a node with such an edge, and
    it pops every node of the working set. *)
Lemma dijkstra_loop_raises q g s u :
  scratch_of g0 g -> Forall (fun r => (r < length g0)%nat) q -> u ∈ q ->
  forallb (fun e => find_node g0 (Edge.dst e)) (edges (g0 !!! u)) = false ->
  dijkstra_loop (length q) g q s = Raise AttributeError.
Proof.
  intros Hs Hq Hu Hes. remember (length q) as n eqn:Hn.
  revert q g s Hn Hs Hq Hu. induction n as [|n IH]; intros q g s Hn Hs Hq Hu.
  - destruct q; [by apply elem_of_nil in Hu|done].
  - destruct q as [|r q']; [done|]. cbn [dijkstra_loop].
    destruct (get_min_node_returns g0 g (r :: q') Hs Hq) as
      (idx & v & -> & Hv); [done|]. cbn [mbind result_bind].
    assert (v < length g0)%nat as Hlt
      by (by eapply (Forall_lookup_1 _ _ _ _ Hq)).
    destruct (decide (v = u)) as [->|Hne].
    { by rewrite dijkstra_edges_raise. }
    destruct (dijkstra_edges_outcome g v Hs Hlt) as [->|(g1 & -> & Hs1)];
      [done|].
    cbn [mbind result_bind]. apply IH; [|done|by apply Forall_delete|].
    + rewrite length_delete by eauto. simpl in *. lia.
    + rewrite (delete_Permutation _ _ _ Hv) in Hu.
      apply elem_of_cons in Hu as [->|Hu]; done.
Qed.

Lemma dijkstra_raises start_node :
  edges_closed g0 = false -> dijkstra g0 start_node = Raise AttributeError.
Proof.
  intros Hc. unfold edges_closed in Hc.
  apply forallb_false in Hc as (u & nd & Hu & Hes).
  assert (u < length g0)%nat as Hult by (by eapply lookup_lt_Some).
  unfold dijkstra, dijkstra_run. rewrite init_single_source_spec.
  rewrite (dijkstra_loop_raises (seq 0 (length g0)) _ [] u); [done| | | |].
  - apply scratch_of_initial.
  - apply valid_seq.
  - apply elem_of_seq. lia.
  - rewrite (list_lookup_total_correct _ _ _ Hu).
    done.
Qed.

End DanglingEdges.

(** X17: on a graph whose weights all convert to a float, so that no
    addition of [relax] raises [OverflowError], [dijkstra] raises
    [AttributeError] exactly when some edge of the graph points to a name
    that is not a node, whatever the start node, because its loop pops
    every node and relaxes every edge; otherwise it returns arrays of the
    length of the graph.  [prim], which adds nothing, skips such edges and
    returns on every graph. *)
Theorem dijkstra_raises_iff_dangling_edge (g : AdjacencyList)
    (start_node : string) :
  (weights_float g = true ->
   (edges_closed g = false <-> dijkstra g start_node = Raise AttributeError)
   /\ (edges_closed g = true <->
       exists d e, dijkstra g start_node = Ok (d, e)
                   /\ length d = length g /\ length e = length g))
  /\ (exists l c, prim g start_node = Ok (l, c)
                  /\ length l = length g /\ length c = length g).
Proof.
  split.
  - intros Hfl.
    assert (edges_closed g = true ->
            exists d e, dijkstra g start_node = Ok (d, e)
                        /\ length d = length g /\ length e = length g) as Hok.
    { intros Hc. destruct (dijkstra_returns g start_node Hc Hfl)
        as (gf & s & _ & _ & Hperm & ->).
      eexists _, _. split; [done|].
      by rewrite !length_fmap, sort_by_name_perm, Hperm, length_seq. }
    split.
    + split; [by apply dijkstra_raises|]. intros Hraise.
      destruct (edges_closed g) eqn:Hc; [|done].
      destruct (Hok eq_refl) as (d & e & Hde & _). congruence.
    + split; [done|]. intros (d & e & Hde & _).
      destruct (edges_closed g) eqn:Hc; [done|].
      rewrite (dijkstra_raises g Hfl start_node Hc) in Hde. done.
  - destruct (prim_returns g start_node) as (gf & s & _ & _ & Hperm & ->).
    eexists _, _. split; [done|].
    by rewrite !length_fmap, sort_by_name_perm, Hperm, length_seq.
Qed.

(** ** Warshall: the cells tell which nodes reach which *)

Section WarshallClosure.

Variable g : AdjacencyList.
Hypothesis wf : well_formed g = true.
Hypothesis closed : edges_closed g = true.
Hypothesis nonneg : weights_nonneg g = true.
Hypothesis in_range : costs_float g = true.

(** A cell of the matrix of [floyd] is finite exactly on the diagonal and
    where a walk leads from the row's node to the column's. *)
Lemma floyd_finite_cells :
  exists M,
    floyd g = Ok M /\ sq (length g) M
    /\ forall i j, (i < length g)%nat -> (j < length g)%nat ->
         cell M i j <> Inf <-> i = j \/ exists mid, walk_cost g i mid j <> Inf.
Proof.
  destruct (add_list_to_matrix_spec g wf closed) as (W & HW & HsqW & Hcells).
  destruct (floyd_loops_spec g nonneg in_range W HsqW Hcells)
    as (M & HM & HsqM & Hs & Hcomp & Hdiag).
  exists M. split_and!; [|done|].
  { unfold floyd. rewrite node_cardinality_length, HW. exact HM. }
  intros i j Hi Hj.
  assert (forall mid, Num.le (cell M i j) (walk_cost g i mid j)) as Hlow.
  { intros mid.
    destruct (decide (Forall (fun v => (v < length g)%nat) mid)) as [Hv|Hv].
    - by apply Hcomp.
    - rewrite walk_cost_out_of_range by done. apply num_le_inf. }
  split.
  - intros Hfin. destruct (Hs i j Hi Hj) as [?|[[mid Hmid]|(? & _)]];
      [done| |by left].
    right. exists mid. by rewrite Hmid.
  - intros [->|[mid Hmid]] Hinf.
    + destruct (decide (edge_cost g j j = Inf)) as [Hnsl|Hloop].
      * pose proof (Hdiag j Hj Hnsl) as H0. by rewrite Hinf in H0.
      * apply Hloop, num_inf_le. rewrite <- Hinf. apply (Hlow []).
    + apply Hmid, num_inf_le. rewrite <- Hinf. apply Hlow.
Qed.

End WarshallClosure.

(** X18: in a graph that satisfies the invariant of the data model, whose
    edges all point to nodes, whose weights are not negative and whose
    path costs stay in the range of a float ([costs_float]: twice
    [(N + 1)] times the largest weight is below the float limit, so that
    no addition of [floyd] raises [OverflowError]), [warshall] returns an
    N x N matrix of booleans in which the cell [(i, j)] is [True] exactly
    when [i = j] or a walk leads from the [i]-th node to the [j]-th: the
    reflexive and transitive closure of the edges. *)
Theorem warshall_reflexive_transitive_closure (g : AdjacencyList) :
  well_formed g = true -> edges_closed g = true -> weights_nonneg g = true ->
  costs_float g = true ->
  exists w,
    warshall g = Ok w /\ length w = length g
    /\ forall i j, (i < length g)%nat -> (j < length g)%nat ->
         exists b, cell_at w i j = Some (WBool b)
                   /\ (b = true <->
                       i = j \/ exists mid, walk_cost g i mid j <> Inf).
Proof.
  intros Hwf Hc Hnn Hfl.
  destruct (floyd_finite_cells g Hwf Hc Hnn Hfl) as (M & HM & Hsq & Hcells).
  exists (reachable_cells M). split_and!.
  - unfold warshall. rewrite HM. apply warshall_loops_spec.
  - rewrite length_reachable_cells. by destruct Hsq.
  - intros i j Hi Hj. rewrite cell_at_reachable_cells.
    destruct (sq_cell_is_Some _ M i j Hsq Hi Hj) as [x Hx]. rewrite Hx.
    specialize (Hcells i j Hi Hj). rewrite (cell_of_cell_at _ _ _ _ Hx) in Hcells.
    eexists. split; [done|]. rewrite <- Hcells.
    destruct x; simpl; split; intros; done.
Qed.

Lemma warshall_reflexive_transitive_closure_witness :
  warshall detour_graph
  = Ok [[WBool true; WBool true; WBool true];
        [WBool false; WBool true; WBool true];
        [WBool false; WBool false; WBool true]]
  /\ exists w,
       warshall detour_graph = Ok w /\ length w = 3%nat
       /\ forall i j, (i < 3)%nat -> (j < 3)%nat ->
            exists b, cell_at w i j = Some (WBool b)
                      /\ (b = true <->
                          i = j
                          \/ exists mid, walk_cost detour_graph i mid j <> Inf).
Proof.
  split; [reflexivity|].
  apply (warshall_reflexive_transitive_closure detour_graph); reflexivity.
Defined.

(** ** Prim: what the arrays report *)

Section PrimSound.

Variable g0 : AdjacencyList.
Variable st : nat.
Hypothesis asc : ascending (list_nodes g0) = true.
Hypothesis st_lt : (st < length g0)%nat.

Implicit Types (g : AdjacencyList) (q s : list nat) (u v j : nat).

(** The edge loop of [prim] for the popped node [u]: a node keeps its
    info, or it is in the working set and receives the weight of an edge
    from [u] and the name of [u]. *)
Lemma prim_edges_spec g q u :
  scratch_of g0 g -> (u < length g0)%nat ->
  exists g',
    prim_edges g q u = Ok g'
    /\ scratch_of g0 g'
    /\ forall j, (j < length g0)%nat ->
         info (g' !!! j) = info (g !!! j)
         \/ (j ∈ q
             /\ exists e, e ∈ edges (g0 !!! u)
                          /\ Edge.dst e = name (g0 !!! j)
                          /\ info (g' !!! j)
                             = Some (Fin (Edge.weight e),
                                     Some (name (g0 !!! u)))).
Proof.
  intros Hs Hu. unfold prim_edges, list_edges_object.
  rewrite (scratch_of_edges g0 g u Hs Hu).
  destruct (for_each_inv
              (fun _ g' =>
                 scratch_of g0 g'
                 /\ forall j, (j < length g0)%nat ->
                      info (g' !!! j) = info (g !!! j)
                      \/ (j ∈ q
                          /\ exists e, e ∈ edges (g0 !!! u)
                               /\ Edge.dst e = name (g0 !!! j)
                               /\ info (g' !!! j)
                                  = Some (Fin (Edge.weight e),
                                          Some (name (g0 !!! u)))))
              (edges (g0 !!! u)) (prim_scan q u) g)
    as (g' & Hg' & Hs' & Hinfo); [by auto| |by eauto].
  intros pre e rest g1 Hes (Hs1 & Hinfo1). unfold prim_scan.
  destruct (get_node g1 (Edge.dst e)) as [v|z] eqn:Hv; [|by eauto].
  destruct (bool_decide (v ∈ q)) eqn:Hvq; [|by eauto].
  apply bool_decide_eq_true in Hvq.
  assert (v < length g0)%nat as Hvlt by (by eapply get_node_valid).
  rewrite (scratch_distance_info0 g0 g1 v Hs1 Hvlt). cbn [mbind result_bind].
  destruct (Num.ltb _ _); [|by eauto].
  eexists. split; [done|]. split; [by apply scratch_of_store|].
  intros j Hj. pose proof (scratch_of_length _ _ Hs1) as Hlen.
  rewrite store_info_lookup by lia.
  destruct (decide (j = v)) as [->|Hne]; [|by apply Hinfo1].
  right. split; [done|]. exists e. split_and!.
  - rewrite Hes. apply elem_of_app. right. by left.
  - pose proof (get_node_spec g1 (Edge.dst e)) as H. rewrite Hv in H.
    destruct H as (_ & H & _). rewrite <- (scratch_of_name g0 g1 v Hs1 Hvlt).
    rewrite list_lookup_lookup_total_lt in H by lia. by injection H.
  - simpl. by rewrite (scratch_of_name g0 g1 u Hs1 Hu).
Qed.

(** One turn of the [while] loop of [prim] keeps the invariant. *)
Lemma prim_inv_step g q s idx u g' :
  prim_inv g0 st g q s ->
  q !! idx = Some u ->
  (forall v, v ∈ q -> Num.le (scratch_distance g u) (scratch_distance g v)) ->
  (forall j, (j < length g0)%nat ->
     info (g' !!! j) = info (g !!! j)
     \/ (j ∈ delete idx q
         /\ exists e, e ∈ edges (g0 !!! u)
                      /\ Edge.dst e = name (g0 !!! j)
                      /\ info (g' !!! j)
                         = Some (Fin (Edge.weight e),
                                 Some (name (g0 !!! u))))) ->
  prim_inv g0 st g' (delete idx q) (s ++ [u]).
Proof.
  intros (Hperm & Hinit & Hstart & Hrest) Hu Hmin Hinfo.
  pose proof (delete_Permutation _ _ _ Hu) as Hq.
  assert (NoDup (u :: delete idx q)) as Hnd.
  { rewrite <- Hq. apply (NoDup_app s q). rewrite Hperm. apply NoDup_seq. }
  apply NoDup_cons in Hnd as [Hnotin Hnd].
  assert (st ∉ delete idx q) as Hst.
  { intros Hin. assert (st ∈ q) as Hstq by (rewrite Hq; by right).
    assert (u = st) as ->; [|done].
    destruct (decide (u = st)) as [|Hne]; [done|]. exfalso.
    assert (u < length g0)%nat as Hult.
    { assert (u ∈ s ++ q) as H by (apply elem_of_app; right; rewrite Hq; by left).
      rewrite Hperm in H. apply elem_of_seq in H. lia. }
    pose proof (Hmin st Hstq) as Hle.
    rewrite (scratch_distance_info _ _ _ _ Hstart) in Hle.
    rewrite (scratch_distance_info _ _ _ _ (Hinit Hstq u Hult Hne)) in Hle.
    done. }
  split_and!.
  - rewrite <- Hperm, <- app_assoc. apply Permutation_app_head. simpl.
    by symmetry.
  - done.
  - by destruct (Hinfo st st_lt) as [->|[? _]].
  - intros j Hj Hne. destruct (Hinfo j Hj) as [->|(_ & e & He & Hdst & ->)].
    + destruct (Hrest j Hj Hne) as [?|(w & e & Hw & He & Hdst & Hj')];
        [by left|].
      right. exists w, e. split_and!; [|done..].
      apply elem_of_app. by left.
    + right. exists u, e. split_and!; [|done..].
      apply elem_of_app. right. by left.
Qed.

Lemma prim_loop_inv q g s :
  scratch_of g0 g -> prim_inv g0 st g q s ->
  exists g' s', prim_loop (length q) g q s = Ok (g', s')
                /\ scratch_of g0 g' /\ prim_inv g0 st g' [] s'.
Proof.
  remember (length q) as n eqn:Hn.
  revert q g s Hn. induction n as [|n IH]; intros q g s Hn Hs Hinv.
  - destruct q; [|done]. by exists g, s.
  - destruct q as [|r q']; [done|]. cbn [prim_loop].
    assert (Forall (fun r => (r < length g0)%nat) (r :: q')) as Hq.
    { apply Forall_forall. intros v Hv. destruct Hinv as (Hperm & _).
      assert (v ∈ s ++ r :: q') as H by (apply elem_of_app; by right).
      rewrite Hperm in H. apply elem_of_seq in H. lia. }
    destruct (get_min_node_spec g0 g (r :: q') Hs Hq) as
      (idx & u & -> & Hu & Hmin & _); [done|]. cbn [mbind result_bind].
    assert (u < length g0)%nat as Hlt
      by (by eapply (Forall_lookup_1 _ _ _ _ Hq)).
    destruct (prim_edges_spec g (delete idx (r :: q')) u Hs Hlt)
      as (g1 & -> & Hs1 & Hinfo).
    cbn [mbind result_bind].
    apply IH; [|done|by apply (prim_inv_step g (r :: q') s idx u g1)].
    rewrite length_delete by eauto. simpl in *. lia.
Qed.

Lemma prim_inv_initial start_node :
  list_nodes g0 !! st = Some start_node ->
  prim_inv g0 st (initial_info start_node <$> g0) (seq 0 (length g0)) [].
Proof.
  intros Hname.
  assert (name (g0 !!! st) = start_node) as Hstart.
  { rewrite list_nodes_fmap, list_lookup_fmap in Hname.
    rewrite (list_lookup_lookup_total_lt g0 st st_lt) in Hname.
    by injection Hname. }
  assert (forall j, (j < length g0)%nat ->
            info ((initial_info start_node <$> g0) !!! j)
            = Some (if String.eqb (name (g0 !!! j)) start_node
                    then Fin 0 else Inf, None)) as Hinfo.
  { intros j Hj.
    by rewrite (list_lookup_total_fmap (initial_info start_node) g0 j Hj). }
  assert (forall j, (j < length g0)%nat -> j <> st ->
            info ((initial_info start_node <$> g0) !!! j) = Some (Inf, None))
    as Hother.
  { intros j Hj Hne. rewrite Hinfo by done.
    destruct (String.eqb_spec (name (g0 !!! j)) start_node) as [Heq|]; [|done].
    destruct Hne. apply (name_position g0 j st start_node asc).
    - rewrite (list_lookup_lookup_total_lt g0 j Hj). simpl. by rewrite Heq.
    - by rewrite <- list_lookup_fmap, <- list_nodes_fmap. }
  split_and!; [done|done| |by left; apply Hother].
  rewrite Hinfo by done. by rewrite Hstart, String.eqb_refl.
Qed.

Lemma prim_run_inv start_node :
  list_nodes g0 !! st = Some start_node ->
  exists gf s,
    prim_run g0 start_node = Ok (gf, s)
    /\ scratch_of g0 gf
    /\ prim_inv g0 st gf [] s.
Proof.
  intros Hname. unfold prim_run. rewrite init_single_source_spec.
  apply prim_loop_inv; [apply scratch_of_initial|].
  by apply prim_inv_initial.
Qed.

End PrimSound.

(** X19: in a graph whose node names are strictly ascending, [prim] from
    the node at position [st] returns two N-length arrays with [None] and
    [None] at [st]; at any other index [j] they hold either [inf] and
    [None] (no popped node had an edge towards [j]), or the weight of an
    edge of the graph towards the [j]-th node and the name of the node
    that edge starts from, both reported as [None] when that weight is
    [0]. *)
Theorem prim_reports_graph_edges (g : AdjacencyList) (start_node : string)
    (st : nat) :
  ascending (list_nodes g) = true ->
  list_nodes g !! st = Some start_node ->
  exists l c,
    prim g start_node = Ok (l, c)
    /\ length l = length g /\ length c = length g
    /\ l !! st = Some None /\ c !! st = Some None
    /\ forall j, (j < length g)%nat -> j <> st ->
         (l !! j = Some (Some Inf) /\ c !! j = Some None)
         \/ exists u nd e,
              g !! u = Some nd /\ e ∈ edges nd
              /\ list_nodes g !! j = Some (Edge.dst e)
              /\ l !! j = Some (if Edge.weight e =? 0 then None
                                else Some (Fin (Edge.weight e)))
              /\ c !! j = Some (if Edge.weight e =? 0 then None
                                else Some (name nd)).
Proof.
  intros Hasc Hname.
  assert (st < length g)%nat as Hst.
  { apply lookup_lt_Some in Hname.
    by rewrite list_nodes_fmap, length_fmap in Hname. }
  destruct (prim_run_inv g st Hasc Hst start_node Hname)
    as (gf & s & Hrun & Hs & Hperm & _ & Hstart & Hrest).
  destruct (prim_output g start_node Hasc) as (gf' & s' & Hrun' & _ & Hout).
  rewrite Hrun in Hrun'. injection Hrun' as <- <-.
  pose proof (scratch_of_length _ _ Hs) as Hlen.
  exists (out_distance <$> gf), (out_previous <$> gf).
  rewrite !length_fmap.
  assert (forall j, (j < length g)%nat ->
            (out_distance <$> gf) !! j = Some (out_distance (gf !!! j))
            /\ (out_previous <$> gf) !! j = Some (out_previous (gf !!! j)))
    as Hcell.
  { intros j Hj. rewrite !list_lookup_fmap.
    by rewrite (list_lookup_lookup_total_lt gf j) by lia. }
  split_and!; [done..| | |].
  - rewrite (proj1 (Hcell st Hst)). unfold out_distance. by rewrite Hstart.
  - rewrite (proj2 (Hcell st Hst)). unfold out_previous. by rewrite Hstart.
  - intros j Hj Hne. destruct (Hcell j Hj) as [-> ->].
    unfold out_distance, out_previous.
    destruct (Hrest j Hj Hne) as [->|(u & e & Hu & He & Hdst & ->)];
      [by left|].
    assert (u < length g)%nat as Hult.
    { assert (u ∈ s ++ []) as H by (apply elem_of_app; by left).
      rewrite Hperm in H. apply elem_of_seq in H. lia. }
    right. exists u, (g !!! u), e. split_and!.
    + by apply list_lookup_lookup_total_lt.
    + done.
    + rewrite list_nodes_fmap, list_lookup_fmap.
      by rewrite (list_lookup_lookup_total_lt g j Hj), Hdst.
    + done.
    + done.
Qed.

Lemma prim_reports_graph_edges_witness :
  prim detour_graph "a"
  = Ok ([None; Some (Fin 1); Some (Fin 2)], [None; Some "a"; Some "b"])
  /\ exists l c,
       prim detour_graph "a" = Ok (l, c)
       /\ length l = 3%nat /\ length c = 3%nat
       /\ l !! 0%nat = Some None /\ c !! 0%nat = Some None
       /\ forall j, (j < 3)%nat -> j <> 0%nat ->
            (l !! j = Some (Some Inf) /\ c !! j = Some None)
            \/ exists u nd e,
                 detour_graph !! u = Some nd /\ e ∈ edges nd
                 /\ list_nodes detour_graph !! j = Some (Edge.dst e)
                 /\ l !! j = Some (if Edge.weight e =? 0 then None
                                   else Some (Fin (Edge.weight e)))
                 /\ c !! j = Some (if Edge.weight e =? 0 then None
                                   else Some (name nd)).
Proof.
  split; [reflexivity|].
  apply (prim_reports_graph_edges detour_graph "a" 0); reflexivity.
Defined.

(** ** [init_single_source] and [get_output] *)

Section ScratchSetup.

Implicit Types (g : AdjacencyList) (q s : list nat).

Lemma initial_info_idemp start_node (nd : node) :
  initial_info start_node (initial_info start_node nd)
  = initial_info start_node nd.
Proof. done. Qed.

(** The body of the loop of [init_single_source]. *)
Lemma init_body_alter start_node g r :
  (if String.eqb (name (g !!! r)) start_node
   then store_info g r (Some (Fin 0, None))
   else store_info g r (Some (Inf, None)))
  = alter (initial_info start_node) r g.
Proof.
  assert (forall x, g !! r = Some x -> x = g !!! r) as Hx.
  { intros x Hx. by rewrite (list_lookup_total_correct _ _ _ Hx). }
  unfold store_info, initial_info.
  destruct (String.eqb (name (g !!! r)) start_node) eqn:Hn;
    apply list_alter_ext; try done; intros x ->%Hx; by rewrite Hn.
Qed.

Lemma init_fold_alter start_node g q :
  foldl (fun g r =>
           if String.eqb (name (g !!! r)) start_node
           then store_info g r (Some (Fin 0, None))
           else store_info g r (Some (Inf, None))) g q
  = foldl (fun g r => alter (initial_info start_node) r g) g q.
Proof.
  revert g. induction q as [|r q IH]; intros g; cbn [foldl]; [done|].
  by rewrite init_body_alter, IH.
Qed.

Lemma foldl_alter_lookup (f : node -> node) g q i :
  (forall nd, f (f nd) = f nd) ->
  foldl (fun g r => alter f r g) g q !! i
  = if decide (i ∈ q) then f <$> g !! i else g !! i.
Proof.
  intros Hf. revert g. induction q as [|r q IH]; intros g.
  - cbn [foldl]. rewrite decide_False; [done|]. by intros ?%elem_of_nil.
  - cbn [foldl]. rewrite IH, list_lookup_alter.
    destruct (decide (r = i)) as [->|Hne].
    + rewrite (decide_True (P := i ∈ i :: q)) by (by left).
      destruct (decide (i ∈ q)); [|done].
      destruct (g !! i); simpl; [|done]. by rewrite Hf.
    + destruct (decide (i ∈ q)) as [Hin|Hin].
      * by rewrite (decide_True (P := i ∈ r :: q)) by (by right).
      * rewrite (decide_False (P := i ∈ r :: q)); [done|].
        intros [?|?]%elem_of_cons; [by subst|done].
Qed.

Lemma init_single_source_general g q start_node :
  init_single_source g q start_node
  = (initial_info start_node <$> g, q ++ seq 0 (length g)).
Proof.
  unfold init_single_source, list_nodes_object.
  rewrite list_nodes_object_seq. f_equal.
  rewrite init_fold_alter.
  apply list_eq. intros i.
  rewrite foldl_alter_lookup by apply initial_info_idemp.
  rewrite list_lookup_fmap.
  destruct (decide (i ∈ q ++ seq 0 (length g))) as [Hin|Hnin]; [done|].
  rewrite lookup_ge_None_2; [done|].
  destruct (decide (length g <= i)%nat); [done|]. destruct Hnin.
  apply elem_of_app. right. apply elem_of_seq. lia.
Qed.

Lemma initial_info_names_edges start_node g g' :
  name <$> g' = name <$> g -> edges <$> g' = edges <$> g ->
  initial_info start_node <$> g' = initial_info start_node <$> g.
Proof.
  revert g'. induction g as [|nd g IH]; intros [|nd' g'] Hn He; try done.
  rewrite !fmap_cons in *. injection Hn as Hnd Hn. injection He as Hed He.
  f_equal; [|by apply IH]. unfold initial_info, set_info.
  by rewrite Hnd, Hed.
Qed.

(** Two sorted lists of references with the same elements are equal. *)
Lemma sort_by_name_permutation g s s' :
  ascending (list_nodes g) = true ->
  Forall (fun r => (r < length g)%nat) s -> s ≡ₚ s' ->
  sort_by_name g s = sort_by_name g s'.
Proof.
  intros Hasc Hv Hp. apply (Sorted_unique le).
  - by apply sort_by_name_sorted.
  - apply sort_by_name_sorted; [done|]. by rewrite <- Hp.
  - by rewrite !sort_by_name_perm.
Qed.

End ScratchSetup.

(** X20: [init_single_source] appends the references to all nodes to [q],
    in node order, and gives every node the info [[0, None]] when it is
    called [start_node] and [[inf, None]] otherwise, whatever [q] held and
    whatever info the nodes had: names and edges are kept, and two stores
    with the same names and edges are initialised alike. *)
Theorem init_single_source_resets (g : AdjacencyList) (q : list nat)
    (start_node : string) :
  init_single_source g q start_node
  = (initial_info start_node <$> g, q ++ seq 0 (length g))
  /\ list_nodes (init_single_source g q start_node).1 = list_nodes g
  /\ edges <$> (init_single_source g q start_node).1 = edges <$> g
  /\ forall g', name <$> g' = name <$> g -> edges <$> g' = edges <$> g ->
       (init_single_source g' q start_node).1
       = (init_single_source g q start_node).1.
Proof.
  rewrite init_single_source_general.
  destruct (scratch_of_initial g start_node) as (Hn & He & _).
  split_and!; [done| |done|].
  - by rewrite !list_nodes_fmap.
  - intros g' Hn' He'. rewrite init_single_source_general. simpl.
    by apply initial_info_names_edges.
Qed.

(** X21: for nodes that all carry an info and have strictly ascending
    names, [get_output] on [N] references and two arrays of [N] cells
    returns the arrays filled in ascending order of the references, so of
    the node names, whatever the order of [nodes]: a cell holds [None]
    when the scratch distance is [0], else the scratch distance and the
    scratch predecessor. *)
Theorem get_output_sorts_by_name (g : AdjacencyList) (nodes nodes' : list nat) :
  ascending (list_nodes g) = true ->
  Forall (fun nd => is_Some (info nd)) g ->
  Forall (fun r => (r < length g)%nat) nodes ->
  nodes ≡ₚ nodes' ->
  exists sorted,
    sorted ≡ₚ nodes /\ Sorted le sorted
    /\ get_output g nodes (replicate (length nodes) None)
         (replicate (length nodes) None)
       = Ok ((fun r => out_distance (g !!! r)) <$> sorted,
             (fun r => out_previous (g !!! r)) <$> sorted)
    /\ get_output g nodes' (replicate (length nodes') None)
         (replicate (length nodes') None)
       = get_output g nodes (replicate (length nodes) None)
           (replicate (length nodes) None).
Proof.
  intros Hasc Hinfo Hv Hp.
  assert (scratch_of g g) as Hs by done.
  exists (sort_by_name g nodes). split_and!.
  - apply sort_by_name_perm.
  - by apply sort_by_name_sorted.
  - by apply (get_output_spec g).
  - rewrite (get_output_spec g g nodes Hs Hv).
    rewrite (get_output_spec g g nodes' Hs) by (by rewrite <- Hp).
    by rewrite (sort_by_name_permutation g nodes nodes').
Qed.

Lemma get_output_sorts_by_name_witness :
  exists sorted,
    sorted ≡ₚ [2; 0; 1]%nat /\ Sorted le sorted
    /\ get_output (initial_info "b" <$> detour_graph) [2; 0; 1]%nat
         (replicate 3 None) (replicate 3 None)
       = Ok ((fun r => out_distance ((initial_info "b" <$> detour_graph) !!! r))
               <$> sorted,
             (fun r => out_previous ((initial_info "b" <$> detour_graph) !!! r))
               <$> sorted)
    /\ get_output (initial_info "b" <$> detour_graph) [0; 1; 2]%nat
         (replicate 3 None) (replicate 3 None)
       = get_output (initial_info "b" <$> detour_graph) [2; 0; 1]%nat
           (replicate 3 None) (replicate 3 None).
Proof.
  apply (get_output_sorts_by_name
           (initial_info "b" <$> detour_graph) [2; 0; 1]%nat [0; 1; 2]%nat).
  - reflexivity.
  - repeat constructor; by eexists.
  - repeat constructor.
  - apply (Permutation_cons_append [0; 1]%nat 2%nat).
Defined.

(** ** Graphs built through the interface *)

Section Built.

Implicit Types (g : AdjacencyList) (es : Edge.t) (nd : node) (e : Edge.cell).

Lemma edge_add_elem es d w e :
  e ∈ Edge.add es d w -> e = Edge.Cell d w \/ e ∈ es.
Proof.
  induction es as [|hd tl IH]; cbn [Edge.add].
  - intros ->%list_elem_of_singleton. by left.
  - destruct (String.eqb_spec d (Edge.dst hd)) as [->|Hne].
    + rewrite !elem_of_cons. intros [->|?]; [by left|right; by right].
    + destruct (String.ltb d (Edge.dst hd)).
      * rewrite elem_of_cons. intros [->|?]; [by left|by right].
      * rewrite !elem_of_cons. intros [->|[->|?]%IH]; auto.
Qed.

Lemma edge_delete_elem es d e : e ∈ Edge.delete es d -> e ∈ es.
Proof.
  induction es as [|hd tl IH]; cbn [Edge.delete]; [done|].
  destruct (String.eqb d (Edge.dst hd)); rewrite ?elem_of_cons; [by right|].
  intros [->|?%IH]; [by left|by right].
Qed.

Lemma add_node_elem g nm i nd :
  nd ∈ add_node g nm i -> nd = Node nm i [] \/ nd ∈ g.
Proof.
  induction g as [|hd tl IH]; cbn [add_node].
  - intros ->%list_elem_of_singleton. by left.
  - destruct (String.ltb nm (name hd)); rewrite !elem_of_cons.
    + intros [->|[->|?]]; auto.
    + intros [->|[->|?]%IH]; auto.
Qed.

Lemma delete_node_elem g nm nd : nd ∈ delete_node g nm -> nd ∈ g.
Proof.
  induction g as [|hd tl IH]; cbn [delete_node]; [done|].
  destruct (String.eqb nm (name hd)); [by right|].
  destruct (String.ltb (name hd) nm); [|done].
  rewrite !elem_of_cons. intros [->|?%IH]; auto.
Qed.

Lemma delete_edges_elem g nm nd e :
  nd ∈ delete_edges g nm -> e ∈ edges nd ->
  exists nd0, nd0 ∈ g /\ e ∈ edges nd0.
Proof.
  induction g as [|hd tl IH]; cbn [delete_edges]; [by intros ?%elem_of_nil|].
  rewrite elem_of_cons. intros [->|Hnd] He.
  - exists hd. split; [by left|]. cbn [set_edges edges] in He.
    by eapply edge_delete_elem.
  - destruct (IH Hnd He) as (nd0 & ? & ?). exists nd0. split; [by right|done].
Qed.

Lemma _add_edge_elem g s d w g' nd e :
  _add_edge g s d w = Ok g' -> nd ∈ g' -> e ∈ edges nd ->
  e = Edge.Cell d w \/ exists nd0, nd0 ∈ g /\ e ∈ edges nd0.
Proof.
  revert g'. induction g as [|hd tl IH]; intros g'; cbn [_add_edge]; [done|].
  destruct (String.eqb s (name hd)).
  - intros [= <-]. rewrite elem_of_cons. intros [->|Hnd] He.
    + cbn [set_edges edges] in He.
      apply edge_add_elem in He as [->|He]; [by left|].
      right. exists hd. split; [by left|done].
    + right. exists nd. split; [by right|done].
  - destruct (String.ltb (name hd) s).
    + destruct (_add_edge tl s d w) as [tl'| |]; [|done..].
      cbn [mbind result_bind]. intros [= <-].
      rewrite elem_of_cons. intros [->|Hnd] He.
      * right. exists hd. split; [by left|done].
      * destruct (IH tl' eq_refl Hnd He) as [->|(nd0 & ? & ?)]; [by left|].
        right. exists nd0. split; [by right|done].
    + intros [= <-] Hnd He. right. by exists nd.
Qed.

Lemma _delete_edge_elem g s d g' nd e :
  _delete_edge g s d = Ok g' -> nd ∈ g' -> e ∈ edges nd ->
  exists nd0, nd0 ∈ g /\ e ∈ edges nd0.
Proof.
  revert g'. induction g as [|hd tl IH]; intros g'; cbn [_delete_edge];
    [done|].
  destruct (String.eqb s (name hd)).
  - intros [= <-]. rewrite elem_of_cons. intros [->|Hnd] He.
    + cbn [set_edges edges] in He. apply edge_delete_elem in He.
      exists hd. split; [by left|done].
    + exists nd. split; [by right|done].
  - destruct (String.ltb (name hd) s).
    + destruct (_delete_edge tl s d) as [tl'| |]; [|done..].
      cbn [mbind result_bind]. intros [= <-].
      rewrite elem_of_cons. intros [->|Hnd] He.
      * exists hd. split; [by left|done].
      * destruct (IH tl' eq_refl Hnd He) as (nd0 & ? & ?).
        exists nd0. split; [by right|done].
    + intros [= <-] Hnd He. by exists nd.
Qed.

Lemma edges_closed_forall g :
  edges_closed g = true
  <-> forall nd e, nd ∈ g -> e ∈ edges nd -> find_node g (Edge.dst e) = true.
Proof.
  unfold edges_closed. rewrite forallb_forall. split.
  - intros H nd e Hnd He. specialize (H nd (proj1 (list_elem_of_In _ _) Hnd)).
    rewrite forallb_forall in H. by apply H, list_elem_of_In.
  - intros H nd Hnd. apply forallb_forall. intros e He.
    apply (H nd); by apply list_elem_of_In.
Qed.

Lemma weights_nonneg_forall g :
  weights_nonneg g = true
  <-> forall nd e, nd ∈ g -> e ∈ edges nd -> 0 <= Edge.weight e.
Proof.
  unfold weights_nonneg. rewrite forallb_forall. split.
  - intros H nd e Hnd He. specialize (H nd (proj1 (list_elem_of_In _ _) Hnd)).
    rewrite forallb_forall in H. by apply Z.leb_le, H, list_elem_of_In.
  - intros H nd Hnd. apply forallb_forall. intros e He.
    apply Z.leb_le, (H nd); by apply list_elem_of_In.
Qed.

(** What every graph built through the interface satisfies. *)
Lemma built_invariant (ok : Z -> Prop) g :
  built ok g ->
  well_formed g = true
  /\ edges_closed g = true
  /\ forall nd e, nd ∈ g -> e ∈ edges nd -> ok (Edge.weight e).
Proof.
  induction 1 as [|g nm i _ (Hwf & Hc & Hok) Hf
                  |g s d w g' _ (Hwf & Hc & Hok) Hw Hadd
                  |g s d g' _ (Hwf & Hc & Hok) Hdel
                  |g nm _ (Hwf & Hc & Hok)].
  - split_and!; [done..|]. by intros nd e ?%elem_of_nil.
  - split_and!.
    + by apply well_formed_add_node_fresh.
    + apply edges_closed_forall. intros nd e [->|Hnd]%add_node_elem He;
        [by apply elem_of_nil in He|].
      rewrite find_node_add_node.
      rewrite (proj1 (edges_closed_forall g) Hc nd e Hnd He).
      apply orb_true_r.
    + intros nd e [->|Hnd]%add_node_elem He; [by apply elem_of_nil in He|].
      by apply (Hok nd).
  - unfold add_edge in Hadd.
    destruct (find_node g s) eqn:Hs; cbn [negb orb] in Hadd;
      [|by injection Hadd as <-].
    destruct (find_node g d) eqn:Hd; cbn [negb orb] in Hadd;
      [|by injection Hadd as <-].
    destruct (_add_edge_well_formed g s d w Hwf Hs) as (g1 & Hg1 & Hwf1 & Hn).
    rewrite Hg1 in Hadd. injection Hadd as ->.
    assert (forall nm, find_node g' nm = find_node g nm) as Hfind.
    { intros nm. apply find_node_names. by rewrite <- !list_nodes_fmap. }
    split_and!; [done| |].
    + apply edges_closed_forall. intros nd e Hnd He. rewrite Hfind.
      destruct (_add_edge_elem g s d w g' nd e Hg1 Hnd He)
        as [->|(nd0 & Hnd0 & He0)]; [done|].
      by apply (proj1 (edges_closed_forall g) Hc nd0).
    + intros nd e Hnd He.
      destruct (_add_edge_elem g s d w g' nd e Hg1 Hnd He)
        as [->|(nd0 & Hnd0 & He0)]; [done|].
      by apply (Hok nd0).
  - unfold delete_edge in Hdel.
    destruct (find_edge g s d) eqn:He; cbn [negb] in Hdel;
      [|by injection Hdel as <-].
    pose proof (find_edge_find_node g s d He) as Hs.
    destruct (_delete_edge_spec g s d Hwf Hs) as (g1 & Hg1 & Hwf1 & _).
    destruct (_delete_edge_returns g s d Hs) as (g2 & Hg2 & Hn & _).
    rewrite Hg1 in Hdel, Hg2. injection Hdel as ->. injection Hg2 as <-.
    assert (forall nm, find_node g' nm = find_node g nm) as Hfind.
    { intros nm. apply find_node_names. by rewrite <- !list_nodes_fmap. }
    split_and!; [done| |].
    + apply edges_closed_forall. intros nd e Hnd Hin. rewrite Hfind.
      destruct (_delete_edge_elem g s d g' nd e Hg1 Hnd Hin)
        as (nd0 & Hnd0 & He0).
      by apply (proj1 (edges_closed_forall g) Hc nd0).
    + intros nd e Hnd Hin.
      destruct (_delete_edge_elem g s d g' nd e Hg1 Hnd Hin)
        as (nd0 & Hnd0 & He0).
      by apply (Hok nd0).
  - split_and!.
    + by apply well_formed_delete_edges, well_formed_delete_node.
    + by apply edges_closed_cleanup.
    + intros nd e Hnd He.
      destruct (delete_edges_elem _ nm nd e Hnd He) as (nd0 & Hnd0 & He0).
      apply (Hok nd0); [|done]. by eapply delete_node_elem.
Qed.

End Built.

(** X22: every graph built through the interface, from the empty list by
    [add_node] of fresh names, [add_edge], [delete_edge] and [delete_node]
    followed by [delete_edges], satisfies the invariant of the data model
    and has all its edges between nodes; its weights are those given to
    [add_edge].  On it [adjacency_matrix] and [prim] return; [floyd]
    returns an N x N matrix or raises [OverflowError], and it returns, as
    [warshall] does, when the weights are not negative and the path costs
    stay in the range of a float ([costs_float]); [dijkstra] returns when
    every weight converts to a float. *)
Theorem built_graphs_are_well_formed (ok : Z -> Prop) (g : AdjacencyList) :
  built ok g ->
  well_formed g = true
  /\ edges_closed g = true
  /\ (forall nd e, nd ∈ g -> e ∈ edges nd -> ok (Edge.weight e))
  /\ ((forall w, ok w -> 0 <= w) -> weights_nonneg g = true)
  /\ ((forall w, ok w -> Num.float_ok w = true) -> weights_float g = true)
  /\ match floyd g with
     | Ok m => sq (length g) m
     | Raise e => e = OverflowError
     | Unfinished => False
     end
  /\ (weights_nonneg g = true -> costs_float g = true ->
      exists m w, floyd g = Ok m /\ warshall g = Ok w)
  /\ (exists m, adjacency_matrix g = Ok m)
  /\ (forall start_node,
        (weights_float g = true ->
         exists d e, dijkstra g start_node = Ok (d, e))
        /\ (exists l c, prim g start_node = Ok (l, c))).
Proof.
  intros (Hwf & Hc & Hok)%built_invariant.
  split_and!; [done..| | | | | |].
  - intros Hpos. apply weights_nonneg_forall. intros nd e Hnd He.
    by apply Hpos, (Hok nd).
  - intros Hfl. unfold weights_float. apply forallb_forall. intros nd Hnd.
    apply forallb_forall. intros e He.
    apply Hfl, (Hok nd); by apply list_elem_of_In.
  - by apply floyd_outcome.
  - intros Hnn Hfl.
    destruct (floyd_finite_cells g Hwf Hc Hnn Hfl) as (m & Hm & _).
    exists m. eexists. split; [done|].
    unfold warshall. rewrite Hm. apply warshall_loops_spec.
  - destruct g as [|hd tl]; [by eexists|]. unfold adjacency_matrix.
    rewrite node_cardinality_length.
    destruct (add_list_to_matrix_returns (hd :: tl) Hc) as (m0 & -> & _).
    by eexists.
  - intros start_node. split.
    + intros Hfl.
      destruct (dijkstra_returns g start_node Hc Hfl)
        as (gf & s & _ & _ & _ & ->).
      by eexists _, _.
    + destruct (prim_returns g start_node) as (gf & s & _ & _ & _ & ->).
      by eexists _, _.
Qed.

Lemma built_graphs_are_well_formed_witness :
  built (fun w => 0 <= w) detour_graph
  /\ well_formed detour_graph = true
  /\ edges_closed detour_graph = true.
Proof.
  assert (built (fun w => 0 <= w) detour_graph) as Hb.
  { apply (built_add_edge _
             [Node "a" None [Edge.Cell "b" 1; Edge.Cell "c" 4];
              Node "b" None []; Node "c" None []] "b" "c" 2);
      [|lia|reflexivity].
    apply (built_add_edge _
             [Node "a" None [Edge.Cell "b" 1];
              Node "b" None []; Node "c" None []] "a" "c" 4);
      [|lia|reflexivity].
    apply (built_add_edge _
             [Node "a" None []; Node "b" None []; Node "c" None []]
             "a" "b" 1);
      [|lia|reflexivity].
    apply (built_add_node _ [Node "a" None []; Node "b" None []] "c" None);
      [|reflexivity].
    apply (built_add_node _ [Node "b" None []] "a" None); [|reflexivity].
    apply (built_add_node _ [] "b" None); [|reflexivity].
    apply built_empty. }
  split; [exact Hb|].
  destruct (built_graphs_are_well_formed _ _ Hb) as (Hwf & Hc & _).
  split; [exact Hwf|exact Hc].
Defined.

(** ** Dijkstra with positive weights: the contract of the docstring *)

Section PositiveWalks.

Variable g : AdjacencyList.
Hypothesis positive : weights_positive g = true.

Lemma weights_positive_nonneg : weights_nonneg g = true.
Proof.
  unfold weights_positive in positive. unfold weights_nonneg.
  rewrite forallb_forall in positive. apply forallb_forall. intros nd Hnd.
  specialize (positive nd Hnd). rewrite forallb_forall in positive.
  apply forallb_forall. intros e He. specialize (positive e He).
  apply Z.ltb_lt in positive. apply Z.leb_le. lia.
Qed.

Lemma edge_lookup_positive (es : Edge.t) d :
  forallb (fun e => 0 <? Edge.weight e) es = true ->
  Num.ltb (Fin 0) (edge_lookup es d) = true.
Proof.
  induction es as [|e es IH]; cbn [forallb edge_lookup]; [done|].
  intros [He Hes]%andb_true_iff.
  destruct (String.eqb d (Edge.dst e)); [exact He|by apply IH].
Qed.

Lemma edge_cost_positive i j : Num.ltb (Fin 0) (edge_cost g i j) = true.
Proof.
  unfold edge_cost. destruct (g !! i) as [a|] eqn:Ha; [|done].
  destruct (g !! j) as [b|]; [|done]. apply edge_lookup_positive.
  unfold weights_positive in positive. rewrite forallb_forall in positive.
  apply positive, list_elem_of_In. by eapply list_elem_of_lookup_2.
Qed.

(** A walk has at least one edge, so its cost is positive. *)
Lemma walk_cost_positive i mid j :
  Num.ltb (Fin 0) (walk_cost g i mid j) = true.
Proof.
  revert i. induction mid as [|v mid IH]; intros i; cbn [walk_cost].
  - apply edge_cost_positive.
  - pose proof (edge_cost_positive i v) as H1. pose proof (IH v) as H2.
    destruct (edge_cost g i v), (walk_cost g v mid j); simpl in *; try done.
    apply Z.ltb_lt in H1, H2. apply Z.ltb_lt. lia.
Qed.

Lemma path_reached_zero st j x :
  path_reached g st j x -> Num.is_zero x = true -> j = st.
Proof.
  intros [->|[[-> _]|[mid <-]]] Hz; [done|done|].
  pose proof (walk_cost_positive st mid j) as Hpos.
  destruct (walk_cost g st mid j) as [z|]; [|done]. simpl in *.
  apply Z.eqb_eq in Hz. apply Z.ltb_lt in Hpos. lia.
Qed.

End PositiveWalks.

(** X23: with strictly positive weights that all convert to a float, in
    a well-formed graph whose edges all point to nodes, [dijkstra] keeps
    the contract of its docstring: both arrays hold [None] at the index of the start node and
    nowhere else in [d]; at every other index [j], [d[j]] is the least
    cost of a path from the start to the [j]-th node ([inf] when there is
    none) and [e[j]] is the name of the node before [j] on such a path,
    [None] exactly when there is no path. *)
Theorem dijkstra_positive_weights_contract (g : AdjacencyList)
    (start_node : string) (st : nat) :
  well_formed g = true -> edges_closed g = true ->
  weights_positive g = true -> weights_float g = true ->
  list_nodes g !! st = Some start_node ->
  exists d e,
    dijkstra g start_node = Ok (d, e)
    /\ d !! st = Some None /\ e !! st = Some None
    /\ forall j, (j < length g)%nat -> j <> st ->
         exists x,
           least_path_cost g st j x
           /\ d !! j = Some (Some x)
           /\ match e !! j with
              | Some (Some nm) =>
                  x <> Inf
                  /\ exists u xu,
                       list_nodes g !! u = Some nm
                       /\ least_path_cost g st u xu
                       /\ x = Num.sum xu (edge_cost g u j)
              | Some None => x = Inf
              | None => False
              end.
Proof.
  intros Hwf Hc Hpos Hfl Hname.
  pose proof (weights_positive_nonneg g Hpos) as Hnn.
  assert (st < length g)%nat as Hst.
  { apply lookup_lt_Some in Hname.
    by rewrite list_nodes_fmap, length_fmap in Hname. }
  pose proof Hwf as [Hasc _]%andb_true_iff.
  destruct (dijkstra_run_inv g Hwf Hc Hnn Hfl st start_node Hname)
    as (gf & s & Hrun & Hs & Hinv).
  destruct (dijkstra_output g start_node Hasc Hc Hfl)
    as (gf' & s' & Hrun' & _ & Hout).
  rewrite Hrun in Hrun'. injection Hrun' as <- <-.
  pose proof (scratch_of_length _ _ Hs) as Hlen.
  pose proof Hinv as (_ & Hstart & Hsound & _ & _ & Hprev).
  exists (out_distance <$> gf), (out_previous <$> gf).
  assert (forall j, (j < length g)%nat ->
            exists x p,
              info (gf !!! j) = Some (x, p) /\ scratch_distance gf j = x
              /\ (out_distance <$> gf) !! j
                 = Some (if Num.is_zero x then None else Some x)
              /\ (out_previous <$> gf) !! j
                 = Some (if Num.is_zero x then None else p)) as Hcell.
  { intros j Hj. destruct (scratch_of_info0 g gf j Hs Hj) as (x & p & Hx).
    exists x, p. rewrite !list_lookup_fmap.
    rewrite (list_lookup_lookup_total_lt gf j) by lia.
    unfold out_distance, out_previous. simpl. rewrite Hx.
    split_and!; [done|by apply (scratch_distance_info _ _ _ p)|done..]. }
  split_and!; [done| | |].
  - destruct (Hcell st Hst) as (x & p & _ & Hx & -> & _).
    by rewrite <- Hx, Hstart.
  - destruct (Hcell st Hst) as (x & p & _ & Hx & _ & ->).
    by rewrite <- Hx, Hstart.
  - intros j Hj Hne. destruct (Hcell j Hj) as (x & p & Hinfo & Hx & -> & ->).
    assert (Num.is_zero x = false) as Hnz.
    { destruct (Num.is_zero x) eqn:Hz; [|done]. destruct Hne.
      apply (path_reached_zero g Hpos st j x); [|done].
      rewrite <- Hx. by apply Hsound. }
    rewrite Hnz.
    exists x. split; [rewrite <- Hx; by apply (dijkstra_inv_least g st gf s)|].
    split; [done|]. specialize (Hprev j Hj).
    unfold scratch_previous in Hprev. rewrite Hinfo, Hx in Hprev.
    destruct p as [nm|].
    + destruct Hprev as (u & Hu & Hnm & Hfin & Hdj).
      assert (u < length g)%nat as Hult.
      { apply (dijkstra_inv_valid g st gf [] s u Hinv), elem_of_app.
        by left. }
      split; [done|].
      exists u, (scratch_distance gf u). split_and!; [done| |done].
      by apply (dijkstra_inv_least g st gf s).
    + destruct Hprev as [Hinf|Hzero]; [done|]. by subst x.
Qed.

Lemma dijkstra_positive_weights_contract_witness :
  dijkstra detour_graph "b" = Ok ([Some Inf; None; Some (Fin 2)],
                                  [None; None; Some "b"])
  /\ exists d e,
       dijkstra detour_graph "b" = Ok (d, e)
       /\ d !! 1%nat = Some None /\ e !! 1%nat = Some None
       /\ forall j, (j < 3)%nat -> j <> 1%nat ->
            exists x,
              least_path_cost detour_graph 1 j x
              /\ d !! j = Some (Some x)
              /\ match e !! j with
                 | Some (Some nm) =>
                     x <> Inf
                     /\ exists u xu,
                          list_nodes detour_graph !! u = Some nm
                          /\ least_path_cost detour_graph 1 u xu
                          /\ x = Num.sum xu (edge_cost detour_graph u j)
                 | Some None => x = Inf
                 | None => False
                 end.
Proof.
  split; [reflexivity|].
  apply (dijkstra_positive_weights_contract detour_graph "b" 1); reflexivity.
Defined.
